(** * ErrorClassificationalgo: the annotation workflow of [main.py]

    A shallow embedding of the data path of the CSV reviewer: the record
    store filled by [MainWindow.load_csv] and written by
    [MainWindow.save_csv], the row cursor [RowOverviewWindow] and the
    per-category dialog [DetailedClassificationWindow].

    Python dictionaries are finite maps ([gmap]); a row of the store is a
    dictionary whose keys are strings or [None] (the [restkey] of
    [csv.DictReader]) and whose values are strings, [None] (its [restval])
    or a list of strings.  Widgets are kept only as far as the handlers
    read them back: the text of a combo box, whether it is enabled, the
    result code of a dialog, and the message boxes shown.  A Python
    exception that nothing catches ends the run: handlers return in the
    error type [res]. *)

From Stdlib Require Import ZArith Ascii String.
From stdpp Require Import gmap strings list fin_maps.

Local Open Scope Z_scope.

(** ** Python strings and values *)

Module Py.

(** Characters are code points below 256.  [str.strip] removes the
    characters for which [str.isspace] holds. *)
Definition isspace (c : ascii) : bool :=
  let n := N_of_ascii c in
  ((9 <=? n) && (n <=? 13) || (28 <=? n) && (n <=? 32)
   || (n =? 133) || (n =? 160))%N.

Fixpoint lstrip (s : string) : string :=
  match s with
  | EmptyString => EmptyString
  | String c t => if isspace c then lstrip t else s
  end.

Fixpoint rstrip (s : string) : string :=
  match s with
  | EmptyString => EmptyString
  | String c t =>
      match rstrip t with
      | EmptyString => if isspace c then EmptyString else String c EmptyString
      | t' => String c t'
      end
  end.

Definition strip (s : string) : string := rstrip (lstrip s).

Definition lower_char (c : ascii) : ascii :=
  let n := N_of_ascii c in
  if ((65 <=? n) && (n <=? 90)
      || (192 <=? n) && (n <=? 222) && negb (n =? 215))%N
  then ascii_of_N (n + 32) else c.

Fixpoint lower (s : string) : string :=
  match s with
  | EmptyString => EmptyString
  | String c t => String (lower_char c) (lower t)
  end.

(** [os.path.basename]: what follows the last slash. *)
Fixpoint basename_from (acc p : string) : string :=
  match p with
  | EmptyString => acc
  | String c t =>
      if decide (c = "/"%char) then basename_from EmptyString t
      else basename_from (acc +:+ String c EmptyString) t
  end.

Definition basename : string → string := basename_from EmptyString.

(** The values a row dictionary holds. *)
Inductive value :=
| VStr (s : string)
| VNone
| VList (l : list string).

Global Instance value_eq_dec : EqDecision value.
Proof. solve_decision. Defined.

Inductive exn :=
| AttributeError | TypeError | KeyError | ValueError | OSError.

Inductive res (A : Type) :=
| Ok (a : A)
| Raise (e : exn).
Global Arguments Ok {A} a.
Global Arguments Raise {A} e.

Global Instance res_ret : MRet res := λ A a, Ok a.
Global Instance res_bind : MBind res := λ A B f m,
  match m with Ok a => f a | Raise e => Raise e end.

(** [for x in xs: body]: a left fold that stops at the first exception. *)
Fixpoint for_each {S A} (body : S → A → res S) (xs : list A) (s : S) : res S :=
  match xs with
  | [] => Ok s
  | x :: xs' => s' ← body s x; for_each body xs' s'
  end.

End Py.
Export Py.

(** A row dictionary. *)
Abbreviation row := (gmap (option string) value).

(** The message boxes of [QMessageBox]: kind, title, text.  The text of
    a warning ends with the list of names it reports, and the text of an
    error box is [text], a line break and [str(e)] for the exception [e]
    that was caught. *)
Inductive notice :=
| Information (title text : string)
| Warning (title : string) (names : list string)
| Critical (title text : string) (e : exn).

Inductive DialogCode := Rejected | Accepted.

Global Instance DialogCode_eq_dec : EqDecision DialogCode.
Proof. solve_decision. Defined.

(** ** Module constants *)

Definition ERROR_COLUMNS : list string :=
  ["Grammar"; "Factuality"; "Hallucination"; "Redundancy"; "Repetition";
   "Missing Step"; "Coherency"; "Commonsense"; "Arithmetic"].

Definition REQUIRED_COLUMNS : list string :=
  ["question"; "true_answer"; "predicted_answer_full"; "is_correct"]
  ++ ERROR_COLUMNS.

(** The items of every answer combo box, [addItems(["No", "Yes"])]. *)
Definition combo_items : list string := ["No"; "Yes"].

(** A [QComboBox] that is not editable: [setCurrentText] selects the item
    with that text and does nothing when there is none. *)
Record combo := Combo { currentText : string; isEnabled : bool }.

Global Instance combo_eq_dec : EqDecision combo.
Proof. solve_decision. Defined.

Definition setCurrentText (text : string) (c : combo) : combo :=
  if decide (text ∈ combo_items) then Combo text (isEnabled c) else c.

Definition setEnabled (b : bool) (c : combo) : combo :=
  Combo (currentText c) b.

(** [if val not in ["Yes", "No"]: val = "No"], as written in
    [load_row_into_ui] and [load_current_question]. *)
Definition yes_or_no (val : value) : string :=
  match val with
  | VStr s => if decide (s ∈ ["Yes"; "No"]) then s else "No"
  | _ => "No"
  end.

(** [xs[i]] under the guard [0 <= i < len(xs)]. *)
Definition in_range {A} (xs : list A) (i : Z) : option A :=
  if decide (0 ≤ i) then xs !! Z.to_nat i else None.

(** [row.get("is_correct", "").strip().lower() == "true"]; [None] has no
    [strip]. *)
Definition is_correct (r : row) : res bool :=
  match r !! Some "is_correct" with
  | None => Ok (bool_decide (lower (strip "") = "true"))
  | Some (VStr s) => Ok (bool_decide (lower (strip s) = "true"))
  | Some _ => Raise AttributeError
  end.

(** ** csv.DictReader and csv.DictWriter *)

Module Csv.

(** [dict(zip(fieldnames, row))]: a later duplicate of a name wins. *)
Definition dict_zip (fieldnames : list string) (record : list string) : row :=
  foldl (λ d kv, <[Some kv.1 := VStr kv.2]> d) ∅ (zip fieldnames record).

(** One step of [DictReader.__next__] on a non-empty record, with the
    default [restkey=None] and [restval=None]. *)
Definition to_dict (fieldnames : list string) (record : list string) : row :=
  let d := dict_zip fieldnames record in
  let lf := length fieldnames in
  let lr := length record in
  if decide (lf < lr)%nat then <[None := VList (drop lf record)]> d
  else if decide (lr < lf)%nat
       then foldl (λ d key, <[Some key := VNone]> d) d (drop lr fieldnames)
       else d.

(** [list(reader)]: the records that are [[]] (blank lines) are skipped. *)
Definition read_all (fieldnames : list string) (records : list (list string))
  : list row :=
  to_dict fieldnames <$> filter (λ r, r ≠ []) records.

(** [DictWriter._dict_to_list] with [extrasaction="raise"] and
    [restval=""]: the record handed to the underlying writer, or
    [ValueError] when the dictionary has a key outside [fieldnames]. *)
Definition dict_to_list (fieldnames : list string) (r : row)
  : res (list value) :=
  let wrong_fields : gset (option string) :=
    dom r ∖ list_to_set (Some <$> fieldnames) in
  if decide (wrong_fields = ∅)
  then Ok ((λ key, default (VStr "") (r !! Some key)) <$> fieldnames)
  else Raise ValueError.

End Csv.

(** ** DetailedClassificationWindow *)

Module Detail.

Record window := Window {
  responses : gmap string string;
  current_idx : Z;
  answer_combo : combo;
  result : option DialogCode;
  notices : list notice
}.

Definition set_responses (f : gmap string string → gmap string string)
    (w : window) : window :=
  Window (f (responses w)) (current_idx w) (answer_combo w) (result w)
         (notices w).

Definition set_answer_combo (f : combo → combo) (w : window) : window :=
  Window (responses w) (current_idx w) (f (answer_combo w)) (result w)
         (notices w).

(** [QDialog.done]: the first result code ends [exec_]. *)
Definition done (code : DialogCode) (w : window) : window :=
  Window (responses w) (current_idx w) (answer_combo w)
         (Some (default code (result w))) (notices w).

Definition accept : window → window := done Accepted.
Definition close : window → window := done Rejected.

Definition load_current_question (w : window) : window :=
  match in_range ERROR_COLUMNS (current_idx w) with
  | Some err_key =>
      let val := yes_or_no (VStr (default "No" (responses w !! err_key))) in
      set_answer_combo (setCurrentText val) w
  | None => close w
  end.

(** [responses[err_key] = answer_combo.currentText()] under the range
    guard, shared by [next_question] and [finish]. *)
Definition record_answer (w : window) : window :=
  match in_range ERROR_COLUMNS (current_idx w) with
  | Some err_key =>
      set_responses (insert err_key (currentText (answer_combo w))) w
  | None => w
  end.

Definition next_question (w : window) : window :=
  let w := record_answer w in
  let w := Window (responses w) (current_idx w + 1) (answer_combo w)
                  (result w) (notices w) in
  if decide (Z.of_nat (length ERROR_COLUMNS) ≤ current_idx w)
  then accept (Window (responses w) (current_idx w) (answer_combo w)
                 (result w)
                 (notices w ++ [Information "Done" "All 9 questions answered."]))
  else load_current_question w.

Definition finish (w : window) : window := accept (record_answer w).

Definition get_responses (w : window) : gmap string string := responses w.

(** [__init__]; the row number and the total only go into the title. *)
Definition init (initial_values : option (gmap string string)) : window :=
  let responses :=
    match initial_values with
    | Some d => d
    | None => list_to_map ((λ col, (col, "No")) <$> ERROR_COLUMNS)
    end in
  load_current_question
    (Window responses 0 (Combo "No" true) None []).

(** What the user can do in the dialog. *)
Inductive event :=
| Pick (text : string)
| ClickNext
| ClickFinish
| CloseWindow.

Definition handle (ev : event) (w : window) : window :=
  match ev with
  | Pick text => set_answer_combo (setCurrentText text) w
  | ClickNext => next_question w
  | ClickFinish => finish w
  | CloseWindow => close w
  end.

(** The event loop: events are handled while the dialog has no result. *)
Fixpoint run (script : list event) (w : window) : window :=
  match result w, script with
  | None, ev :: script' => run script' (handle ev w)
  | _, _ => w
  end.

(** [exec_] returns once the dialog has a result; a script that ends
    before that is one where the user closes the window last. *)
Definition exec_ (script : list event) (w : window) : window :=
  close (run script w).

End Detail.

(** ** RowOverviewWindow *)

Module Overview.

Record window := Window {
  csv_data : list row;
  current_index : Z;
  question_edit : string;
  true_answer_edit : string;
  pred_answer_edit : string;
  error_combos : gmap string combo;
  detail_btn : bool;
  result : option DialogCode;
  notices : list notice
}.

Definition set_csv_data (f : list row → list row) (w : window) : window :=
  Window (f (csv_data w)) (current_index w) (question_edit w)
         (true_answer_edit w) (pred_answer_edit w) (error_combos w)
         (detail_btn w) (result w) (notices w).

Definition set_current_index (i : Z) (w : window) : window :=
  Window (csv_data w) i (question_edit w) (true_answer_edit w)
         (pred_answer_edit w) (error_combos w) (detail_btn w) (result w)
         (notices w).

Definition set_texts (q t p : string) (w : window) : window :=
  Window (csv_data w) (current_index w) q t p (error_combos w)
         (detail_btn w) (result w) (notices w).

Definition set_error_combos (cs : gmap string combo) (w : window) : window :=
  Window (csv_data w) (current_index w) (question_edit w)
         (true_answer_edit w) (pred_answer_edit w) cs (detail_btn w)
         (result w) (notices w).

Definition set_detail_btn (b : bool) (w : window) : window :=
  Window (csv_data w) (current_index w) (question_edit w)
         (true_answer_edit w) (pred_answer_edit w) (error_combos w) b
         (result w) (notices w).

Definition show (n : list notice) (w : window) : window :=
  Window (csv_data w) (current_index w) (question_edit w)
         (true_answer_edit w) (pred_answer_edit w) (error_combos w)
         (detail_btn w) (result w) (notices w ++ n).

Definition done (code : DialogCode) (w : window) : window :=
  Window (csv_data w) (current_index w) (question_edit w)
         (true_answer_edit w) (pred_answer_edit w) (error_combos w)
         (detail_btn w) (Some (default code (result w))) (notices w).

Definition accept : window → window := done Accepted.
Definition close : window → window := done Rejected.

(** [self.error_combos[col]]. *)
Definition combo_of (cs : gmap string combo) (col : string) : res combo :=
  match cs !! col with
  | Some c => Ok c
  | None => Raise KeyError
  end.

(** [self.error_combos[col].f(...)] for a method that changes the combo. *)
Definition on_combo (f : combo → combo) (cs : gmap string combo)
    (col : string) : res (gmap string combo) :=
  c ← combo_of cs col; Ok (<[col := f c]> cs).

(** [setPlainText(row.get(key, ""))]: the argument is a [str], or [None],
    which PyQt takes for the null string; a list is refused. *)
Definition plain_text (r : row) (key : string) : res string :=
  match r !! Some key with
  | None | Some VNone => Ok ""
  | Some (VStr s) => Ok s
  | Some (VList _) => Raise TypeError
  end.

Definition load_row_into_ui (index : Z) (w : window) : res window :=
  match in_range (csv_data w) index with
  | None => Ok w
  | Some r =>
      let w := set_current_index index w in
      question_text ← plain_text r "question";
      true_text ← plain_text r "true_answer";
      pred_text ← plain_text r "predicted_answer_full";
      let w := set_texts question_text true_text pred_text w in
      correct ← is_correct r;
      if correct : bool then
        cs ← for_each
               (λ cs col,
                  on_combo (λ c, setEnabled false (setCurrentText "No" c))
                           cs col)
               ERROR_COLUMNS (error_combos w);
        Ok (set_detail_btn false (set_error_combos cs w))
      else
        let w := set_detail_btn true w in
        cs ← for_each
               (λ cs col,
                  let val := yes_or_no (default (VStr "") (r !! Some col)) in
                  on_combo (λ c, setCurrentText val (setEnabled true c))
                           cs col)
               ERROR_COLUMNS (error_combos w);
        Ok (set_error_combos cs w)
  end.

(** The answers the dialog leaves in the combos on acceptance. *)
Definition apply_responses (final_responses : gmap string string)
    (cs : gmap string combo) : res (gmap string combo) :=
  for_each
    (λ cs col,
       match final_responses !! col with
       | Some text => on_combo (setCurrentText text) cs col
       | None => Raise KeyError
       end)
    ERROR_COLUMNS cs.

(** [current_answers]: the text of every combo, the seed of the dialog. *)
Definition current_answers (w : window) : res (gmap string string) :=
  for_each
    (λ d col, c ← combo_of (error_combos w) col;
              Ok (<[col := currentText c]> d))
    ERROR_COLUMNS ∅.

(** [script] is what the user does in the dialog once it is open. *)
Definition open_detailed_classification (script : list Detail.event)
    (w : window) : res window :=
  match in_range (csv_data w) (current_index w) with
  | None => Ok w
  | Some r =>
      correct ← is_correct r;
      if correct : bool then
        Ok (show [Information "Skipped"
                    "This row is correct. No classification needed."] w)
      else
        current_answers ← current_answers w;
        let dialog := Detail.exec_ script (Detail.init (Some current_answers)) in
        let w := show (Detail.notices dialog) w in
        if decide (Detail.result dialog = Some Accepted) then
          cs ← apply_responses (Detail.get_responses dialog) (error_combos w);
          Ok (set_error_combos cs w)
        else Ok w
  end.

(** The two loops of [save_current_row] over the categories of the row. *)
Definition commit (w : window) (correct : bool) (r : row) : res row :=
  if correct then
    for_each (λ r col, Ok (<[Some col := VStr "No"]> r)) ERROR_COLUMNS r
  else
    for_each
      (λ r col, c ← combo_of (error_combos w) col;
                Ok (<[Some col := VStr (currentText c)]> r))
      ERROR_COLUMNS r.

Definition save_current_row (w : window) : res window :=
  match in_range (csv_data w) (current_index w) with
  | None => Ok w
  | Some r =>
      correct ← is_correct r;
      r' ← commit w correct r;
      Ok (set_csv_data (<[Z.to_nat (current_index w) := r']>) w)
  end.

Definition save_and_next_row (w : window) : res window :=
  w ← save_current_row w;
  if decide (current_index w + 1 < Z.of_nat (length (csv_data w))) then
    let w := set_current_index (current_index w + 1) w in
    load_row_into_ui (current_index w) w
  else
    Ok (close (show [Information "Done" "No more rows to annotate."] w)).

Definition save_and_previous_row (w : window) : res window :=
  w ← save_current_row w;
  if decide (0 < current_index w) then
    let w := set_current_index (current_index w - 1) w in
    load_row_into_ui (current_index w) w
  else
    Ok (show [Information "At First Row" "No previous row available."] w).

Definition finish_all (w : window) : res window :=
  w ← save_current_row w;
  Ok (accept w).

(** [__init__]: nine enabled combos showing their first item, then the
    first row. *)
Definition init (data : list row) (row_number : Z) : res window :=
  load_row_into_ui (row_number - 1)
    (Window data (row_number - 1) "" "" ""
            (list_to_map ((λ col, (col, Combo "No" true)) <$> ERROR_COLUMNS))
            true None []).

(** What the user can do in the window.  A disabled widget takes no
    input. *)
Inductive event :=
| Pick (col text : string)
| ClickDetail (script : list Detail.event)
| ClickPrevious
| ClickNext
| ClickFinishAll
| CloseWindow.

Definition handle (ev : event) (w : window) : res window :=
  match ev with
  | Pick col text =>
      match error_combos w !! col with
      | Some c =>
          if isEnabled c
          then Ok (set_error_combos
                     (<[col := setCurrentText text c]> (error_combos w)) w)
          else Ok w
      | None => Ok w
      end
  | ClickDetail script =>
      if detail_btn w then open_detailed_classification script w else Ok w
  | ClickPrevious => save_and_previous_row w
  | ClickNext => save_and_next_row w
  | ClickFinishAll => finish_all w
  | CloseWindow => Ok (close w)
  end.

(** The event loop: events are handled while the dialog has no result. *)
Fixpoint run (events : list event) (w : window) : res window :=
  match result w, events with
  | None, ev :: events' => w' ← handle ev w; run events' w'
  | _, _ => Ok w
  end.

(** [exec_] returns once the dialog has a result; a script that ends
    before that is one where the user closes the window last. *)
Definition exec_ (events : list event) (w : window) : res window :=
  w ← run events w; Ok (close w).

End Overview.

(** ** MainWindow *)

Module Main.

Record CSVTableModel := Model {
  _data : list row;
  _headers : list string
}.

Record window := Window {
  model : option CSVTableModel;
  csv_file_path : option string;
  annotate_btn : bool;
  save_btn : bool;
  notices : list notice
}.

Definition show (n : list notice) (w : window) : window :=
  Window (model w) (csv_file_path w) (annotate_btn w) (save_btn w)
         (notices w ++ n).

(** [__init__]: nothing loaded, both buttons disabled. *)
Definition init : window := Window None None false false [].

(** What [open] and [csv.reader] give for the chosen file: the exception
    they raise, or the records of the file, each a list of fields. *)
Inductive file :=
| Unreadable (e : exn)
| Records (records : list (list string)).

(** [for col in ERROR_COLUMNS: if col not in headers: headers.append(col)] *)
Definition add_error_columns (headers : list string) : list string :=
  foldl (λ hs col, if decide (col ∈ hs) then hs else hs ++ [col])
        headers ERROR_COLUMNS.

(** [for col in ERROR_COLUMNS: if col not in row: row[col] = "No"] *)
Definition fill_error_columns (r : row) : row :=
  foldl (λ r col, match r !! Some col with
                  | Some _ => r
                  | None => <[Some col := VStr "No"]> r
                  end)
        r ERROR_COLUMNS.

(** How the [try] block of [load_csv] ends. *)
Inductive outcome :=
| Failed (e : exn)
| Missing (missing : list string)
| Loaded (data : list row) (headers : list string).

(** The [try] block of [load_csv].  [headers] is the very list the
    reader keeps as its [fieldnames], so the rows are read with the
    columns appended to it.  Without a first record [fieldnames] is
    [None] and [col not in headers] raises. *)
Definition read_csv (f : file) : outcome :=
  match f with
  | Unreadable e => Failed e
  | Records [] => Failed TypeError
  | Records (fieldnames :: records) =>
      let headers := add_error_columns fieldnames in
      let missing := filter (λ c, c ∉ headers) REQUIRED_COLUMNS in
      if decide (missing ≠ []) then Missing missing
      else
        let data := Csv.read_all headers records in
        Loaded (fill_error_columns <$> data) headers
  end.

(** [file_path] is the answer of the file dialog, empty when the user
    cancels. *)
Definition load_csv (file_path : string) (f : file) (w : window) : window :=
  if decide (file_path = "") then w
  else
    match read_csv f with
    | Failed e => show [Critical "Error" "Failed to load CSV:" e] w
    | Missing missing => show [Warning "Missing Columns" missing] w
    | Loaded data headers =>
        Window (Some (Model data headers)) (Some file_path) true true
               (notices w)
    end.

(** [annotate_rows]: the dialog works on the list of the model itself. *)
Definition annotate_rows (events : list Overview.event) (w : window)
  : res window :=
  match model w with
  | None => Ok w
  | Some m =>
      if decide (_data m = []) then
        Ok (show [Information "No Data" "No rows to annotate."] w)
      else
        dialog ← (d ← Overview.init (_data m) 1; Overview.exec_ events d);
        Ok (Window (Some (Model (Overview.csv_data dialog) (_headers m)))
                   (csv_file_path w) (annotate_btn w) (save_btn w)
                   (notices w ++ Overview.notices dialog))
  end.

(** The loop of [save_csv] over the rows: the rows as it leaves them, the
    records written so far, and the exception that stopped it, if any. *)
Fixpoint write_rows (headers : list string) (data : list row)
  : list row * list (list value) * option exn :=
  match data with
  | [] => ([], [], None)
  | r :: rest =>
      let r := fill_error_columns r in
      match Csv.dict_to_list headers r with
      | Raise e => (r :: rest, [], Some e)
      | Ok record =>
          let '(rest', out, e) := write_rows headers rest in
          (r :: rest', record :: out, e)
      end
  end.

(** [save_csv]: the new state and the records written to the output
    file, the header first.  Creating and opening the file is assumed to
    succeed. *)
Definition save_csv (w : window) : window * list (list value) :=
  match model w, csv_file_path w with
  | Some m, Some path =>
      if decide (path = "") then
        (show [Information "No Data" "No CSV loaded."] w, [])
      else
        let out_path := "results/annotated_" +:+ basename path in
        let headers := add_error_columns (_headers m) in
        let '(data, out, e) := write_rows headers (_data m) in
        let w := Window (Some (Model data headers)) (csv_file_path w)
                        (annotate_btn w) (save_btn w) (notices w) in
        (show [match e with
               | None => Information "Saved" ("CSV saved to: " +:+ out_path)
               | Some e => Critical "Error" "Failed to save CSV:" e
               end] w,
         (VStr <$> headers) :: out)
  | _, _ => (show [Information "No Data" "No CSV loaded."] w, [])
  end.

End Main.

(** ** Predicates of the statements *)

(** A value that has [strip]: a string, or the default of [row.get] when
    the key is absent. *)
Definition is_text (o : option value) : bool :=
  match o with
  | None | Some (VStr _) => true
  | Some _ => false
  end.

(** A value that [setPlainText] accepts: a string, [None], or the default
    of [row.get] when the key is absent. *)
Definition is_plain (o : option value) : bool :=
  match o with
  | Some (VList _) => false
  | _ => true
  end.

(** The rows the overview window can show without an exception: no list
    under the three text columns, which no row read from a file has, and
    a string, or nothing, under [is_correct]. *)
Definition displayable (r : row) : Prop :=
  Forall (λ key, is_plain (r !! Some key) = true)
         ["question"; "true_answer"; "predicted_answer_full"]
  ∧ is_text (r !! Some "is_correct") = true.

(** The nine combos of the overview window exist, as [__init__] leaves
    them. *)
Definition combos_exist (w : Overview.window) : Prop :=
  Forall (λ col, is_Some (Overview.error_combos w !! col)) ERROR_COLUMNS.

(** The row under the cursor, if there is one, can be committed: the nine
    combos exist and its [is_correct] is a string, or absent. *)
Definition committable (w : Overview.window) : Prop :=
  combos_exist w
  ∧ match in_range (Overview.csv_data w) (Overview.current_index w) with
    | Some r => is_text (r !! Some "is_correct") = true
    | None => True
    end.

(** A state of the overview window in which every handler returns: the
    nine combos exist and every row can be shown. *)
Definition ready (w : Overview.window) : Prop :=
  Forall (λ col, is_Some (Overview.error_combos w !! col)) ERROR_COLUMNS
  ∧ Forall displayable (Overview.csv_data w).

(** The row is exempt from annotation. *)
Definition locked (r : row) : Prop := is_correct r = Ok true.

(** All nine category fields of the row read "No". *)
Definition all_no (r : row) : Prop :=
  Forall (λ col, r !! Some col = Some (VStr "No")) ERROR_COLUMNS.

(** The row differs from [r] in category fields only. *)
Definition same_outside_categories (r r' : row) : Prop :=
  ∀ k, k ∉ (Some <$> ERROR_COLUMNS) → r' !! k = r !! k.

(** The working answers: the text of each of the nine combos. *)
Definition working_answer (w : Overview.window) (col : string) : string :=
  default "" (currentText <$> Overview.error_combos w !! col).

(** The answer combo shows one of its items, and every category before
    the current index holds one. *)
Definition answered (w : Detail.window) : Prop :=
  currentText (Detail.answer_combo w) ∈ combo_items
  ∧ ∀ (i : nat) c, ERROR_COLUMNS !! i = Some c → Z.of_nat i < Detail.current_idx w →
      ∃ text, Detail.responses w !! c = Some text ∧ text ∈ combo_items.

(** The cursor shows a locked row with every combo disabled on "No" and
    the drill-down button disabled. *)
Definition lock_shown (w : Overview.window) : Prop :=
  ∀ r, in_range (Overview.csv_data w) (Overview.current_index w) = Some r →
       locked r →
       Overview.detail_btn w = false
       ∧ ∀ col, col ∈ ERROR_COLUMNS →
           Overview.error_combos w !! col = Some (Combo "No" false).

(** What a run of the cursor may do to the rows: each row changes in its
    category fields only, and a locked row is either as it was or reads
    "No" in all nine. *)
Definition rows_step (d d' : list row) : Prop :=
  length d' = length d
  ∧ ∀ i r, d !! i = Some r →
      ∃ r', d' !! i = Some r' ∧ same_outside_categories r r'
            ∧ (locked r → r' = r ∨ all_no r').

(** What a run of the cursor leaves of the rows in any case: their number,
    their order and every field that is not a category. *)
Definition rows_frame (d d' : list row) : Prop :=
  length d' = length d
  ∧ ∀ i r, d !! i = Some r →
      ∃ r', d' !! i = Some r' ∧ same_outside_categories r r'.

(** The states of the overview window that the user can reach on [data]:
    the window is opened on some row and handles some events. *)
Definition reachable (data : list row) (w : Overview.window) : Prop :=
  ∃ row_number events w0,
    Overview.init data row_number = Ok w0 ∧ Overview.run events w0 = Ok w.

(** What [load_row_into_ui] leaves in the combo of a category. *)
Definition shown (r : row) (correct : bool) (col : string) : combo :=
  if correct then Combo "No" false
  else Combo (yes_or_no (default (VStr "") (r !! Some col))) true.

(** The predicates on concrete rows and windows are decidable. *)
Global Instance exn_eq_dec : EqDecision exn.
Proof. solve_decision. Defined.

Global Instance res_eq_dec {A} `{EqDecision A} : EqDecision (res A).
Proof. solve_decision. Defined.

Global Instance notice_eq_dec : EqDecision notice.
Proof. solve_decision. Defined.

Global Instance overview_window_eq_dec : EqDecision Overview.window.
Proof. solve_decision. Defined.

Global Instance outcome_eq_dec : EqDecision Main.outcome.
Proof. solve_decision. Defined.

Global Instance displayable_dec r : Decision (displayable r).
Proof. unfold displayable. apply _. Defined.

Global Instance ready_dec w : Decision (ready w).
Proof. unfold ready. apply _. Defined.

Global Instance combos_exist_dec w : Decision (combos_exist w).
Proof. unfold combos_exist. apply _. Defined.

Global Instance committable_dec w : Decision (committable w).
Proof.
  unfold committable.
  destruct (in_range (Overview.csv_data w) (Overview.current_index w));
    apply _.
Defined.

Global Instance locked_dec r : Decision (locked r).
Proof. unfold locked. apply _. Defined.

Global Instance all_no_dec r : Decision (all_no r).
Proof. unfold all_no. apply _. Defined.

(** ** Scenarios *)

(** A file with all thirteen columns and two rows: the first stores
    "Maybe" for Arithmetic (scenario B), the second is marked correct and
    stores "Yes" for Grammar. *)
Definition scenario_B_records : list (list string) :=
  [["q1"; "a1"; "p1"; "False";
    "No"; "No"; "No"; "No"; "No"; "No"; "No"; "No"; "Maybe"];
   ["q2"; "a2"; "p2"; "True";
    "Yes"; "No"; "No"; "No"; "No"; "No"; "No"; "No"; "No"]].

Definition scenario_B_file : Main.file :=
  Main.Records (REQUIRED_COLUMNS :: scenario_B_records).

(** The main window after loading that file. *)
Definition scenario_B_loaded : Main.window :=
  Main.load_csv "data.csv" scenario_B_file Main.init.

(** Its rows. *)
Definition scenario_B_rows : list row :=
  Csv.read_all REQUIRED_COLUMNS scenario_B_records.

(** A file whose header lacks [is_correct] and all categories. *)
Definition scenario_missing_file : Main.file :=
  Main.Records [["question"; "true_answer"; "predicted_answer_full"];
                ["q1"; "a1"; "p1"]].

(** The overview window as [exec_] finds it once [__init__] has returned;
    a window without rows stands for an [__init__] that raised. *)
Definition opened (m : res Overview.window) : Overview.window :=
  match m with
  | Ok w => w
  | Raise _ => Overview.Window [] 0 "" "" "" ∅ true None []
  end.

(** The overview window opened on the first row of scenario B, which is
    not locked, and on its second and last row, which is. *)
Definition scenario_B_first_row : Overview.window :=
  opened (Overview.init scenario_B_rows 1).

Definition scenario_B_last_row : Overview.window :=
  opened (Overview.init scenario_B_rows 2).

(** The rows of scenario B by index. *)
Definition scenario_B_row (i : nat) : row := default ∅ (scenario_B_rows !! i).

(** The seed of scenario D as written: Grammar only. *)
Definition scenario_D_seed : gmap string string := {[ "Grammar" := "Yes" ]}.

(** Scenario D: the dialog answers "No" for Grammar, advances once and
    finishes on the second question. *)
Definition scenario_D_script : list Detail.event :=
  [Detail.Pick "No"; Detail.ClickNext; Detail.ClickFinish].

(** The answers "No" for all nine categories. *)
Definition all_no_answers : gmap string string :=
  list_to_map ((λ col, (col, "No")) <$> ERROR_COLUMNS).

(** ** CSVTableModel *)

Module Table.

(** A [QModelIndex] as the view hands it to the model: invalid, or a cell
    with a row and a column that are not negative. *)
Inductive QModelIndex :=
| Invalid
| Index (row column : nat).

Inductive ItemDataRole := DisplayRole | OtherRole.

(** What a call of [data] does: it raises [IndexError] (a list index out
    of range), returns [None], or returns a value of the row. *)
Inductive cell :=
| IndexError
| ReturnsNone
| Returns (v : value).

Definition rowCount (m : Main.CSVTableModel) : nat := length (Main._data m).

Definition columnCount (m : Main.CSVTableModel) : nat :=
  length (Main._headers m).

Definition data (m : Main.CSVTableModel) (index : QModelIndex)
    (role : ItemDataRole) : cell :=
  match index with
  | Invalid => ReturnsNone
  | Index row col =>
      match role with
      | DisplayRole =>
          match Main._headers m !! col with
          | None => IndexError
          | Some header_name =>
              match Main._data m !! row with
              | None => IndexError
              | Some r => Returns (default (VStr "") (r !! Some header_name))
              end
          end
      | OtherRole => ReturnsNone
      end
  end.

Definition getDataList (m : Main.CSVTableModel) : list row := Main._data m.

Definition getHeaders (m : Main.CSVTableModel) : list string :=
  Main._headers m.

End Table.

(** ** Further predicates and scripts *)

(** The script that picks an answer and advances, once for each answer. *)
Fixpoint answer_each (answers : list string) : list Detail.event :=
  match answers with
  | [] => []
  | a :: answers' => Detail.Pick a :: Detail.ClickNext :: answer_each answers'
  end.

(** Where the dialog stands: its index and its result code. *)
Definition navigation (w : Detail.window) : Z * option DialogCode :=
  (Detail.current_idx w, Detail.result w).

(** Every combo of the overview window shows one of its two items. *)
Definition items_shown (w : Overview.window) : Prop :=
  ∀ col c, Overview.error_combos w !! col = Some c →
           currentText c ∈ combo_items.

(** The cursor is on a row of the store. *)
Definition in_bounds (w : Overview.window) : Prop :=
  0 ≤ Overview.current_index w
      < Z.of_nat (length (Overview.csv_data w)).

(** ** Further scenarios *)

(** A file with one complete record, marked correct, and a line that
    holds a single blank: its second row has [None] under every column
    but the first, so the cursor cannot show it. *)
Definition scenario_stray_records : list (list string) :=
  [["q1"; "a1"; "p1"; "True";
    "Yes"; "No"; "No"; "No"; "No"; "No"; "No"; "No"; "No"];
   [" "]].

Definition scenario_stray_rows : list row :=
  Csv.read_all REQUIRED_COLUMNS scenario_stray_records.

(** The overview window opened on its first row, and that row. *)
Definition scenario_stray_first_row : Overview.window :=
  opened (Overview.init scenario_stray_rows 1).

Definition scenario_stray_row : row := default ∅ (scenario_stray_rows !! 0%nat).

(** A full round of the drill-down dialog: one answer for each category. *)
Definition scenario_answers : list string :=
  ["Yes"; "No"; "No"; "Yes"; "No"; "No"; "No"; "No"; "Yes"].

(** Scenario B followed by a line that holds a single blank: the third
    row cannot be shown. *)
Definition scenario_tail_records : list (list string) :=
  scenario_B_records ++ [[" "]].

Definition scenario_tail_rows : list row :=
  Csv.read_all REQUIRED_COLUMNS scenario_tail_records.

Definition scenario_tail_loaded : Main.window :=
  Main.load_csv "data.csv"
    (Main.Records (REQUIRED_COLUMNS :: scenario_tail_records)) Main.init.

(** The overview window opened on its first row, and after going to the
    second row and back. *)
Definition scenario_tail_first_row : Overview.window :=
  opened (Overview.init scenario_tail_rows 1).

Definition scenario_tail_events : list Overview.event :=
  [Overview.ClickNext; Overview.ClickPrevious].

Definition scenario_tail_visited : Overview.window :=
  opened (Overview.run scenario_tail_events scenario_tail_first_row).

(** A file with the four fixed columns only, and its rows. *)
Definition scenario_bare_fieldnames : list string :=
  ["question"; "true_answer"; "predicted_answer_full"; "is_correct"].

Definition scenario_bare_records : list (list string) :=
  [["q1"; "a1"; "p1"; "False"]].

Definition scenario_bare_rows : list row :=
  Csv.read_all REQUIRED_COLUMNS scenario_bare_records.

(** A file whose second record has one field more than the header. *)
Definition scenario_long_record : list string :=
  ["q2"; "a2"; "p2"; "True";
   "Yes"; "No"; "No"; "No"; "No"; "No"; "No"; "No"; "No"; "extra"].

Definition scenario_long_records : list (list string) :=
  [["q1"; "a1"; "p1"; "False";
    "No"; "No"; "No"; "No"; "No"; "No"; "No"; "No"; "No"];
   scenario_long_record;
   ["q3"; "a3"; "p3"; "False";
    "No"; "No"; "No"; "No"; "No"; "No"; "No"; "No"; "No"]].

(** The main window once [annotate_rows] has returned; the empty window
    stands for a call that raised. *)
Definition annotated (m : res Main.window) : Main.window :=
  match m with
  | Ok w => w
  | Raise _ => Main.init
  end.

(** Scenario B after a session that answers "Yes" for Grammar on the
    first row and finishes. *)
Definition scenario_B_session : list Overview.event :=
  [Overview.Pick "Grammar" "Yes"; Overview.ClickFinishAll].

Definition scenario_tail_annotated : Main.window :=
  annotated (Main.annotate_rows scenario_B_session scenario_tail_loaded).

Global Instance model_eq_dec : EqDecision Main.CSVTableModel.
Proof. solve_decision. Defined.

Global Instance main_window_eq_dec : EqDecision Main.window.
Proof. solve_decision. Defined.

(** * Proofs *)

(** ** Loops *)

Section for_each.
Context {S A : Type}.
Implicit Types (body : S → A → res S) (xs : list A) (s : S).

Lemma for_each_ext body1 body2 xs s :
  (∀ s x, x ∈ xs → body1 s x = body2 s x) →
  for_each body1 xs s = for_each body2 xs s.
Proof.
  revert s. induction xs as [|x xs IH]; intros s Hext; [done|].
  simpl. rewrite Hext by left.
  destruct (body2 s x) as [s1|e]; simpl; [|done].
  apply IH. intros s' y Hy. apply Hext. by right.
Qed.

(** A loop whose body preserves [I] and returns under [I] returns. *)
Lemma for_each_total (I : S → Prop) body xs s :
  (∀ s x, x ∈ xs → I s → ∃ s1, body s x = Ok s1 ∧ I s1) →
  I s → ∃ s', for_each body xs s = Ok s' ∧ I s'.
Proof.
  revert s. induction xs as [|x xs IH]; intros s Hbody Hs.
  - by exists s.
  - destruct (Hbody s x) as (s1 & Hs1 & HI); [by left|done|].
    simpl. rewrite Hs1. simpl. apply IH; [|done].
    intros s' y Hy. apply Hbody. by right.
Qed.

Lemma for_each_inv (I : S → Prop) body xs s s' :
  (∀ s x s1, x ∈ xs → I s → body s x = Ok s1 → I s1) →
  I s → for_each body xs s = Ok s' → I s'.
Proof.
  revert s. induction xs as [|x xs IH]; intros s Hbody Hs Hrun.
  - by injection Hrun as <-.
  - simpl in Hrun. destruct (body s x) as [s1|e] eqn:Hs1; [|done].
    simpl in Hrun. eapply IH; [|by eapply Hbody; [left|..]|done].
    intros s2 y s3 Hy. apply Hbody. by right.
Qed.

End for_each.

Lemma bind_Ok {A B} (f : A → res B) (m : res A) b :
  m ≫= f = Ok b → ∃ a, m = Ok a ∧ f a = Ok b.
Proof. destruct m as [a|e]; [by exists a|done]. Qed.

(** Inverts a sequence of binds that returned. *)
Ltac bind_inv H :=
  repeat (let a := fresh "a" in
          let Ha := fresh "Ha" in
          apply bind_Ok in H as (a & Ha & H)).

(** [for col in cols: d[key(col)] = val(col)], where [val] does not depend
    on [d]. *)
Section for_each_insert.
Context {K V : Type} `{Countable K}.
Context (key : string → K) (val : string → res V).
Context (key_inj : Inj (=) (=) key).

Lemma for_each_store (v : string → V) cols (d : gmap K V) :
  (∀ col, col ∈ cols → val col = Ok (v col)) →
  ∃ d', for_each (λ d col, x ← val col; Ok (<[key col := x]> d)) cols d = Ok d'
        ∧ (∀ col, col ∈ cols → d' !! key col = Some (v col))
        ∧ (∀ k, (∀ col, col ∈ cols → k ≠ key col) → d' !! k = d !! k).
Proof.
  revert d. induction cols as [|c cols IH]; intros d Hval.
  - exists d. split_and!; [done| |done]. intros col Hcol. by inv Hcol.
  - simpl. rewrite (Hval c) by left. simpl.
    destruct (IH (<[key c := v c]> d)) as (d' & -> & Hin & Hout).
    { intros col Hcol. apply Hval. by right. }
    exists d'. split_and!; [done| |].
    + intros col Hcol. destruct (decide (col ∈ cols)) as [|Hnot]; [by apply Hin|].
      assert (col = c) as -> by (by inv Hcol).
      rewrite Hout; [by rewrite lookup_insert_eq|].
      intros col' Hcol' Heq. apply key_inj in Heq. by subst.
    + intros k Hk. rewrite Hout.
      * rewrite lookup_insert_ne; [done|]. intros Heq. by apply (Hk c); [left|].
      * intros col Hcol. apply Hk. by right.
Qed.

Lemma for_each_store_inv cols (d d' : gmap K V) :
  for_each (λ d col, x ← val col; Ok (<[key col := x]> d)) cols d = Ok d' →
  (∀ col, col ∈ cols → ∃ x, val col = Ok x ∧ d' !! key col = Some x)
  ∧ (∀ k, (∀ col, col ∈ cols → k ≠ key col) → d' !! k = d !! k).
Proof.
  revert d. induction cols as [|c cols IH]; intros d Hrun; simpl in Hrun.
  - injection Hrun as <-. split; [|done]. intros col Hcol. by inv Hcol.
  - destruct (val c) as [x|e] eqn:Hc; [|done]. simpl in Hrun.
    destruct (IH _ Hrun) as [Hin Hout]. split.
    + intros col Hcol. destruct (decide (col ∈ cols)) as [|Hnot]; [by apply Hin|].
      assert (col = c) as -> by (by inv Hcol).
      exists x. split; [done|]. rewrite Hout; [by rewrite lookup_insert_eq|].
      intros col' Hcol' Heq. apply key_inj in Heq. by subst.
    + intros k Hk. rewrite Hout.
      * rewrite lookup_insert_ne; [done|]. intros Heq. by apply (Hk c); [left|].
      * intros col Hcol. apply Hk. by right.
Qed.

(** Running the loop again on its own result changes nothing. *)
Lemma for_each_store_twice cols (d d' : gmap K V) :
  for_each (λ d col, x ← val col; Ok (<[key col := x]> d)) cols d = Ok d' →
  for_each (λ d col, x ← val col; Ok (<[key col := x]> d)) cols d' = Ok d'.
Proof.
  intros Hrun. destruct (for_each_store_inv _ _ _ Hrun) as [Hin Hout].
  destruct (for_each_total (λ _, True)
              (λ d col, x ← val col; Ok (<[key col := x]> d)) cols d')
    as (d'' & Hrun' & _); [|done|].
  { intros d0 col Hcol _. destruct (Hin col Hcol) as (x & -> & _).
    by eexists. }
  rewrite Hrun'. f_equal.
  destruct (for_each_store_inv _ _ _ Hrun') as [Hin' Hout'].
  apply map_eq. intros k.
  destruct (decide (k ∈ key <$> cols)) as [Hk|Hk].
  - apply list_elem_of_fmap in Hk as (col & -> & Hcol).
    destruct (Hin col Hcol) as (x & Hx & ->).
    destruct (Hin' col Hcol) as (x' & Hx' & ->). congruence.
  - apply Hout'. intros col Hcol ->. apply Hk. by apply list_elem_of_fmap_2.
Qed.

End for_each_insert.

(** ** Facts about the constants *)


Lemma NoDup_ERROR_COLUMNS : NoDup ERROR_COLUMNS.
Proof. by apply (bool_decide_unpack _). Qed.

Lemma fixed_not_category key :
  key ∈ ["question"; "true_answer"; "predicted_answer_full"; "is_correct"] →
  Some key ∉ (Some <$> ERROR_COLUMNS : list (option string)).
Proof.
  intros Hkey Hin. apply list_elem_of_fmap in Hin as (col & [= <-] & Hcol).
  revert Hkey. apply (bool_decide_unpack _).
  revert key Hcol. apply Forall_forall. by apply (bool_decide_unpack _).
Qed.

Lemma in_range_Some {A} (xs : list A) i x :
  in_range xs i = Some x ↔ 0 ≤ i ∧ xs !! Z.to_nat i = Some x.
Proof. unfold in_range. destruct (decide (0 ≤ i)); naive_solver. Qed.

Lemma in_range_None {A} (xs : list A) i :
  in_range xs i = None ↔ i < 0 ∨ Z.of_nat (length xs) ≤ i.
Proof.
  unfold in_range. case_decide; [|intuition lia].
  rewrite lookup_ge_None. lia.
Qed.

Lemma setCurrentText_item text c :
  text ∈ combo_items → setCurrentText text c = Combo text (isEnabled c).
Proof. intros Hin. unfold setCurrentText. by rewrite decide_True. Qed.

Lemma setCurrentText_items text c :
  currentText c ∈ combo_items → currentText (setCurrentText text c) ∈ combo_items.
Proof. intros Hc. unfold setCurrentText. by case_decide. Qed.

Lemma yes_or_no_item val : yes_or_no val ∈ combo_items.
Proof.
  destruct val as [s| |l]; simpl; [|set_solver..].
  destruct (decide (s ∈ ["Yes"; "No"])); set_solver.
Qed.

(** Decides a closed statement by evaluation. *)
Ltac by_compute := apply (bool_decide_unpack _); vm_compute; exact I.

(** From here on the loops over the columns are reasoned about as loops. *)
Opaque ERROR_COLUMNS.

(** ** The drill-down dialog *)

Section detail.
Import Detail.

Lemma detail_run_inv (I : window → Prop) script w :
  (∀ ev w, result w = None → I w → I (handle ev w)) →
  I w → I (run script w).
Proof.
  intros Hstep. revert w. induction script as [|ev script IH]; intros w Hw.
  - simpl. by destruct (result w).
  - simpl. destruct (result w) eqn:Hres; [done|]. by apply IH, Hstep.
Qed.

Lemma record_answer_result w : result (record_answer w) = result w.
Proof. unfold record_answer. by destruct (in_range _ _). Qed.

Lemma record_answer_idx w : current_idx (record_answer w) = current_idx w.
Proof. unfold record_answer. by destruct (in_range _ _). Qed.

Lemma record_answer_notices w : notices (record_answer w) = notices w.
Proof. unfold record_answer. by destruct (in_range _ _). Qed.

Lemma record_answer_combo w : answer_combo (record_answer w) = answer_combo w.
Proof. unfold record_answer. by destruct (in_range _ _). Qed.

Lemma load_current_question_responses w :
  responses (load_current_question w) = responses w.
Proof. unfold load_current_question. by destruct (in_range _ _). Qed.

Lemma load_current_question_idx w :
  current_idx (load_current_question w) = current_idx w.
Proof. unfold load_current_question. by destruct (in_range _ _). Qed.

Lemma load_current_question_notices w :
  notices (load_current_question w) = notices w.
Proof. unfold load_current_question. by destruct (in_range _ _). Qed.

Lemma load_current_question_combo w :
  currentText (answer_combo w) ∈ combo_items →
  currentText (answer_combo (load_current_question w)) ∈ combo_items.
Proof.
  unfold load_current_question. destruct (in_range _ _); [|done].
  simpl. apply setCurrentText_items.
Qed.

(** The responses and the index after one event, in terms of
    [record_answer]. *)
Lemma handle_responses ev w :
  responses (handle ev w) = responses w
  ∨ responses (handle ev w) = responses (record_answer w).
Proof.
  destruct ev; simpl; [by left| |by right|by left].
  right. unfold next_question. case_decide; simpl; [done|].
  by rewrite load_current_question_responses.
Qed.

Lemma handle_idx ev w :
  current_idx w ≤ current_idx (handle ev w).
Proof.
  destruct ev; simpl; [done| |by rewrite record_answer_idx|done].
  unfold next_question. case_decide; simpl.
  - rewrite record_answer_idx. lia.
  - rewrite load_current_question_idx. simpl. rewrite record_answer_idx. lia.
Qed.

Lemma record_answer_lookup w c :
  responses (record_answer w) !! c = responses w !! c
  ∨ (in_range ERROR_COLUMNS (current_idx w) = Some c
     ∧ responses (record_answer w) !! c = Some (currentText (answer_combo w))).
Proof.
  unfold record_answer. destruct (in_range _ _) as [err_key|] eqn:Hk; [|by left].
  simpl. destruct (decide (err_key = c)) as [->|Hne].
  - right. by rewrite lookup_insert_eq.
  - left. by rewrite lookup_insert_ne.
Qed.

(** A category all of whose positions lie after the current index has
    its seeded value. *)
Lemma run_keeps_unvisited script w c :
  (∀ i : nat, ERROR_COLUMNS !! i = Some c → current_idx (run script w) < Z.of_nat i) →
  responses (run script w) !! c = responses w !! c.
Proof.
  revert w. induction script as [|ev script IH]; intros w Hlater; simpl in *.
  { by destruct (result w). }
  destruct (result w); [done|].
  rewrite IH by done.
  assert (current_idx (handle ev w) ≤ current_idx (run script (handle ev w))).
  { apply (detail_run_inv (λ w', current_idx (handle ev w) ≤ current_idx w'));
      [|done].
    intros ev' w' _ Hle. etrans; [done|]. apply handle_idx. }
  destruct (handle_responses ev w) as [->| ->]; [done|].
  destruct (record_answer_lookup w c) as [->|[Hpos _]]; [done|].
  apply in_range_Some in Hpos as [? Hpos]. apply Hlater in Hpos.
  pose proof (handle_idx ev w). lia.
Qed.

Lemma run_keeps_keys script w c :
  is_Some (responses w !! c) → is_Some (responses (run script w) !! c).
Proof.
  apply (detail_run_inv (λ w', is_Some (responses w' !! c))).
  intros ev w' _ Hc.
  destruct (handle_responses ev w') as [->| ->]; [done|].
  destruct (record_answer_lookup w' c) as [->|[_ ->]]; done.
Qed.

Lemma record_answer_answered w :
  answered w →
  ∀ (i : nat) c, ERROR_COLUMNS !! i = Some c → Z.of_nat i < current_idx w + 1 →
    ∃ text, responses (record_answer w) !! c = Some text ∧ text ∈ combo_items.
Proof.
  intros [Hcombo Hbefore] i c Hpos Hi.
  destruct (decide (Z.of_nat i < current_idx w)) as [|Hge].
  - destruct (record_answer_lookup w c) as [->|[_ ->]]; [|by eauto].
    by eapply Hbefore.
  - assert (in_range ERROR_COLUMNS (current_idx w) = Some c) as Hk.
    { apply in_range_Some. split; [lia|].
      by replace (Z.to_nat (current_idx w)) with i by lia. }
    unfold record_answer. rewrite Hk. simpl. rewrite lookup_insert_eq. eauto.
Qed.

Lemma handle_answered ev w : answered w → answered (handle ev w).
Proof.
  intros Hw. pose proof Hw as [Hcombo Hbefore].
  destruct ev; simpl.
  - split; [by apply setCurrentText_items|done].
  - unfold next_question. case_decide; simpl.
    + rewrite record_answer_combo, record_answer_idx. split; [done|].
      by apply record_answer_answered.
    + split.
      * apply load_current_question_combo. simpl. by rewrite record_answer_combo.
      * rewrite load_current_question_responses, load_current_question_idx.
        simpl. rewrite record_answer_idx. by apply record_answer_answered.
  - unfold answered. simpl.
    rewrite record_answer_combo, record_answer_idx. split; [done|].
    intros i c Hpos Hi. eapply record_answer_answered; [done..|lia].
  - done.
Qed.

Lemma init_answered seed : answered (init seed).
Proof.
  unfold init. split.
  - apply load_current_question_combo. simpl. set_solver.
  - rewrite load_current_question_idx. simpl. lia.
Qed.

(** Only an accepted dialog has shown a message box. *)
Lemma run_notices script w :
  notices w = [] →
  notices (run script w) = [] ∨ result (run script w) = Some Accepted.
Proof.
  intros Hw.
  apply (detail_run_inv (λ w', notices w' = [] ∨ result w' = Some Accepted));
    [|by left].
  intros ev w' Hres [Hnot|Hacc]; [|congruence].
  destruct ev; simpl; [by left| | |by left].
  - unfold next_question. case_decide; simpl.
    + right. by rewrite record_answer_result, Hres.
    + left. by rewrite load_current_question_notices; simpl;
        rewrite record_answer_notices.
  - left. by rewrite record_answer_notices.
Qed.

End detail.

Section detail_claims.
Import Detail.

(** C4, amended.  In the answer set the dialog returns, a category that
    was never reached has exactly its seeded value: the entry of the seed
    mapping when one was supplied, "No" when none was supplied at all.
    Every category before the last index reached holds one of the two
    answers.  So the set assigns a value to each of the nine categories
    whenever the seed does, as the seed of the cursor and the default do.
    Seeded with "Yes" for Grammar and "No" for the other eight, answering
    "No" for Grammar, advancing once and finishing returns "No" for all
    nine. *)
Theorem drilldown_answers seed script :
  (∀ c, (∀ i : nat, ERROR_COLUMNS !! i = Some c →
           current_idx (exec_ script (init seed)) < Z.of_nat i) →
        get_responses (exec_ script (init seed)) !! c
        = responses (init seed) !! c)
  ∧ (∀ s, seed = Some s → responses (init seed) = s)
  ∧ (seed = None → responses (init seed) = all_no_answers
                   ∧ ∀ c, c ∈ ERROR_COLUMNS → all_no_answers !! c = Some "No")
  ∧ (∀ (i : nat) c, ERROR_COLUMNS !! i = Some c →
        Z.of_nat i < current_idx (exec_ script (init seed)) →
        ∃ text, get_responses (exec_ script (init seed)) !! c = Some text
                ∧ text ∈ combo_items)
  ∧ ((∀ c, c ∈ ERROR_COLUMNS → is_Some (responses (init seed) !! c)) →
     ∀ c, c ∈ ERROR_COLUMNS →
       is_Some (get_responses (exec_ script (init seed)) !! c))
  ∧ get_responses
      (exec_ scenario_D_script
         (init (Some (<["Grammar" := "Yes"]> all_no_answers))))
    = all_no_answers.
Proof.
  split_and!.
  - intros c Hlater. by apply (run_keeps_unvisited script (init seed) c).
  - intros s ->. unfold init. by rewrite load_current_question_responses.
  - intros ->. split.
    + unfold init. by rewrite load_current_question_responses.
    + apply Forall_forall. by_compute.
  - intros i c Hpos Hi.
    assert (answered (run script (init seed))) as [_ Hbefore].
    { apply detail_run_inv; [|apply init_answered].
      intros ev w _. apply handle_answered. }
    by apply (Hbefore i c).
  - intros Hseed c Hc. apply (run_keeps_keys script (init seed) c). by apply Hseed.
  - by_compute.
Qed.

End detail_claims.

(** ** The overview window *)

Section overview.
Import Overview.

Lemma on_combo_Some f (cs : gmap string combo) col c :
  cs !! col = Some c → on_combo f cs col = Ok (<[col := f c]> cs).
Proof. intros Hc. unfold on_combo, combo_of. by rewrite Hc. Qed.

Lemma for_each_on_combo (g : string → combo → combo) cols
    (cs : gmap string combo) :
  NoDup cols → (∀ col, col ∈ cols → is_Some (cs !! col)) →
  ∃ cs', for_each (λ cs col, on_combo (g col) cs col) cols cs = Ok cs'
         ∧ (∀ col, col ∈ cols → cs' !! col = g col <$> cs !! col)
         ∧ (∀ col, col ∉ cols → cs' !! col = cs !! col).
Proof.
  intros Hnd. revert cs. induction Hnd as [|c cols Hc Hnd IH]; intros cs Hall.
  - exists cs. split_and!; [done| |done]. intros col Hcol. by inv Hcol.
  - destruct (Hall c) as [x Hx]; [by left|].
    simpl. rewrite (on_combo_Some _ _ _ _ Hx). simpl.
    destruct (IH (<[c := g c x]> cs)) as (cs' & -> & Hin & Hout).
    { intros col Hcol. rewrite lookup_insert. case_decide; [done|].
      apply Hall. by right. }
    exists cs'. split_and!; [done| |].
    + intros col Hcol. destruct (decide (col = c)) as [Heq|Hne].
      * subst col. rewrite Hout by done. rewrite lookup_insert_eq. by rewrite Hx.
      * assert (col ∈ cols) by (by inv Hcol).
        rewrite Hin by done. by rewrite lookup_insert_ne.
    + intros col Hcol. rewrite Hout by set_solver.
      apply lookup_insert_ne. set_solver.
Qed.

Lemma same_outside_refl r : same_outside_categories r r.
Proof. by intros k _. Qed.

Lemma same_outside_trans r1 r2 r3 :
  same_outside_categories r1 r2 → same_outside_categories r2 r3 →
  same_outside_categories r1 r3.
Proof. intros H12 H23 k Hk. by rewrite H23, H12. Qed.

Lemma is_correct_same r r' :
  same_outside_categories r r' → is_correct r' = is_correct r.
Proof.
  intros Hsame. unfold is_correct. rewrite Hsame; [done|].
  apply fixed_not_category. set_solver.
Qed.

Lemma plain_text_same r r' key :
  same_outside_categories r r' →
  key ∈ ["question"; "true_answer"; "predicted_answer_full"; "is_correct"] →
  plain_text r' key = plain_text r key.
Proof.
  intros Hsame Hkey. unfold plain_text. by rewrite Hsame by by apply fixed_not_category.
Qed.

Lemma is_text_is_correct r :
  is_text (r !! Some "is_correct") = true ↔ ∃ b, is_correct r = Ok b.
Proof.
  unfold is_correct.
  destruct (r !! Some "is_correct") as [[]|]; simpl; split;
    try done; try (by eexists); by intros [? ?].
Qed.

Lemma displayable_same r r' :
  same_outside_categories r r' → displayable r → displayable r'.
Proof.
  intros Hsame [Htexts Hcorrect]. split.
  - rewrite Forall_forall in *. intros key Hkey.
    rewrite Hsame; [by apply Htexts|]. apply fixed_not_category. set_solver.
  - rewrite Hsame; [done|]. apply fixed_not_category. set_solver.
Qed.

Lemma displayable_plain_text r key :
  displayable r →
  key ∈ ["question"; "true_answer"; "predicted_answer_full"] →
  ∃ text, plain_text r key = Ok text.
Proof.
  intros [Htexts _] Hkey. rewrite Forall_forall in Htexts.
  specialize (Htexts key Hkey). unfold plain_text.
  destruct (r !! Some key) as [[]|]; by eauto.
Qed.

Lemma displayable_is_correct r : displayable r → ∃ b, is_correct r = Ok b.
Proof. intros [_ Hcorrect]. by apply is_text_is_correct. Qed.

Lemma load_row_into_ui_out_of_range index w :
  in_range (csv_data w) index = None → load_row_into_ui index w = Ok w.
Proof. intros Hi. unfold load_row_into_ui. by rewrite Hi. Qed.

Lemma load_row_into_ui_spec index w r correct :
  Forall (λ col, is_Some (error_combos w !! col)) ERROR_COLUMNS →
  in_range (csv_data w) index = Some r →
  displayable r → is_correct r = Ok correct →
  ∃ w', load_row_into_ui index w = Ok w'
        ∧ csv_data w' = csv_data w ∧ current_index w' = index
        ∧ result w' = result w ∧ notices w' = notices w
        ∧ detail_btn w' = negb correct
        ∧ ∀ col, col ∈ ERROR_COLUMNS →
            error_combos w' !! col = Some (shown r correct col).
Proof.
  rewrite Forall_forall. intros Hcs Hr Hshow Hcorrect.
  unfold load_row_into_ui. rewrite Hr.
  destruct (displayable_plain_text r "question") as [q ->]; [done|set_solver|].
  destruct (displayable_plain_text r "true_answer") as [t ->]; [done|set_solver|].
  destruct (displayable_plain_text r "predicted_answer_full") as [p ->];
    [done|set_solver|].
  simpl. rewrite Hcorrect. simpl. destruct correct.
  - destruct (for_each_on_combo
                (λ _ c, setEnabled false (setCurrentText "No" c))
                ERROR_COLUMNS (error_combos w))
      as (cs' & -> & Hin & _); [apply NoDup_ERROR_COLUMNS|done|].
    eexists. split_and!; try done.
    intros col Hcol. simpl. rewrite Hin by done.
    destruct (Hcs col Hcol) as [c ->]. done.
  - destruct (for_each_on_combo
                (λ col c, setCurrentText
                            (yes_or_no (default (VStr "") (r !! Some col)))
                            (setEnabled true c))
                ERROR_COLUMNS (error_combos w))
      as (cs' & -> & Hin & _); [apply NoDup_ERROR_COLUMNS|done|].
    eexists. split_and!; try done.
    intros col Hcol. simpl. rewrite Hin by done.
    destruct (Hcs col Hcol) as [c ->]. simpl.
    by rewrite setCurrentText_item by apply yes_or_no_item.
Qed.

Lemma save_current_row_out_of_range w :
  in_range (csv_data w) (current_index w) = None → save_current_row w = Ok w.
Proof. intros Hi. unfold save_current_row. by rewrite Hi. Qed.

(** What a commit stores in a category. *)
Lemma commit_as_store w correct r :
  commit w correct r
  = for_each
      (λ d col,
         x ← (if correct then Ok (VStr "No")
              else c ← combo_of (error_combos w) col;
                   Ok (VStr (currentText c)));
         Ok (<[Some col := x]> d))
      ERROR_COLUMNS r.
Proof.
  unfold commit. destruct correct; [done|].
  apply for_each_ext. intros r0 col _. unfold combo_of.
  by destruct (error_combos w !! col).
Qed.

Lemma commit_same_outside w correct r r' :
  commit w correct r = Ok r' → same_outside_categories r r'.
Proof.
  rewrite commit_as_store. intros Hrun.
  apply (for_each_store_inv Some _ _) in Hrun as [_ Hout].
  intros k Hk. apply Hout. intros col Hcol ->. apply Hk.
  by apply list_elem_of_fmap_2.
Qed.

Lemma commit_twice w correct r r' :
  commit w correct r = Ok r' → commit w correct r' = Ok r'.
Proof. rewrite !commit_as_store. apply (for_each_store_twice Some _ _). Qed.

Lemma save_current_row_spec w r correct :
  Forall (λ col, is_Some (error_combos w !! col)) ERROR_COLUMNS →
  in_range (csv_data w) (current_index w) = Some r →
  is_correct r = Ok correct →
  ∃ r', save_current_row w
        = Ok (set_csv_data (<[Z.to_nat (current_index w) := r']>) w)
        ∧ same_outside_categories r r'
        ∧ ∀ col, col ∈ ERROR_COLUMNS →
            r' !! Some col
            = Some (VStr (if correct then "No" else working_answer w col)).
Proof.
  rewrite Forall_forall. intros Hcs Hr Hcorrect.
  unfold save_current_row. rewrite Hr, Hcorrect. simpl.
  rewrite commit_as_store.
  destruct (for_each_store Some
              (λ col, if correct then Ok (VStr "No")
                      else c ← combo_of (error_combos w) col;
                           Ok (VStr (currentText c))) _
              (λ col, VStr (if correct then "No" else working_answer w col))
              ERROR_COLUMNS r) as (r' & Hrun & Hin & Hout).
  { intros col Hcol. destruct correct; [done|].
    unfold combo_of, working_answer. by destruct (Hcs col Hcol) as [c ->]. }
  rewrite Hrun. simpl. exists r'. split_and!; [done| |done].
  intros k Hk. apply Hout. intros col Hcol ->. apply Hk.
  by apply list_elem_of_fmap_2.
Qed.

End overview.

Section cursor.
Import Overview.

Lemma rows_step_refl d : rows_step d d.
Proof.
  split; [done|]. intros i r Hr. exists r. split_and!; [done| |by left].
  apply same_outside_refl.
Qed.

Lemma rows_step_trans d1 d2 d3 :
  rows_step d1 d2 → rows_step d2 d3 → rows_step d1 d3.
Proof.
  intros [Hlen12 H12] [Hlen23 H23]. split; [congruence|].
  intros i r1 Hr1.
  destruct (H12 i r1 Hr1) as (r2 & Hr2 & Hsame12 & Hlock12).
  destruct (H23 i r2 Hr2) as (r3 & Hr3 & Hsame23 & Hlock23).
  exists r3. split_and!; [done|by eapply same_outside_trans|].
  intros Hlocked.
  assert (locked r2) as Hlocked2.
  { unfold locked. by rewrite (is_correct_same r1 r2). }
  destruct (Hlock23 Hlocked2) as [->|?]; [|by right].
  by apply Hlock12.
Qed.

Lemma rows_step_back d d' i r' :
  rows_step d d' → d' !! i = Some r' →
  ∃ r, d !! i = Some r ∧ same_outside_categories r r'
       ∧ (locked r → r' = r ∨ all_no r').
Proof.
  intros [Hlen Hstep] Hr'.
  destruct (d !! i) as [r|] eqn:Hr.
  - destruct (Hstep i r Hr) as (r'' & Hr'' & ?). exists r. naive_solver.
  - apply lookup_ge_None in Hr. apply lookup_lt_Some in Hr'. lia.
Qed.

Lemma rows_step_displayable d d' :
  rows_step d d' → Forall displayable d → Forall displayable d'.
Proof.
  intros Hstep. rewrite !Forall_lookup. intros Hd i r' Hr'.
  destruct (rows_step_back d d' i r' Hstep Hr') as (r & Hr & Hsame & _).
  eapply displayable_same; [done|]. by eapply Hd.
Qed.

(** One commit, as a step on the rows. *)
Lemma rows_step_insert d (i : nat) r r' :
  d !! i = Some r → same_outside_categories r r' →
  (locked r → all_no r') → rows_step d (<[i := r']> d).
Proof.
  intros Hr Hsame Hlock. split; [by rewrite length_insert|].
  intros j rj Hrj. destruct (decide (j = i)) as [->|Hne].
  - exists r'. rewrite list_lookup_insert_eq by by eapply lookup_lt_Some.
    assert (rj = r) as -> by congruence. naive_solver.
  - exists rj. rewrite list_lookup_insert_ne by done.
    split_and!; [done|apply same_outside_refl|by left].
Qed.

Lemma ready_current_row w r :
  ready w → in_range (csv_data w) (current_index w) = Some r → displayable r.
Proof.
  intros [_ Hrows] Hr. apply in_range_Some in Hr as [_ Hr].
  rewrite Forall_lookup in Hrows. by eapply Hrows.
Qed.

Lemma save_current_row_step w :
  ready w →
  ∃ d', save_current_row w = Ok (set_csv_data (λ _, d') w)
        ∧ rows_step (csv_data w) d'
        ∧ ∀ r b, in_range (csv_data w) (current_index w) = Some r →
            is_correct r = Ok b →
            ∃ r', d' !! Z.to_nat (current_index w) = Some r'
              ∧ ∀ col, col ∈ ERROR_COLUMNS →
                  r' !! Some col
                  = Some (VStr (if b then "No" else working_answer w col)).
Proof.
  intros Hready. pose proof Hready as [Hcs Hrows].
  destruct (in_range (csv_data w) (current_index w)) as [r|] eqn:Hr.
  - destruct (displayable_is_correct r) as [b Hb];
      [by eapply ready_current_row|].
    destruct (save_current_row_spec w r b) as (r' & Hsave & Hsame & Hcols);
      [done..|].
    pose proof Hr as Hr0. apply in_range_Some in Hr as [Hpos Hr].
    exists (<[Z.to_nat (current_index w) := r']> (csv_data w)).
    split_and!; [done| |].
    + eapply rows_step_insert; [done..|].
      unfold locked. rewrite Hb. intros [= ->].
      unfold all_no. apply Forall_forall. intros col Hcol. by rewrite Hcols.
    + intros r0 b0 [= <-] Hb0. assert (b0 = b) as -> by congruence.
      exists r'. split; [|done].
      apply list_lookup_insert_eq. by eapply lookup_lt_Some.
  - exists (csv_data w). rewrite save_current_row_out_of_range by done.
    split_and!; [by destruct w|apply rows_step_refl|done].
Qed.

Lemma current_answers_total w :
  ready w →
  ∃ seed, current_answers w = Ok seed
          ∧ ∀ col, col ∈ ERROR_COLUMNS →
              seed !! col = Some (working_answer w col).
Proof.
  intros [Hcs _]. rewrite Forall_forall in Hcs.
  destruct (for_each_store id
              (λ col, c ← combo_of (error_combos w) col; Ok (currentText c)) _
              (working_answer w) ERROR_COLUMNS ∅) as (seed & Hrun & Hin & _).
  { intros col Hcol. unfold combo_of, working_answer.
    by destruct (Hcs col Hcol) as [c ->]. }
  exists seed. split; [|done].
  unfold current_answers. erewrite for_each_ext; [exact Hrun|].
  intros d col _. unfold combo_of. by destruct (error_combos w !! col).
Qed.

Lemma apply_responses_total final (cs : gmap string combo) :
  (∀ col, col ∈ ERROR_COLUMNS → is_Some (final !! col)) →
  (∀ col, col ∈ ERROR_COLUMNS → is_Some (cs !! col)) →
  ∃ cs', apply_responses final cs = Ok cs'
         ∧ ∀ col, col ∈ ERROR_COLUMNS → is_Some (cs' !! col).
Proof.
  intros Hfinal Hcs.
  destruct (for_each_on_combo
              (λ col, setCurrentText (default "" (final !! col)))
              ERROR_COLUMNS cs) as (cs' & Hrun & Hin & _);
    [apply NoDup_ERROR_COLUMNS|done|].
  exists cs'. split.
  - unfold apply_responses. erewrite for_each_ext; [exact Hrun|].
    intros cs0 col Hcol. by destruct (Hfinal col Hcol) as [text ->].
  - intros col Hcol. rewrite Hin by done. by apply fmap_is_Some, Hcs.
Qed.

Lemma detail_exec_keeps_keys script seed c :
  is_Some (seed !! c) →
  is_Some (Detail.get_responses
             (Detail.exec_ script (Detail.init (Some seed))) !! c).
Proof.
  intros Hc. unfold Detail.exec_, Detail.get_responses. simpl.
  apply run_keeps_keys. unfold Detail.init.
  by rewrite load_current_question_responses.
Qed.

Lemma open_detailed_classification_total script w :
  ready w →
  ∃ w', open_detailed_classification script w = Ok w'
        ∧ csv_data w' = csv_data w ∧ current_index w' = current_index w
        ∧ detail_btn w' = detail_btn w ∧ result w' = result w
        ∧ Forall (λ col, is_Some (error_combos w' !! col)) ERROR_COLUMNS.
Proof.
  intros Hready. pose proof Hready as [Hcs Hrows].
  unfold open_detailed_classification.
  destruct (in_range (csv_data w) (current_index w)) as [r|] eqn:Hr;
    [|by exists w].
  destruct (displayable_is_correct r) as [b ->];
    [by eapply ready_current_row|].
  simpl. destruct b; [by eexists|].
  destruct (current_answers_total w Hready) as (seed & -> & Hseed). simpl.
  case_decide; [|by eexists].
  destruct (apply_responses_total
              (Detail.get_responses
                 (Detail.exec_ script (Detail.init (Some seed))))
              (error_combos w)) as (cs' & Happly & Hcs').
  { intros col Hcol. apply detail_exec_keeps_keys. by rewrite Hseed. }
  { by apply Forall_forall. }
  simpl in Happly. rewrite Happly. simpl. eexists. split_and!; try done.
  by apply Forall_forall.
Qed.

Lemma lock_shown_rows_step w w' :
  rows_step (csv_data w) (csv_data w') →
  current_index w' = current_index w → detail_btn w' = detail_btn w →
  error_combos w' = error_combos w → lock_shown w → lock_shown w'.
Proof.
  intros Hstep Hidx Hbtn Hcs Hshown r' Hr' Hlocked.
  rewrite Hidx in Hr'. apply in_range_Some in Hr' as [Hpos Hr'].
  destruct (rows_step_back _ _ _ _ Hstep Hr') as (r & Hr & Hsame & _).
  rewrite Hbtn, Hcs. apply (Hshown r); [by apply in_range_Some|].
  unfold locked. by rewrite <-(is_correct_same r r').
Qed.

Lemma save_current_row_total w :
  ready w → lock_shown w →
  ∃ w1, save_current_row w = Ok w1
        ∧ ready w1 ∧ lock_shown w1
        ∧ rows_step (csv_data w) (csv_data w1)
        ∧ current_index w1 = current_index w
        ∧ result w1 = result w ∧ notices w1 = notices w.
Proof.
  intros Hready Hshown. pose proof Hready as [Hcs Hrows].
  destruct (save_current_row_step w Hready) as (d' & Hsave & Hstep & _).
  eexists. split_and!; [done| | |done..].
  - split; [done|]. by eapply rows_step_displayable.
  - by eapply lock_shown_rows_step.
Qed.

Lemma load_row_total index w :
  ready w →
  ∃ w', load_row_into_ui index (set_current_index index w) = Ok w'
        ∧ ready w' ∧ lock_shown w'
        ∧ csv_data w' = csv_data w
        ∧ result w' = result w ∧ notices w' = notices w
        ∧ current_index w' = index.
Proof.
  intros [Hcs Hrows].
  destruct (in_range (csv_data w) index) as [r|] eqn:Hr.
  - assert (displayable r) as Hshow.
    { apply in_range_Some in Hr as [_ Hr].
      rewrite Forall_lookup in Hrows. by eapply Hrows. }
    destruct (displayable_is_correct r Hshow) as [b Hb].
    destruct (load_row_into_ui_spec index (set_current_index index w) r b)
      as (w' & Hload & Hdata & Hidx & Hres & Hnot & Hbtn & Hshown); [done..|].
    exists w'. split_and!; [done| | |done..].
    + split; [|by rewrite Hdata].
      apply Forall_forall. intros col Hcol. by rewrite Hshown.
    + intros r0 Hr0 Hlocked. rewrite Hdata, Hidx in Hr0. simpl in Hr0.
      assert (r0 = r) as -> by congruence.
      unfold locked in Hlocked. assert (b = true) as -> by congruence.
      split; [done|]. intros col Hcol. by rewrite Hshown.
  - eexists. rewrite load_row_into_ui_out_of_range by done.
    split_and!; [done|done| |done..].
    intros r0 Hr0. simpl in Hr0. congruence.
Qed.

Lemma handle_total ev w :
  ready w → lock_shown w →
  ∃ w', handle ev w = Ok w' ∧ ready w' ∧ lock_shown w'
        ∧ rows_step (csv_data w) (csv_data w').
Proof.
  intros Hready Hshown. pose proof Hready as [Hcs Hrows].
  destruct ev as [col text|script| | | |]; simpl.
  - destruct (error_combos w !! col) as [c|] eqn:Hc;
      [|exists w; split_and!; [done..|apply rows_step_refl]].
    destruct (isEnabled c) eqn:Hon;
      [|exists w; split_and!; [done..|apply rows_step_refl]].
    eexists. split_and!; [done| | |apply rows_step_refl].
    + split; [|done]. simpl. eapply Forall_impl; [exact Hcs|].
      intros col' Hcol'. simpl. rewrite lookup_insert. by case_decide.
    + intros r Hr Hlocked. destruct (Hshown r Hr Hlocked) as [Hbtn Hno].
      split; [done|]. intros col' Hcol'. simpl.
      rewrite lookup_insert_ne; [by apply Hno|].
      intros ->. rewrite (Hno col' Hcol') in Hc. by injection Hc as <-.
  - destruct (detail_btn w) eqn:Hbtn;
      [|exists w; split_and!; [done..|apply rows_step_refl]].
    destruct (open_detailed_classification_total script w Hready)
      as (w' & -> & Hdata & Hidx & Hbtn' & _ & Hcs').
    exists w'. split_and!; [done| | |rewrite Hdata; apply rows_step_refl].
    + split; [done|by rewrite Hdata].
    + intros r Hr Hlocked. rewrite Hdata, Hidx in Hr.
      destruct (Hshown r Hr Hlocked) as [? _]. congruence.
  - unfold save_and_previous_row.
    destruct (save_current_row_total w Hready Hshown)
      as (w1 & -> & Hready1 & Hshown1 & Hstep & Hidx & _). simpl.
    case_decide.
    + destruct (load_row_total (current_index w1 - 1) w1 Hready1)
        as (w' & Hload & ? & ? & Hdata & _).
      simpl. rewrite Hload. exists w'. by rewrite Hdata.
    + eexists. by split_and!.
  - unfold save_and_next_row.
    destruct (save_current_row_total w Hready Hshown)
      as (w1 & -> & Hready1 & Hshown1 & Hstep & Hidx & _). simpl.
    case_decide.
    + destruct (load_row_total (current_index w1 + 1) w1 Hready1)
        as (w' & Hload & ? & ? & Hdata & _).
      simpl. rewrite Hload. exists w'. by rewrite Hdata.
    + eexists. by split_and!.
  - unfold finish_all.
    destruct (save_current_row_total w Hready Hshown)
      as (w1 & -> & Hready1 & Hshown1 & Hstep & Hidx & _). simpl.
    eexists. by split_and!.
  - eexists. split_and!; [done..|apply rows_step_refl].
Qed.

Lemma run_total events w :
  ready w → lock_shown w →
  ∃ w', run events w = Ok w' ∧ ready w' ∧ lock_shown w'
        ∧ rows_step (csv_data w) (csv_data w').
Proof.
  revert w. induction events as [|ev events IH]; intros w Hready Hshown; simpl.
  - exists w. destruct (result w); split_and!; try done; apply rows_step_refl.
  - destruct (result w);
      [exists w; split_and!; [done..|apply rows_step_refl]|].
    destruct (handle_total ev w Hready Hshown) as (w1 & -> & ? & ? & Hstep1).
    simpl. destruct (IH w1) as (w' & -> & ? & ? & Hstep); [done..|].
    exists w'. split_and!; [done..|]. by eapply rows_step_trans.
Qed.

Lemma init_total data row_number :
  Forall displayable data →
  ∃ w, init data row_number = Ok w ∧ ready w ∧ lock_shown w
       ∧ csv_data w = data ∧ result w = None ∧ notices w = []
       ∧ current_index w = row_number - 1.
Proof.
  intros Hrows. unfold init.
  set (w0 := Window data (row_number - 1) "" "" ""
               (list_to_map ((λ col, (col, Combo "No" true)) <$> ERROR_COLUMNS))
               true None []).
  assert (ready w0) as Hready0.
  { split; [|done]. apply Forall_forall. intros col Hcol. simpl.
    apply not_eq_None_Some. intros Hnone.
    apply not_elem_of_list_to_map in Hnone. apply Hnone.
    rewrite <-list_fmap_compose. simpl. by rewrite list_fmap_id. }
  destruct (load_row_total (row_number - 1) w0 Hready0)
    as (w & Hload & ? & ? & Hdata & Hres & Hnot & Hidx).
  exists w. change (set_current_index (row_number - 1) w0) with w0 in Hload.
  by split_and!.
Qed.

End cursor.

(** ** What the handlers leave unchanged *)

Section frame.
Import Overview.

Lemma rows_frame_refl d : rows_frame d d.
Proof.
  split; [done|]. intros i r Hr. exists r. split; [done|].
  apply same_outside_refl.
Qed.

Lemma rows_frame_trans d1 d2 d3 :
  rows_frame d1 d2 → rows_frame d2 d3 → rows_frame d1 d3.
Proof.
  intros [Hlen12 H12] [Hlen23 H23]. split; [congruence|].
  intros i r1 Hr1.
  destruct (H12 i r1 Hr1) as (r2 & Hr2 & Hsame12).
  destruct (H23 i r2 Hr2) as (r3 & Hr3 & Hsame23).
  exists r3. split; [done|]. by eapply same_outside_trans.
Qed.

Lemma set_csv_data_id w : set_csv_data (λ _, csv_data w) w = w.
Proof. by destruct w. Qed.

Lemma show_nil w : show [] w = w.
Proof. destruct w. unfold show. simpl. by rewrite app_nil_r. Qed.

(** A commit replaces the row under the cursor and nothing else. *)
Lemma save_current_row_inv w w1 :
  save_current_row w = Ok w1 →
  w1 = set_csv_data (λ _, csv_data w1) w
  ∧ length (csv_data w1) = length (csv_data w)
  ∧ ∀ (i : nat) r, csv_data w !! i = Some r →
      ∃ r', csv_data w1 !! i = Some r' ∧ same_outside_categories r r'
            ∧ (Z.of_nat i ≠ current_index w → r' = r).
Proof.
  unfold save_current_row. intros Hsave.
  destruct (in_range (csv_data w) (current_index w)) as [r|] eqn:Hr.
  - bind_inv Hsave. injection Hsave as <-. simpl.
    apply in_range_Some in Hr as [Hpos Hr].
    split_and!; [done|by rewrite length_insert|].
    intros i ri Hri. destruct (decide (i = Z.to_nat (current_index w))) as [->|Hne].
    + exists a0. rewrite list_lookup_insert_eq by by eapply lookup_lt_Some.
      assert (ri = r) as -> by congruence.
      split_and!; [done|by eapply commit_same_outside|lia].
    + exists ri. rewrite list_lookup_insert_ne by done.
      split_and!; [done|apply same_outside_refl|done].
  - injection Hsave as <-. rewrite set_csv_data_id.
    split_and!; [done..|]. intros i r Hi. exists r.
    split_and!; [done|apply same_outside_refl|done].
Qed.

Lemma save_current_row_frame w w1 :
  save_current_row w = Ok w1 → rows_frame (csv_data w) (csv_data w1).
Proof.
  intros (_ & Hlen & Hrows)%save_current_row_inv. split; [done|].
  intros i r Hr. destruct (Hrows i r Hr) as (r' & ? & ? & _). by exists r'.
Qed.

Lemma load_row_into_ui_data index w w' :
  load_row_into_ui index w = Ok w' → csv_data w' = csv_data w.
Proof.
  unfold load_row_into_ui. intros Hload.
  destruct (in_range (csv_data w) index); [|by injection Hload as <-].
  bind_inv Hload. destruct a2; bind_inv Hload; by injection Hload as <-.
Qed.

Lemma open_detailed_classification_data script w w' :
  open_detailed_classification script w = Ok w' → csv_data w' = csv_data w.
Proof.
  unfold open_detailed_classification. intros Hopen.
  destruct (in_range (csv_data w) (current_index w));
    [|by injection Hopen as <-].
  bind_inv Hopen. destruct a; [by injection Hopen as <-|].
  bind_inv Hopen. case_decide; [bind_inv Hopen|]; by injection Hopen as <-.
Qed.

Lemma handle_frame ev w w' :
  handle ev w = Ok w' → rows_frame (csv_data w) (csv_data w').
Proof.
  destruct ev as [col text|script| | | |]; simpl; intros Hev.
  - destruct (error_combos w !! col) as [c|]; [destruct (isEnabled c)|];
      injection Hev as <-; apply rows_frame_refl.
  - destruct (detail_btn w).
    + apply open_detailed_classification_data in Hev as ->.
      apply rows_frame_refl.
    + injection Hev as <-. apply rows_frame_refl.
  - unfold save_and_previous_row in Hev. bind_inv Hev.
    apply save_current_row_frame in Ha. case_decide.
    + apply load_row_into_ui_data in Hev. by rewrite Hev.
    + by injection Hev as <-.
  - unfold save_and_next_row in Hev. bind_inv Hev.
    apply save_current_row_frame in Ha. case_decide.
    + apply load_row_into_ui_data in Hev. by rewrite Hev.
    + by injection Hev as <-.
  - unfold finish_all in Hev. bind_inv Hev.
    apply save_current_row_frame in Ha. by injection Hev as <-.
  - injection Hev as <-. apply rows_frame_refl.
Qed.

Lemma run_frame events w w' :
  run events w = Ok w' → rows_frame (csv_data w) (csv_data w').
Proof.
  revert w. induction events as [|ev events IH]; intros w Hrun; simpl in Hrun.
  - assert (w' = w) as -> by (by destruct (result w); injection Hrun).
    apply rows_frame_refl.
  - destruct (result w).
    + injection Hrun as <-. apply rows_frame_refl.
    + bind_inv Hrun. eapply rows_frame_trans; [by eapply handle_frame|].
      by apply IH.
Qed.

Lemma save_current_row_combos w w1 :
  save_current_row w = Ok w1 →
  error_combos w1 = error_combos w ∧ current_index w1 = current_index w.
Proof. intros (-> & _)%save_current_row_inv. done. Qed.

Lemma load_row_into_ui_index index w w' :
  load_row_into_ui index w = Ok w' →
  current_index w'
  = if in_range (csv_data w) index then index else current_index w.
Proof.
  unfold load_row_into_ui. intros Hload.
  destruct (in_range (csv_data w) index); [|by injection Hload as <-].
  bind_inv Hload. destruct a2; bind_inv Hload; by injection Hload as <-.
Qed.

Lemma open_detailed_classification_index script w w' :
  open_detailed_classification script w = Ok w' →
  current_index w' = current_index w.
Proof.
  unfold open_detailed_classification. intros Hopen.
  destruct (in_range (csv_data w) (current_index w));
    [|by injection Hopen as <-].
  bind_inv Hopen. destruct a; [by injection Hopen as <-|].
  bind_inv Hopen. case_decide; [bind_inv Hopen|]; by injection Hopen as <-.
Qed.

End frame.

(** ** What a handler that returns has done *)

Section steps.
Import Overview.

Lemma plain_text_is_plain r key text :
  plain_text r key = Ok text → is_plain (r !! Some key) = true.
Proof. unfold plain_text. by destruct (r !! Some key) as [[]|]. Qed.

(** A row that was shown is displayable. *)
Lemma load_row_into_ui_displayable index w w' r :
  in_range (csv_data w) index = Some r →
  load_row_into_ui index w = Ok w' → displayable r.
Proof.
  unfold load_row_into_ui. intros -> Hload. bind_inv Hload. split.
  - repeat constructor; by eapply plain_text_is_plain.
  - apply is_text_is_correct. by eexists.
Qed.

Lemma load_row_into_ui_inv index w w' r :
  combos_exist w → in_range (csv_data w) index = Some r →
  load_row_into_ui index w = Ok w' →
  ∃ correct, is_correct r = Ok correct
    ∧ csv_data w' = csv_data w ∧ current_index w' = index
    ∧ result w' = result w ∧ notices w' = notices w
    ∧ detail_btn w' = negb correct
    ∧ ∀ col, col ∈ ERROR_COLUMNS →
        error_combos w' !! col = Some (shown r correct col).
Proof.
  intros Hcs Hr Hload.
  pose proof (load_row_into_ui_displayable _ _ _ _ Hr Hload) as Hshow.
  destruct (displayable_is_correct r Hshow) as [b Hb].
  destruct (load_row_into_ui_spec index w r b Hcs Hr Hshow Hb)
    as (w'' & Hload' & Hrest).
  assert (w'' = w') as -> by congruence. by exists b.
Qed.

Lemma load_row_into_ui_step index w w' :
  combos_exist w →
  load_row_into_ui index (set_current_index index w) = Ok w' →
  committable w' ∧ lock_shown w' ∧ csv_data w' = csv_data w
  ∧ result w' = result w ∧ notices w' = notices w.
Proof.
  intros Hcs Hload.
  destruct (in_range (csv_data w) index) as [r|] eqn:Hr.
  - destruct (load_row_into_ui_inv index (set_current_index index w) w' r)
      as (b & Hb & Hdata & Hidx & Hres & Hnot & Hbtn & Hshown); [done..|].
    simpl in Hdata. split_and!; [| |done..].
    + split.
      * apply Forall_forall. intros col Hcol. by rewrite Hshown.
      * rewrite Hdata, Hidx, Hr. apply is_text_is_correct. by exists b.
    + intros r0 Hr0 Hlocked. rewrite Hdata, Hidx in Hr0.
      assert (r0 = r) as -> by congruence.
      unfold locked in Hlocked. assert (b = true) as -> by congruence.
      split; [done|]. intros col Hcol. by rewrite Hshown.
  - rewrite load_row_into_ui_out_of_range in Hload by done.
    injection Hload as <-. simpl. split_and!; [| |done..].
    + split; [done|]. simpl. by rewrite Hr.
    + intros r0 Hr0. simpl in Hr0. congruence.
Qed.

Lemma save_current_row_rows_step w w1 :
  save_current_row w = Ok w1 → rows_step (csv_data w) (csv_data w1).
Proof.
  unfold save_current_row. intros Hsave.
  destruct (in_range (csv_data w) (current_index w)) as [r|] eqn:Hr.
  - bind_inv Hsave. injection Hsave as <-. simpl.
    apply in_range_Some in Hr as [Hpos Hr].
    eapply rows_step_insert; [done|by eapply commit_same_outside|].
    unfold locked. rewrite Ha. intros [= ->].
    rewrite commit_as_store in Ha0.
    apply (for_each_store_inv Some _ _) in Ha0 as [Hin _].
    apply Forall_forall. intros col Hcol.
    by destruct (Hin col Hcol) as (x & [= <-] & ->).
  - injection Hsave as <-. apply rows_step_refl.
Qed.

Lemma save_current_row_keeps w w1 :
  save_current_row w = Ok w1 → committable w → lock_shown w →
  committable w1 ∧ lock_shown w1
  ∧ rows_step (csv_data w) (csv_data w1)
  ∧ current_index w1 = current_index w
  ∧ result w1 = result w ∧ notices w1 = notices w.
Proof.
  intros Hsave [Hcs Hrow] Hshown.
  pose proof (save_current_row_rows_step _ _ Hsave) as Hstep.
  pose proof (save_current_row_inv _ _ Hsave) as (Hw1 & Hlen & Hrows).
  pose proof (save_current_row_combos _ _ Hsave) as [Hcombos Hidx].
  assert (detail_btn w1 = detail_btn w ∧ result w1 = result w
          ∧ notices w1 = notices w) as (Hbtn & Hres & Hnot)
    by (by rewrite Hw1).
  split_and!; [| |done..].
  - split; [unfold combos_exist; by rewrite Hcombos|].
    rewrite Hidx.
    destruct (in_range (csv_data w1) (current_index w)) as [r1|] eqn:Hr1;
      [|done].
    apply in_range_Some in Hr1 as [Hpos Hr1].
    destruct (rows_step_back _ _ _ _ Hstep Hr1) as (r & Hr & Hsame & _).
    rewrite (proj2 (in_range_Some _ _ _) (conj Hpos Hr)) in Hrow.
    rewrite Hsame; [done|]. apply fixed_not_category. set_solver.
  - by eapply lock_shown_rows_step.
Qed.

Lemma on_combo_keys f (cs cs' : gmap string combo) col k :
  on_combo f cs col = Ok cs' → is_Some (cs !! k) → is_Some (cs' !! k).
Proof.
  unfold on_combo, combo_of. destruct (cs !! col) as [c|]; [|done].
  intros [= <-] Hk. rewrite lookup_insert_is_Some'. by right.
Qed.

Lemma open_detailed_classification_combos script w w' :
  open_detailed_classification script w = Ok w' →
  combos_exist w → combos_exist w'.
Proof.
  unfold open_detailed_classification. intros Hopen Hcs.
  destruct (in_range (csv_data w) (current_index w));
    [|by injection Hopen as <-].
  bind_inv Hopen. destruct a; [by injection Hopen as <-|].
  bind_inv Hopen. case_decide; [bind_inv Hopen|]; injection Hopen as <-;
    [|done].
  unfold combos_exist in *. simpl. unfold apply_responses in Ha1.
  eapply (for_each_inv
            (λ cs, Forall (λ col, is_Some (cs !! col)) ERROR_COLUMNS));
    [|exact Hcs|exact Ha1].
  intros cs col cs1 _ Hall Hon. cbv beta in Hon.
  destruct (Detail.get_responses _ !! col) as [text|]; [|done].
  eapply Forall_impl; [exact Hall|]. intros k Hk. by eapply on_combo_keys.
Qed.

(** The handlers keep the combos, the lock on the row shown and the rows
    but for the categories of the rows committed. *)
Lemma handle_inv ev w w' :
  handle ev w = Ok w' → committable w → lock_shown w →
  committable w' ∧ lock_shown w' ∧ rows_step (csv_data w) (csv_data w').
Proof.
  intros Hev Hcommit Hshown. pose proof Hcommit as [Hcs Hrow].
  destruct ev as [col text|script| | | |]; simpl in Hev.
  - destruct (error_combos w !! col) as [c|] eqn:Hc;
      [|injection Hev as <-; split_and!; [done..|apply rows_step_refl]].
    destruct (isEnabled c) eqn:Hon;
      [|injection Hev as <-; split_and!; [done..|apply rows_step_refl]].
    injection Hev as <-. split_and!; [| |apply rows_step_refl].
    + split; [|done]. unfold combos_exist. simpl.
      eapply Forall_impl; [exact Hcs|].
      intros col' Hcol'. simpl. rewrite lookup_insert. by case_decide.
    + intros r Hr Hlocked. destruct (Hshown r Hr Hlocked) as [Hbtn Hno].
      split; [done|]. intros col' Hcol'. simpl.
      rewrite lookup_insert_ne; [by apply Hno|].
      intros ->. rewrite (Hno col' Hcol') in Hc. by injection Hc as <-.
  - destruct (detail_btn w) eqn:Hbtn;
      [|injection Hev as <-; split_and!; [done..|apply rows_step_refl]].
    pose proof (open_detailed_classification_data _ _ _ Hev) as Hdata.
    pose proof (open_detailed_classification_index _ _ _ Hev) as Hidx.
    pose proof (open_detailed_classification_combos _ _ _ Hev Hcs) as Hcs'.
    split_and!; [| |rewrite Hdata; apply rows_step_refl].
    + split; [done|]. by rewrite Hdata, Hidx.
    + intros r Hr Hlocked. rewrite Hdata, Hidx in Hr.
      destruct (Hshown r Hr Hlocked) as [? _]. congruence.
  - unfold save_and_previous_row in Hev. bind_inv Hev.
    destruct (save_current_row_keeps _ _ Ha Hcommit Hshown)
      as ([Hcs1 Hrow1] & Hshown1 & Hstep & _).
    case_decide.
    + destruct (load_row_into_ui_step _ _ _ Hcs1 Hev)
        as (? & ? & Hdata & _).
      by rewrite Hdata.
    + by injection Hev as <-.
  - unfold save_and_next_row in Hev. bind_inv Hev.
    destruct (save_current_row_keeps _ _ Ha Hcommit Hshown)
      as ([Hcs1 Hrow1] & Hshown1 & Hstep & _).
    case_decide.
    + destruct (load_row_into_ui_step _ _ _ Hcs1 Hev)
        as (? & ? & Hdata & _).
      by rewrite Hdata.
    + by injection Hev as <-.
  - unfold finish_all in Hev. bind_inv Hev.
    destruct (save_current_row_keeps _ _ Ha Hcommit Hshown)
      as (? & ? & Hstep & _).
    by injection Hev as <-.
  - injection Hev as <-. split_and!; [done..|apply rows_step_refl].
Qed.

Lemma run_inv events w w' :
  run events w = Ok w' → committable w → lock_shown w →
  committable w' ∧ lock_shown w' ∧ rows_step (csv_data w) (csv_data w').
Proof.
  revert w. induction events as [|ev events IH]; intros w Hrun Hcommit Hshown;
    simpl in Hrun.
  - assert (w' = w) as -> by (by destruct (result w); injection Hrun).
    split_and!; [done..|apply rows_step_refl].
  - destruct (result w).
    + injection Hrun as <-. split_and!; [done..|apply rows_step_refl].
    + bind_inv Hrun.
      destruct (handle_inv _ _ _ Ha Hcommit Hshown) as (? & ? & Hstep1).
      destruct (IH _ Hrun) as (? & ? & Hstep); [done..|].
      split_and!; [done..|]. by eapply rows_step_trans.
Qed.

Lemma init_combos data row_number :
  combos_exist
    (Window data (row_number - 1) "" "" ""
       (list_to_map ((λ col, (col, Combo "No" true)) <$> ERROR_COLUMNS))
       true None []).
Proof.
  apply Forall_forall. intros col Hcol. simpl.
  apply not_eq_None_Some. intros Hnone.
  apply not_elem_of_list_to_map in Hnone. apply Hnone.
  rewrite <-list_fmap_compose. simpl. by rewrite list_fmap_id.
Qed.

Lemma init_inv data row_number w :
  init data row_number = Ok w →
  committable w ∧ lock_shown w ∧ csv_data w = data
  ∧ result w = None ∧ notices w = [].
Proof.
  unfold init. intros Hinit.
  by apply (load_row_into_ui_step (row_number - 1) _ w
              (init_combos data row_number)) in Hinit.
Qed.

(** Every state the user can reach has its combos, can commit the row
    under the cursor and shows the lock of that row. *)
Lemma reachable_inv data w :
  reachable data w →
  committable w ∧ lock_shown w ∧ rows_step data (csv_data w).
Proof.
  intros (row_number & events & w0 & Hinit & Hrun).
  destruct (init_inv _ _ _ Hinit) as (Hcommit0 & Hshown0 & Hdata & _).
  rewrite <-Hdata. by eapply run_inv.
Qed.

(** A commit returns on every window that can commit. *)
Lemma save_current_row_returns w :
  committable w →
  ∃ w1, save_current_row w = Ok w1
        ∧ current_index w1 = current_index w
        ∧ result w1 = result w ∧ notices w1 = notices w
        ∧ ∀ r b, in_range (csv_data w) (current_index w) = Some r →
            is_correct r = Ok b →
            ∃ r', csv_data w1 !! Z.to_nat (current_index w) = Some r'
              ∧ ∀ col, col ∈ ERROR_COLUMNS →
                  r' !! Some col
                  = Some (VStr (if b then "No" else working_answer w col)).
Proof.
  intros [Hcs Hrow].
  destruct (in_range (csv_data w) (current_index w)) as [r|] eqn:Hr.
  - apply is_text_is_correct in Hrow as [b Hb].
    destruct (save_current_row_spec w r b) as (r' & Hsave & Hsame & Hcols);
      [done..|].
    apply in_range_Some in Hr as [Hpos Hr].
    eexists. split_and!; [done..|].
    intros r0 b0 [= <-] Hb0. assert (b0 = b) as -> by congruence.
    exists r'. split; [|done]. simpl.
    apply list_lookup_insert_eq. by eapply lookup_lt_Some.
  - exists w. rewrite save_current_row_out_of_range by done.
    by split_and!.
Qed.

Lemma ready_committable w : ready w → committable w.
Proof.
  intros [Hcs Hrows]. split; [done|].
  destruct (in_range (csv_data w) (current_index w)) as [r|] eqn:Hr; [|done].
  apply in_range_Some in Hr as [_ Hr]. rewrite Forall_lookup in Hrows.
  by destruct (Hrows _ _ Hr).
Qed.

(** On a window whose rows can all be shown every handler returns. *)
Lemma handle_returns ev w :
  ready w → ∃ w', handle ev w = Ok w' ∧ ready w'.
Proof.
  intros Hready. pose proof Hready as [Hcs Hrows].
  destruct ev as [col text|script| | | |]; simpl.
  - destruct (error_combos w !! col) as [c|] eqn:Hc; [|by exists w].
    destruct (isEnabled c); [|by exists w].
    eexists. split; [done|]. split; [|done]. simpl.
    eapply Forall_impl; [exact Hcs|].
    intros col' Hcol'. simpl. rewrite lookup_insert. by case_decide.
  - destruct (detail_btn w); [|by exists w].
    destruct (open_detailed_classification_total script w Hready)
      as (w' & -> & Hdata & _ & _ & _ & Hcs').
    exists w'. split; [done|]. split; [done|by rewrite Hdata].
  - unfold save_and_previous_row.
    destruct (save_current_row_step w Hready) as (d' & -> & Hstep & _).
    assert (ready (set_csv_data (λ _, d') w)) as Hready1
      by (split; [done|by eapply rows_step_displayable]).
    simpl. case_decide.
    + destruct (load_row_total (current_index w - 1) _ Hready1)
        as (w' & Hload & ? & _).
      simpl. simpl in Hload. rewrite Hload. by exists w'.
    + by eexists.
  - unfold save_and_next_row.
    destruct (save_current_row_step w Hready) as (d' & -> & Hstep & _).
    assert (ready (set_csv_data (λ _, d') w)) as Hready1
      by (split; [done|by eapply rows_step_displayable]).
    simpl. case_decide.
    + destruct (load_row_total (current_index w + 1) _ Hready1)
        as (w' & Hload & ? & _).
      simpl. simpl in Hload. rewrite Hload. by exists w'.
    + by eexists.
  - unfold finish_all.
    destruct (save_current_row_step w Hready) as (d' & -> & Hstep & _).
    simpl. eexists. split; [done|].
    split; [done|by eapply rows_step_displayable].
  - by eexists.
Qed.

Lemma run_returns events w : ready w → ∃ w', run events w = Ok w'.
Proof.
  revert w. induction events as [|ev events IH]; intros w Hready; simpl.
  - exists w. by destruct (result w).
  - destruct (result w); [by exists w|].
    destruct (handle_returns ev w Hready) as (w1 & -> & Hready1).
    simpl. by apply IH.
Qed.

Lemma init_returns data row_number :
  Forall displayable data →
  ∃ w, init data row_number = Ok w ∧ ready w.
Proof.
  intros Hrows.
  destruct (init_total data row_number Hrows) as (w & ? & ? & _).
  by exists w.
Qed.

End steps.

(** ** The cursor: statements *)

Section cursor_claims.
Import Overview.

Lemma save_current_row_ready w :
  ready w →
  ∃ w1, save_current_row w = Ok w1 ∧ ready w1
        ∧ current_index w1 = current_index w
        ∧ result w1 = result w ∧ notices w1 = notices w
        ∧ ∀ r b, in_range (csv_data w) (current_index w) = Some r →
            is_correct r = Ok b →
            ∃ r', csv_data w1 !! Z.to_nat (current_index w) = Some r'
              ∧ ∀ col, col ∈ ERROR_COLUMNS →
                  r' !! Some col
                  = Some (VStr (if b then "No" else working_answer w col)).
Proof.
  intros Hready. pose proof Hready as [Hcs Hrows].
  destruct (save_current_row_step w Hready) as (d' & Hsave & Hstep & Hrow).
  eexists. split_and!; [done| |done..].
  split; [done|]. by eapply rows_step_displayable.
Qed.

Lemma run_closed events w : result w ≠ None → run events w = Ok w.
Proof. intros Hres. destruct events; simpl; by destruct (result w). Qed.

Lemma reachable_ready data w :
  Forall displayable data → reachable data w →
  ready w ∧ lock_shown w ∧ rows_step data (csv_data w).
Proof.
  intros Hrows (row_number & events & w0 & Hinit & Hrun).
  destruct (init_total data row_number Hrows)
    as (w0' & Hinit' & Hready0 & Hshown0 & Hdata & _).
  assert (w0' = w0) as -> by congruence.
  destruct (run_total events w0 Hready0 Hshown0)
    as (w' & Hrun' & Hready & Hshown & Hstep).
  assert (w' = w) as -> by congruence. by rewrite <-Hdata.
Qed.

(** C5.  [next()] at the last row and [previous()] at index 0 return,
    leave the row index as it is and report the boundary: "No more rows
    to annotate." and "No previous row available."  This holds in every
    state the user can reach, whatever the rows of the store are, and more
    generally on every window that has its combos and whose current row
    has a string under [is_correct]; the other rows are not read. *)
Theorem cursor_bounds w :
  (∀ data, reachable data w → committable w)
  ∧ (committable w →
     (current_index w + 1 = Z.of_nat (length (csv_data w)) →
      ∃ w', save_and_next_row w = Ok w'
            ∧ current_index w' = current_index w
            ∧ notices w'
              = notices w ++ [Information "Done" "No more rows to annotate."])
     ∧ (current_index w = 0 →
        ∃ w', save_and_previous_row w = Ok w'
              ∧ current_index w' = current_index w
              ∧ notices w'
                = notices w
                  ++ [Information "At First Row"
                        "No previous row available."])).
Proof.
  split; [intros data Hreach; by destruct (reachable_inv data w Hreach)|].
  intros Hcommit.
  destruct (save_current_row_returns w Hcommit)
    as (w1 & Hsave & Hidx & _ & Hnot & _).
  assert (length (csv_data w1) = length (csv_data w)) as Hlen.
  { by apply save_current_row_inv in Hsave as (_ & ? & _). }
  split; intros Hat.
  - unfold save_and_next_row. rewrite Hsave. simpl.
    rewrite decide_False by lia. eexists. split; [done|]. simpl.
    by rewrite Hidx, Hnot.
  - unfold save_and_previous_row. rewrite Hsave. simpl.
    rewrite decide_False by lia. eexists. split; [done|]. simpl.
    by rewrite Hidx, Hnot.
Qed.

(** C7.  Committing the same working answers to the same row a second
    time changes nothing: the second commit returns the state the first
    one returned.  On a ready window the commit returns. *)
Theorem save_current_row_idempotent w :
  (∀ w1, save_current_row w = Ok w1 → save_current_row w1 = Ok w1)
  ∧ (ready w → ∃ w1, save_current_row w = Ok w1).
Proof.
  split.
  - intros w1 Hsave. pose proof Hsave as Hinv.
    apply save_current_row_inv in Hinv as (Hw1 & Hlen & _).
    unfold save_current_row in Hsave.
    destruct (in_range (csv_data w) (current_index w)) as [r|] eqn:Hr.
    + bind_inv Hsave. injection Hsave as <-.
      apply in_range_Some in Hr as [Hpos Hr].
      unfold save_current_row. simpl.
      assert (in_range (<[Z.to_nat (current_index w) := a0]> (csv_data w))
                (current_index w) = Some a0) as ->.
      { apply in_range_Some. split; [done|].
        apply list_lookup_insert_eq. by eapply lookup_lt_Some. }
      rewrite (is_correct_same r a0) by by eapply commit_same_outside.
      rewrite Ha. simpl.
      change (commit _ a a0) with (commit w a a0).
      rewrite (commit_twice _ _ _ _ Ha0). simpl.
      unfold set_csv_data. simpl. by rewrite list_insert_insert_eq.
    + injection Hsave as <-. unfold save_current_row. by rewrite Hr.
  - intros Hready.
    destruct (save_current_row_ready w Hready) as (w1 & Hsave & _).
    by exists w1.
Qed.

(** C8.  At a boundary the navigation still commits: the state [next()]
    returns at the last row is the committed state with the notice shown
    and the dialog closed (rejected, so no further event is handled), and
    the state [previous()] returns at index 0 is the committed state with
    the notice shown.  The committed row holds "No" in every category when
    it is locked and the working answers otherwise.  This holds in every
    state the user can reach, whatever the rows of the store are, and more
    generally on every window that has its combos and whose current row
    has a string under [is_correct]; the other rows are not read. *)
Theorem boundary_navigation_commits w :
  (∀ data, reachable data w → committable w)
  ∧ (committable w →
     ∃ w1, save_current_row w = Ok w1
       ∧ (∀ r b, in_range (csv_data w) (current_index w) = Some r →
            is_correct r = Ok b →
            ∃ r', csv_data w1 !! Z.to_nat (current_index w) = Some r'
              ∧ ∀ col, col ∈ ERROR_COLUMNS →
                  r' !! Some col
                  = Some (VStr (if b then "No" else working_answer w col)))
       ∧ (current_index w + 1 = Z.of_nat (length (csv_data w)) →
          ∃ w', save_and_next_row w = Ok w'
            ∧ w' = close (show [Information "Done" "No more rows to annotate."]
                               w1)
            ∧ (result w = None → result w' = Some Rejected)
            ∧ ∀ events, run events w' = Ok w')
       ∧ (current_index w = 0 →
          save_and_previous_row w
          = Ok (show [Information "At First Row" "No previous row available."]
                     w1))).
Proof.
  split; [intros data Hreach; by destruct (reachable_inv data w Hreach)|].
  intros Hcommit.
  destruct (save_current_row_returns w Hcommit)
    as (w1 & Hsave & Hidx & Hres & _ & Hrow).
  assert (length (csv_data w1) = length (csv_data w)) as Hlen.
  { by apply save_current_row_inv in Hsave as (_ & ? & _). }
  exists w1. split_and!; [done|done| |].
  - intros Hat. unfold save_and_next_row. rewrite Hsave. simpl.
    rewrite decide_False by lia. eexists. split_and!; [done|done| |].
    + intros Hopen. simpl. by rewrite Hres, Hopen.
    + intros events. apply run_closed. simpl. by destruct (result w1).
  - intros Hat. unfold save_and_previous_row. rewrite Hsave. simpl.
    by rewrite decide_False by lia.
Qed.

(** C9.  A commit replaces the row under the cursor by a row that differs
    from it in category fields only, and leaves every other row and the
    rest of the window as they are; so after any run of the cursor the
    rows are as many as before, in the same order, and hold in every field
    that is not a category what they held before.  A run returns whenever
    the window has its combos and every row can be shown; a handler that
    raises, on a row without a string under [is_correct], ends the
    program. *)
Theorem commit_changes_categories_only :
  (∀ w w1, save_current_row w = Ok w1 →
     w1 = set_csv_data (λ _, csv_data w1) w
     ∧ length (csv_data w1) = length (csv_data w)
     ∧ ∀ (i : nat) r, csv_data w !! i = Some r →
         ∃ r', csv_data w1 !! i = Some r'
           ∧ (∀ k, k ∉ (Some <$> ERROR_COLUMNS) → r' !! k = r !! k)
           ∧ (Z.of_nat i ≠ current_index w → r' = r))
  ∧ (∀ events w w', run events w = Ok w' →
       length (csv_data w') = length (csv_data w)
       ∧ ∀ (i : nat) r, csv_data w !! i = Some r →
           ∃ r', csv_data w' !! i = Some r'
             ∧ ∀ k, k ∉ (Some <$> ERROR_COLUMNS) → r' !! k = r !! k)
  ∧ (∀ events w, ready w → ∃ w', run events w = Ok w').
Proof.
  split_and!.
  - intros w w1 Hsave. by apply save_current_row_inv.
  - intros events w w' Hrun. by apply run_frame in Hrun.
  - intros events w Hready. by apply run_returns.
Qed.

(** C10.  When the drill-down dialog opened on the current row ends with
    any result but [Accepted], [open_detailed_classification] returns the
    window as it was: working answers, rows and notices. *)
Theorem drilldown_not_accepted script w r seed :
  in_range (csv_data w) (current_index w) = Some r →
  is_correct r = Ok false →
  current_answers w = Ok seed →
  Detail.result (Detail.exec_ script (Detail.init (Some seed)))
  ≠ Some Accepted →
  open_detailed_classification script w = Ok w.
Proof.
  intros Hr Hcorrect Hseed Hrejected.
  unfold open_detailed_classification. rewrite Hr, Hcorrect. simpl.
  rewrite Hseed. simpl. rewrite decide_False by done.
  destruct (run_notices script (Detail.init (Some seed))) as [Hnot|Hacc].
  - unfold Detail.init. by rewrite load_current_question_notices.
  - simpl. rewrite Hnot. by rewrite show_nil.
  - exfalso. apply Hrejected. simpl. by rewrite Hacc.
Qed.

(** C3, amended.  Take a row whose [is_correct], trimmed and in lower
    case, is "true", in a state the user can reach.  While the cursor is
    on it every combo is disabled on "No", opening the drill-down only
    shows the "Skipped" notice, and a commit returns with "No" in all nine
    categories of the row.  After any further events that return the row
    is still locked and its categories are either all "No" or exactly as
    they were; so once they are all "No" they stay so.  The events return
    whenever every row of the store can be shown. *)
Theorem lock_invariant data w (i : nat) r :
  reachable data w →
  csv_data w !! i = Some r → locked r →
  (current_index w = Z.of_nat i →
   (∀ col, col ∈ ERROR_COLUMNS →
      error_combos w !! col = Some (Combo "No" false))
   ∧ (∀ script,
        open_detailed_classification script w
        = Ok (show [Information "Skipped"
                      "This row is correct. No classification needed."] w))
   ∧ ∃ w1 r1, save_current_row w = Ok w1
              ∧ csv_data w1 !! i = Some r1 ∧ all_no r1)
  ∧ (∀ events w', run events w = Ok w' →
       ∃ r', csv_data w' !! i = Some r'
             ∧ locked r' ∧ (r' = r ∨ all_no r') ∧ (all_no r → all_no r'))
  ∧ (Forall displayable data → ∀ events, ∃ w', run events w = Ok w').
Proof.
  intros Hreach Hr Hlocked.
  destruct (reachable_inv data w Hreach) as (Hcommit & Hshown & _).
  split_and!.
  - intros Hat.
    assert (in_range (csv_data w) (current_index w) = Some r) as Hcur.
    { apply in_range_Some. rewrite Hat, Nat2Z.id. split; [lia|done]. }
    destruct (Hshown r Hcur Hlocked) as [_ Hcombos].
    split_and!; [done| |].
    + intros script. unfold open_detailed_classification.
      by rewrite Hcur, Hlocked.
    + destruct (save_current_row_returns w Hcommit)
        as (w1 & Hsave & _ & _ & _ & Hrow).
      destruct (Hrow r true Hcur Hlocked) as (r1 & Hr1 & Hno).
      exists w1, r1. rewrite Hat, Nat2Z.id in Hr1. split_and!; [done..|].
      by apply Forall_forall.
  - intros events w' Hrun.
    destruct (run_inv events w w' Hrun Hcommit Hshown) as (_ & _ & _ & Hstep).
    destruct (Hstep i r Hr) as (r' & Hr' & Hsame & Hlock).
    exists r'. split_and!; [done| | |].
    + unfold locked. by rewrite (is_correct_same r r').
    + by apply Hlock.
    + intros Hno. by destruct (Hlock Hlocked) as [->|].
  - intros Hrows events. apply run_returns.
    by destruct (reachable_ready data w Hrows Hreach).
Qed.

End cursor_claims.

(** ** Reading and writing the rows *)

Section fold_insert.
Context {K V A : Type} `{Countable K}.
Context (kf : A → K) (vf : A → V).

Lemma fold_insert_other (d : gmap K V) l k :
  k ∉ kf <$> l → foldl (λ d x, <[kf x := vf x]> d) d l !! k = d !! k.
Proof.
  revert d. induction l as [|x l IH]; intros d Hk; [done|].
  simpl. rewrite IH by set_solver. apply lookup_insert_ne. set_solver.
Qed.

Lemma fold_insert_is_Some (d : gmap K V) l k :
  is_Some (foldl (λ d x, <[kf x := vf x]> d) d l !! k)
  ↔ is_Some (d !! k) ∨ k ∈ kf <$> l.
Proof.
  revert d. induction l as [|x l IH]; intros d; simpl.
  - set_solver.
  - rewrite IH, lookup_insert_is_Some'. set_solver.
Qed.

Lemma fold_insert_lookup_inv (d : gmap K V) l k v :
  foldl (λ d x, <[kf x := vf x]> d) d l !! k = Some v →
  d !! k = Some v ∨ ∃ x, x ∈ l ∧ v = vf x.
Proof.
  revert d. induction l as [|x l IH]; intros d Hk; [by left|].
  simpl in Hk. apply IH in Hk as [Hk|(y & Hy & ->)].
  - rewrite lookup_insert in Hk. case_decide; [|by left].
    injection Hk as <-. right. exists x. split; [left|done].
  - right. exists y. split; [by right|done].
Qed.

(** The last element with a key decides its value. *)
Lemma fold_insert_lookup (d : gmap K V) l j x :
  l !! j = Some x →
  (∀ j' y, (j < j')%nat → l !! j' = Some y → kf y ≠ kf x) →
  foldl (λ d x, <[kf x := vf x]> d) d l !! kf x = Some (vf x).
Proof.
  revert d j. induction l as [|y l IH]; intros d j Hj Hlast; [done|].
  destruct j as [|j]; simpl in *.
  - injection Hj as ->. rewrite fold_insert_other; [apply lookup_insert_eq|].
    intros (y & Hy & Hin)%list_elem_of_fmap.
    apply list_elem_of_lookup in Hin as [j' Hj'].
    by apply (Hlast (S j') y); [lia|..].
  - apply (IH _ j); [done|]. intros j' z Hlt Hz.
    by apply (Hlast (S j') z); [lia|..].
Qed.

End fold_insert.

Section csv.
Import Csv.

Lemma dict_zip_keys fieldnames record k :
  is_Some (dict_zip fieldnames record !! k)
  ↔ ∃ c, k = Some c ∧ c ∈ take (length record) fieldnames.
Proof.
  unfold dict_zip. rewrite fold_insert_is_Some, lookup_empty.
  split.
  - intros [[? [=]]|Hin]. apply list_elem_of_fmap in Hin as ([c t] & -> & Hin).
    exists c. split; [done|]. apply list_elem_of_lookup in Hin as [j Hj].
    apply lookup_zip_Some in Hj as [Hc Ht]. apply elem_of_take.
    exists j. split; [done|]. by eapply lookup_lt_Some.
  - intros (c & -> & Hc). right.
    apply elem_of_take in Hc as (j & Hj & Hlt).
    destruct (lookup_lt_is_Some_2 record j Hlt) as [t Ht].
    apply list_elem_of_fmap. exists (c, t). split; [done|].
    apply list_elem_of_lookup. exists j. by apply lookup_zip_Some.
Qed.

(** The field under the last column with a name is the one stored. *)
Lemma dict_zip_lookup_last fieldnames record j c text :
  fieldnames !! j = Some c → record !! j = Some text →
  (∀ j', (j < j')%nat → fieldnames !! j' ≠ Some c) →
  dict_zip fieldnames record !! Some c = Some (VStr text).
Proof.
  intros Hc Ht Hlast. unfold dict_zip.
  apply (fold_insert_lookup (λ kv, Some kv.1) (λ kv, VStr kv.2) _ _ j (c, text)).
  - by apply lookup_zip_Some.
  - intros j' [c' t'] Hlt [Hc' _]%lookup_zip_Some [= ->].
    by apply (Hlast j').
Qed.

Lemma dict_zip_lookup fieldnames record j c text :
  NoDup fieldnames →
  fieldnames !! j = Some c → record !! j = Some text →
  dict_zip fieldnames record !! Some c = Some (VStr text).
Proof.
  intros Hnd Hc Ht. apply (dict_zip_lookup_last _ _ j); [done..|].
  intros j' Hlt Hc'. pose proof (NoDup_lookup _ _ _ _ Hnd Hc Hc'). lia.
Qed.

Lemma dict_zip_values fieldnames record k v :
  dict_zip fieldnames record !! k = Some v → ∃ text, v = VStr text.
Proof.
  unfold dict_zip. intros [Hk|([c t] & _ & ->)]%fold_insert_lookup_inv.
  - by rewrite lookup_empty in Hk.
  - by eexists.
Qed.

(** Every column of the header is a key of the row read. *)
Lemma to_dict_keys fieldnames record c :
  c ∈ fieldnames → is_Some (to_dict fieldnames record !! Some c).
Proof.
  intros Hc. unfold to_dict.
  destruct (decide (c ∈ take (length record) fieldnames)) as [Hin|Hnot].
  - assert (is_Some (dict_zip fieldnames record !! Some c)) as Hzip.
    { apply dict_zip_keys. by exists c. }
    repeat case_decide; [by rewrite lookup_insert_ne| |done].
    apply fold_insert_is_Some. by left.
  - assert (c ∈ drop (length record) fieldnames) as Hdrop.
    { rewrite <-(take_drop (length record) fieldnames) in Hc. set_solver. }
    repeat case_decide.
    + rewrite drop_ge in Hdrop by lia. by inv Hdrop.
    + apply fold_insert_is_Some. right. by apply list_elem_of_fmap_2.
    + rewrite drop_ge in Hdrop by lia. by inv Hdrop.
Qed.

(** A field read under a column is stored as it is. *)
Lemma to_dict_lookup fieldnames record j c text :
  NoDup fieldnames →
  fieldnames !! j = Some c → record !! j = Some text →
  to_dict fieldnames record !! Some c = Some (VStr text).
Proof.
  intros Hnd Hc Ht. pose proof (dict_zip_lookup _ _ _ _ _ Hnd Hc Ht) as Hzip.
  unfold to_dict. repeat case_decide; [by rewrite lookup_insert_ne| |done].
  rewrite fold_insert_other; [done|].
  intros (c' & [= <-] & Hin)%list_elem_of_fmap.
  apply list_elem_of_lookup in Hin as [j' Hj']. rewrite lookup_drop in Hj'.
  pose proof (NoDup_lookup _ _ _ _ Hnd Hc Hj').
  apply lookup_lt_Some in Ht. lia.
Qed.

Lemma to_dict_lookup_last fieldnames record j c text :
  fieldnames !! j = Some c → record !! j = Some text →
  (∀ j', (j < j')%nat → fieldnames !! j' ≠ Some c) →
  to_dict fieldnames record !! Some c = Some (VStr text).
Proof.
  intros Hc Ht Hlast.
  pose proof (dict_zip_lookup_last _ _ _ _ _ Hc Ht Hlast) as Hzip.
  unfold to_dict. repeat case_decide; [by rewrite lookup_insert_ne| |done].
  rewrite fold_insert_other; [done|].
  intros (c' & [= <-] & Hin)%list_elem_of_fmap.
  apply list_elem_of_lookup in Hin as [j' Hj']. rewrite lookup_drop in Hj'.
  apply lookup_lt_Some in Ht. by apply (Hlast (length record + j')%nat); [lia|].
Qed.

(** Under a column the reader stores a string or [None], never a list. *)
Lemma to_dict_plain fieldnames record c :
  is_plain (to_dict fieldnames record !! Some c) = true.
Proof.
  destruct (to_dict fieldnames record !! Some c) as [v|] eqn:Hv; [|done].
  assert (v = VNone ∨ ∃ text, v = VStr text) as [->|[text ->]]; [|done..].
  unfold to_dict in Hv. repeat case_decide.
  - rewrite lookup_insert_ne in Hv by done. right.
    by eapply dict_zip_values.
  - apply fold_insert_lookup_inv in Hv as [Hv|(? & _ & ->)]; [|by left].
    right. by eapply dict_zip_values.
  - right. by eapply dict_zip_values.
Qed.

(** A record that is not longer than the header gives keys of the header
    only. *)
Lemma to_dict_dom fieldnames record :
  (length record ≤ length fieldnames)%nat →
  dom (to_dict fieldnames record) ∖ list_to_set (Some <$> fieldnames)
  = (∅ : gset (option string)).
Proof.
  intros Hlen. apply set_eq. intros k. split; [|set_solver].
  rewrite elem_of_difference, elem_of_dom, elem_of_list_to_set.
  intros [Hk Hnot]. exfalso. apply Hnot. unfold to_dict in Hk.
  rewrite decide_False in Hk by lia.
  assert (is_Some (dict_zip fieldnames record !! k) → k ∈ Some <$> fieldnames)
    as Hzip.
  { intros (c & -> & Hc)%dict_zip_keys. apply list_elem_of_fmap_2.
    apply elem_of_take in Hc as (j & Hj & _). by eapply list_elem_of_lookup_2. }
  case_decide; [|by apply Hzip].
  apply fold_insert_is_Some in Hk as [Hk|Hk]; [by apply Hzip|].
  apply list_elem_of_fmap in Hk as (c & -> & Hc). apply list_elem_of_fmap_2.
  apply list_elem_of_lookup in Hc as [j Hj]. rewrite lookup_drop in Hj.
  by eapply list_elem_of_lookup_2.
Qed.

End csv.

(** ** The main window *)

Section main.
Import Main.

Lemma add_columns_spec (cols hs : list string) :
  ∃ extra,
    foldl (λ hs col, if decide (col ∈ hs) then hs else hs ++ [col]) hs cols
    = hs ++ extra
    ∧ (∀ c, c ∈ extra → c ∈ cols ∧ c ∉ hs)
    ∧ (∀ c, c ∈ cols → c ∈ hs ++ extra)
    ∧ NoDup extra.
Proof.
  revert hs. induction cols as [|col cols IH]; intros hs; simpl.
  - exists []. rewrite app_nil_r. split_and!; [done|set_solver..|constructor].
  - case_decide as Hcol.
    + destruct (IH hs) as (extra & -> & Hnew & Hall & Hnd).
      exists extra. split_and!; [done|set_solver|set_solver|done].
    + destruct (IH (hs ++ [col])) as (extra & -> & Hnew & Hall & Hnd).
      exists (col :: extra). rewrite <-app_assoc. simpl.
      split_and!; [done| | |].
      * intros c [->|Hc]%elem_of_cons; [set_solver|].
        destruct (Hnew c Hc). set_solver.
      * intros c [->|Hc]%elem_of_cons; [set_solver|].
        specialize (Hall c Hc). set_solver.
      * constructor; [|done]. intros Hin. destruct (Hnew col Hin). set_solver.
Qed.

Lemma elem_of_add_error_columns hs c :
  c ∈ add_error_columns hs ↔ c ∈ hs ∨ c ∈ ERROR_COLUMNS.
Proof.
  unfold add_error_columns.
  destruct (add_columns_spec ERROR_COLUMNS hs) as (extra & -> & Hnew & Hall & _).
  split.
  - intros [?|Hc]%elem_of_app; [by left|]. right. by apply Hnew.
  - intros [?|Hc]; [set_solver|by apply Hall].
Qed.

Lemma add_error_columns_prefix hs :
  ∃ extra, add_error_columns hs = hs ++ extra.
Proof.
  destruct (add_columns_spec ERROR_COLUMNS hs) as (extra & Heq & _).
  by exists extra.
Qed.

Lemma add_error_columns_NoDup hs : NoDup hs → NoDup (add_error_columns hs).
Proof.
  intros Hnd. unfold add_error_columns.
  destruct (add_columns_spec ERROR_COLUMNS hs) as (extra & -> & Hnew & _ & ?).
  apply NoDup_app. split_and!; [done| |done].
  intros c Hc Hin. by destruct (Hnew c Hin).
Qed.

Lemma add_columns_id (cols hs : list string) :
  (∀ c, c ∈ cols → c ∈ hs) →
  foldl (λ hs col, if decide (col ∈ hs) then hs else hs ++ [col]) hs cols = hs.
Proof.
  induction cols as [|col cols IH]; intros Hall; simpl; [done|].
  rewrite decide_True by set_solver. apply IH. set_solver.
Qed.

Lemma add_error_columns_idemp hs :
  add_error_columns (add_error_columns hs) = add_error_columns hs.
Proof.
  apply add_columns_id. intros c Hc. apply elem_of_add_error_columns. by right.
Qed.

Lemma fill_columns_id (cols : list string) (r : row) :
  (∀ c, c ∈ cols → is_Some (r !! Some c)) →
  foldl (λ r col, match r !! Some col with
                  | Some _ => r
                  | None => <[Some col := VStr "No"]> r
                  end) r cols = r.
Proof.
  induction cols as [|col cols IH]; intros Hall; simpl; [done|].
  destruct (Hall col) as [v ->]; [set_solver|]. apply IH. set_solver.
Qed.

(** After the header has been extended, the default for a category that
    the row lacks never applies: the reader has given the row every
    column of the header. *)
Lemma fill_error_columns_to_dict fieldnames record :
  fill_error_columns (Csv.to_dict (add_error_columns fieldnames) record)
  = Csv.to_dict (add_error_columns fieldnames) record.
Proof.
  apply fill_columns_id. intros c Hc. apply to_dict_keys.
  apply elem_of_add_error_columns. by right.
Qed.

Lemma elem_of_REQUIRED_COLUMNS c :
  c ∈ REQUIRED_COLUMNS
  ↔ c ∈ ["question"; "true_answer"; "predicted_answer_full"; "is_correct"]
    ∨ c ∈ ERROR_COLUMNS.
Proof. unfold REQUIRED_COLUMNS. apply elem_of_app. Qed.

Lemma NoDup_REQUIRED_COLUMNS : NoDup REQUIRED_COLUMNS.
Proof. by_compute. Qed.

Lemma read_csv_Records fieldnames records :
  read_csv (Records (fieldnames :: records))
  = let headers := add_error_columns fieldnames in
    let missing := filter (λ c, c ∉ headers) REQUIRED_COLUMNS in
    if decide (missing ≠ []) then Missing missing
    else Loaded (Csv.read_all headers records) headers.
Proof.
  simpl. case_decide; [done|]. f_equal. unfold Csv.read_all.
  rewrite <-list_fmap_compose. apply list_fmap_ext.
  intros i record _. apply fill_error_columns_to_dict.
Qed.

Lemma write_rows_all headers data :
  Forall (λ r, fill_error_columns r = r
               ∧ dom r ∖ list_to_set (Some <$> headers)
                 = (∅ : gset (option string))) data →
  write_rows headers data
  = (data,
     (λ r : row, (λ key, default (VStr "") (r !! Some key)) <$> headers)
       <$> data,
     None).
Proof.
  induction 1 as [|r data [Hfill Hdom] _ IH]; simpl; [done|].
  rewrite Hfill. unfold Csv.dict_to_list. rewrite decide_True by done.
  by rewrite IH.
Qed.

End main.

(** ** The record store: statements *)

Section store_claims.
Import Main.

Lemma init_row data row_number r b :
  in_range data (row_number - 1) = Some r →
  displayable r → is_correct r = Ok b →
  ∃ w, Overview.init data row_number = Ok w
       ∧ Overview.current_index w = row_number - 1
       ∧ ∀ col, col ∈ ERROR_COLUMNS →
           Overview.error_combos w !! col = Some (shown r b col).
Proof.
  intros Hr Hshow Hb. unfold Overview.init.
  edestruct (load_row_into_ui_spec (row_number - 1)) as (w & -> & _ & ? & Hrest);
    [|exact Hr|done..|].
  - apply Forall_forall. intros col Hcol. simpl.
    apply not_eq_None_Some. intros Hnone.
    apply not_elem_of_list_to_map in Hnone. apply Hnone.
    rewrite <-list_fmap_compose. simpl. by rewrite list_fmap_id.
  - exists w. split_and!; [done..|]. apply Hrest.
Qed.

Lemma init_raises data row_number r e :
  in_range data (row_number - 1) = Some r →
  Forall (λ key, is_plain (r !! Some key) = true)
         ["question"; "true_answer"; "predicted_answer_full"] →
  is_correct r = Raise e →
  Overview.init data row_number = Raise e.
Proof.
  intros Hr Hplain He. unfold Overview.init, Overview.load_row_into_ui.
  cbn [Overview.csv_data]. rewrite Hr.
  assert (∀ key, key ∈ ["question"; "true_answer"; "predicted_answer_full"] →
            ∃ text, Overview.plain_text r key = Ok text) as Htext.
  { rewrite Forall_forall in Hplain. intros key Hkey.
    specialize (Hplain key Hkey). unfold Overview.plain_text.
    destruct (r !! Some key) as [[]|]; by eauto. }
  destruct (Htext "question") as [q ->]; [set_solver|].
  destruct (Htext "true_answer") as [t ->]; [set_solver|].
  destruct (Htext "predicted_answer_full") as [p ->]; [set_solver|].
  simpl. by rewrite He.
Qed.

(** C1, amended.  After a successful load the field set is the header
    with the absent categories appended and holds all thirteen required
    names; the rows are what the reader yields for that field set, one for
    each record that is not blank, and every row has a key for every
    column.  A field read under a column is stored as it is, whatever the
    token, unless the field set repeats the name of the column further
    right.  It is the working answers of a row shown by the cursor that
    are one of the two tokens each: "No" for a locked row, and otherwise
    the stored value if it is "Yes" or "No", and "No" if not.  The cursor
    shows every row that has a string under [is_correct]; on a row whose
    record ends before that column it raises. *)
Theorem load_csv_rows f data headers :
  read_csv f = Loaded data headers →
  ∃ fieldnames records,
    f = Records (fieldnames :: records)
    ∧ headers = add_error_columns fieldnames
    ∧ (∀ c, c ∈ REQUIRED_COLUMNS → c ∈ headers)
    ∧ data = Csv.to_dict headers <$> filter (λ r, r ≠ []) records
    ∧ ∀ (i : nat) r, data !! i = Some r →
        (∀ c, c ∈ headers → is_Some (r !! Some c))
        ∧ (∃ record,
             filter (λ r, r ≠ []) records !! i = Some record
             ∧ ∀ (j : nat) c text,
                 headers !! j = Some c → record !! j = Some text →
                 (∀ j', (j < j')%nat → headers !! j' ≠ Some c) →
                 r !! Some c = Some (VStr text))
        ∧ (∀ b, is_correct r = Ok b →
           ∃ w, Overview.init data (Z.of_nat i + 1) = Ok w
                ∧ ∀ col, col ∈ ERROR_COLUMNS →
                    Overview.error_combos w !! col = Some (shown r b col)
                    ∧ currentText (shown r b col) ∈ combo_items
                    ∧ currentText (shown r b col)
                      = if b then "No"
                        else yes_or_no (default (VStr "") (r !! Some col)))
        ∧ (∀ e, is_correct r = Raise e →
           Overview.init data (Z.of_nat i + 1) = Raise e).
Proof.
  intros Hload. destruct f as [|[|fieldnames records]]; [done..|].
  rewrite read_csv_Records in Hload. cbv zeta in Hload.
  case_decide as Hmissing; [done|].
  pose proof (f_equal (λ o, match o with Loaded d _ => d | _ => [] end) Hload)
    as Hdata.
  pose proof (f_equal (λ o, match o with Loaded _ h => h | _ => [] end) Hload)
    as Hheaders.
  cbv beta iota in Hdata, Hheaders. clear Hload. subst data headers.
  exists fieldnames, records. split_and!; [done..| |done|].
  - intros c Hc. destruct (decide (c ∈ add_error_columns fieldnames)); [done|].
    exfalso. eapply filter_nil_not_elem_of; [exact Hmissing| |exact Hc]. done.
  - intros i r Hr.
    assert (in_range (Csv.read_all (add_error_columns fieldnames) records)
              (Z.of_nat i + 1 - 1) = Some r) as Hrange.
    { apply in_range_Some. split; [lia|].
      by replace (Z.to_nat (Z.of_nat i + 1 - 1)) with i by lia. }
    unfold Csv.read_all in Hr.
    apply list_lookup_fmap_Some in Hr as (record & -> & Hrecord).
    assert (Forall (λ key, is_plain (Csv.to_dict (add_error_columns fieldnames)
                                       record !! Some key) = true)
                   ["question"; "true_answer"; "predicted_answer_full"])
      as Hplain.
    { apply Forall_forall. intros key _. apply to_dict_plain. }
    split_and!.
    + intros c Hc. by apply to_dict_keys.
    + exists record. split; [done|]. intros j c text Hc Ht Hlast.
      by eapply to_dict_lookup_last.
    + intros b Hb.
      edestruct (init_row (Csv.read_all (add_error_columns fieldnames) records)
                   (Z.of_nat i + 1)) as (w & Hinit & _ & Hcombos);
        [exact Hrange| |exact Hb|].
      { split; [done|]. apply is_text_is_correct. by exists b. }
      exists w. split; [done|]. intros col Hcol.
      split_and!; [by apply Hcombos| |by destruct b].
      destruct b; simpl; [set_solver|apply yes_or_no_item].
    + intros e He. by eapply init_raises.
Qed.

(** C2, amended.  Serializing what was loaded, when the header has the
    four fixed columns without a duplicate and no record is longer than
    the field set, writes the field set and then one record per record
    that is not blank, in the same order, each as long as the field set
    and holding in the place of every field read exactly the text read:
    no token is normalized and no category of a row marked correct is
    rewritten on the way.  The store is left as loaded. *)
Theorem save_load_roundtrip file_path fieldnames records w :
  file_path ≠ "" → NoDup fieldnames →
  (∀ c, c ∈ ["question"; "true_answer"; "predicted_answer_full"; "is_correct"]
        → c ∈ fieldnames) →
  Forall (λ record, (length record ≤ length (add_error_columns fieldnames))%nat)
         records →
  ∃ w' out,
    save_csv (load_csv file_path (Records (fieldnames :: records)) w)
    = (w', (VStr <$> add_error_columns fieldnames) :: out)
    ∧ model w' = model (load_csv file_path (Records (fieldnames :: records)) w)
    ∧ notices w'
      = notices w
        ++ [Information "Saved"
              ("CSV saved to: results/annotated_" +:+ basename file_path)]
    ∧ length out = length (filter (λ r, r ≠ []) records)
    ∧ ∀ (i : nat) record, filter (λ r, r ≠ []) records !! i = Some record →
        ∃ o, out !! i = Some o
             ∧ length o = length (add_error_columns fieldnames)
             ∧ take (length record) o = VStr <$> record.
Proof.
  intros Hpath Hnd Hfixed Hlen.
  assert (NoDup (add_error_columns fieldnames)) as Hnd'
    by by apply add_error_columns_NoDup.
  assert (filter (λ c, c ∉ add_error_columns fieldnames) REQUIRED_COLUMNS = [])
    as Hmissing.
  { apply elem_of_nil_inv. intros c [Hnot Hc]%list_elem_of_filter. apply Hnot.
    apply elem_of_add_error_columns.
    apply elem_of_REQUIRED_COLUMNS in Hc as [?|?]; [left; by apply Hfixed|by right]. }
  unfold load_csv. rewrite decide_False by done. rewrite read_csv_Records.
  cbv zeta. rewrite Hmissing. rewrite decide_False by (by intros ?).
  unfold save_csv. cbn [model csv_file_path _data _headers].
  rewrite decide_False by done. rewrite add_error_columns_idemp.
  rewrite write_rows_all.
  2:{ unfold Csv.read_all. apply Forall_fmap, Forall_forall.
      intros record [_ Hin]%list_elem_of_filter. simpl. split.
      - apply fill_error_columns_to_dict.
      - apply to_dict_dom. rewrite Forall_forall in Hlen. by apply Hlen. }
  eexists _, _. split; [reflexivity|]. split_and!; [done|done| |].
  - unfold Csv.read_all. by rewrite !length_fmap.
  - intros i record Hrecord. eexists. split.
    { unfold Csv.read_all. rewrite !list_lookup_fmap, Hrecord. done. }
    split; [by rewrite length_fmap|].
    apply list_eq. intros j. rewrite list_lookup_fmap.
    destruct (record !! j) as [text|] eqn:Ht; simpl.
    + assert (j < length record)%nat as Hj by by eapply lookup_lt_Some.
      rewrite lookup_take_lt by done. rewrite list_lookup_fmap.
      assert (length record ≤ length (add_error_columns fieldnames))%nat as Hle.
      { rewrite Forall_forall in Hlen. apply Hlen.
        by eapply list_elem_of_filter, list_elem_of_lookup_2. }
      destruct (lookup_lt_is_Some_2 (add_error_columns fieldnames) j) as [c Hc];
        [lia|].
      rewrite Hc. simpl.
      by rewrite (to_dict_lookup _ _ j c text).
    + apply lookup_ge_None in Ht. apply lookup_ge_None.
      rewrite length_take. lia.
Qed.

(** C6.  When a required column is still absent after the categories
    have been appended to the header, the load shows the warning with
    exactly the absent required names, each once and in the order of the
    required columns, and leaves the model, the file path and the buttons
    of the window as they were.  The absent names are the fixed columns
    the header lacks. *)
Theorem load_csv_missing_columns file_path fieldnames records w c :
  file_path ≠ "" →
  c ∈ REQUIRED_COLUMNS → c ∉ add_error_columns fieldnames →
  ∃ missing,
    load_csv file_path (Records (fieldnames :: records)) w
    = show [Warning "Missing Columns" missing] w
    ∧ missing = filter (λ c, c ∉ add_error_columns fieldnames) REQUIRED_COLUMNS
    ∧ NoDup missing
    ∧ (∀ c', c' ∈ missing
             ↔ c' ∈ REQUIRED_COLUMNS ∧ c' ∉ add_error_columns fieldnames)
    ∧ (∀ c', c' ∈ missing
             ↔ c' ∈ ["question"; "true_answer"; "predicted_answer_full";
                     "is_correct"]
               ∧ c' ∉ fieldnames)
    ∧ model (show [Warning "Missing Columns" missing] w) = model w
    ∧ csv_file_path (show [Warning "Missing Columns" missing] w)
      = csv_file_path w
    ∧ annotate_btn (show [Warning "Missing Columns" missing] w)
      = annotate_btn w
    ∧ save_btn (show [Warning "Missing Columns" missing] w) = save_btn w.
Proof.
  intros Hpath Hc Hnot.
  exists (filter (λ c, c ∉ add_error_columns fieldnames) REQUIRED_COLUMNS).
  assert (∀ c', c' ∈ filter (λ c, c ∉ add_error_columns fieldnames)
                       REQUIRED_COLUMNS
                ↔ c' ∈ REQUIRED_COLUMNS ∧ c' ∉ add_error_columns fieldnames)
    as Hmissing.
  { intros c'. rewrite list_elem_of_filter. naive_solver. }
  split_and!; [|done| |done| |done..].
  - unfold load_csv. rewrite decide_False by done. rewrite read_csv_Records.
    cbv zeta. rewrite decide_True; [done|].
    apply (elem_of_not_nil c). by apply Hmissing.
  - apply NoDup_filter, NoDup_REQUIRED_COLUMNS.
  - intros c'. rewrite Hmissing, elem_of_REQUIRED_COLUMNS,
      elem_of_add_error_columns.
    assert (c' ∈ ["question"; "true_answer"; "predicted_answer_full";
                  "is_correct"] → c' ∉ ERROR_COLUMNS) as Hfixed.
    { intros Hin Hcat. apply (fixed_not_category c' Hin).
      by apply list_elem_of_fmap_2. }
    tauto.
Qed.

End store_claims.

(** ** The scenarios, evaluated *)

Section scenarios.
Import Main.

(** Against C1 as stated: the load of scenario B succeeds and the first
    row still holds "Maybe" for Arithmetic, which is neither token. *)
Lemma load_keeps_malformed_token :
  read_csv scenario_B_file = Loaded scenario_B_rows REQUIRED_COLUMNS
  ∧ (scenario_B_rows !! 0%nat) ≫= (λ r : row, r !! Some "Arithmetic")
    = Some (VStr "Maybe")
  ∧ VStr "Maybe" ≠ VStr "Yes" ∧ VStr "Maybe" ≠ VStr "No".
Proof. split_and!; [by vm_compute|by vm_compute|done|done]. Qed.

(** Against C2 as stated: serializing what was loaded from scenario B
    writes the records as they were read, with "Maybe" for Arithmetic in
    the first and "Yes" for Grammar in the second, whose [is_correct] is
    "True". *)
Lemma roundtrip_keeps_tokens :
  (save_csv scenario_B_loaded).2
  = (VStr <$> REQUIRED_COLUMNS)
    :: ((λ record : list string, VStr <$> record) <$> scenario_B_records).
Proof. by vm_compute. Qed.

(** Against C3 as stated: after loading scenario B and finishing on the
    first row, the second row is locked and still reads "Yes" for
    Grammar. *)
Lemma locked_row_keeps_stored_answer :
  match annotate_rows [Overview.ClickFinishAll] scenario_B_loaded with
  | Ok w =>
      match model w with
      | Some m =>
          (λ r : row, (is_correct r, r !! Some "Grammar")) <$> _data m !! 1%nat
      | None => None
      end
  | Raise _ => None
  end
  = Some (Ok true, Some (VStr "Yes")).
Proof. vm_compute. reflexivity. Qed.

(** Against C4 as stated: seeded with Grammar alone, the dialog of
    scenario D is accepted and returns "No" for Grammar and no value at
    all for Hallucination. *)
Lemma drilldown_partial_seed :
  Detail.result
    (Detail.exec_ scenario_D_script (Detail.init (Some scenario_D_seed)))
  = Some Accepted
  ∧ Detail.get_responses
      (Detail.exec_ scenario_D_script (Detail.init (Some scenario_D_seed)))
    !! "Grammar" = Some "No"
  ∧ Detail.get_responses
      (Detail.exec_ scenario_D_script (Detail.init (Some scenario_D_seed)))
    !! "Hallucination" = None.
Proof. split_and!; by vm_compute. Qed.

(** Scenario A: the absent category columns are appended to the field
    set, there are two rows, and the second row, marked correct, is shown
    locked: the drill-down button and every combo disabled, on "No". *)
Example scenario_A :
  match read_csv (Records [["question"; "true_answer";
                            "predicted_answer_full"; "is_correct"];
                           ["q1"; "a1"; "p1"; "False"];
                           ["q2"; "a2"; "p2"; "True"]]) with
  | Loaded data headers =>
      match Overview.init data 2 with
      | Ok w =>
          Some (headers, length data, Overview.detail_btn w,
                (λ col, Overview.error_combos w !! col) <$> ERROR_COLUMNS)
      | Raise _ => None
      end
  | _ => None
  end
  = Some (REQUIRED_COLUMNS, 2%nat, false,
          (λ _, Some (Combo "No" false)) <$> ERROR_COLUMNS).
Proof. vm_compute. reflexivity. Qed.

(** Scenario C: from row 0 of three rows, the third [next()] leaves the
    cursor on row 2 and reports that there are no more rows. *)
Example scenario_C :
  match Overview.init
          (Csv.read_all ["question"; "is_correct"]
                        [["q1"; "False"]; ["q2"; "False"]; ["q3"; "False"]]) 1
        ≫= Overview.run [Overview.ClickNext; Overview.ClickNext;
                         Overview.ClickNext] with
  | Ok w => Some (Overview.current_index w, Overview.notices w)
  | Raise _ => None
  end
  = Some (2, [Information "Done" "No more rows to annotate."]).
Proof. vm_compute. reflexivity. Qed.

Lemma load_csv_rows_witness :
  read_csv scenario_B_file = Loaded scenario_B_rows REQUIRED_COLUMNS
  ∧ ∃ fieldnames records,
      scenario_B_file = Records (fieldnames :: records)
      ∧ REQUIRED_COLUMNS = add_error_columns fieldnames.
Proof.
  assert (read_csv scenario_B_file = Loaded scenario_B_rows REQUIRED_COLUMNS)
    as Hload by by_compute.
  split; [exact Hload|].
  destruct (load_csv_rows _ _ _ Hload) as (fieldnames & records & Hf & Hh & _).
  exists fieldnames, records. split; [exact Hf|exact Hh].
Defined.

Lemma save_load_roundtrip_witness :
  "data.csv" ≠ "" ∧ NoDup REQUIRED_COLUMNS
  ∧ Forall (λ record,
              (length record ≤ length (add_error_columns REQUIRED_COLUMNS))%nat)
           scenario_B_records
  ∧ ∃ w' out,
      save_csv (load_csv "data.csv"
                  (Records (REQUIRED_COLUMNS :: scenario_B_records)) init)
      = (w', (VStr <$> add_error_columns REQUIRED_COLUMNS) :: out)
      ∧ length out = length (filter (λ r, r ≠ []) scenario_B_records).
Proof.
  assert ("data.csv" ≠ "") as Hpath by discriminate.
  assert (NoDup REQUIRED_COLUMNS) as Hnd by by_compute.
  assert (Forall (λ record,
                    (length record
                     ≤ length (add_error_columns REQUIRED_COLUMNS))%nat)
                 scenario_B_records) as Hlen by by_compute.
  assert (∀ c, c ∈ ["question"; "true_answer"; "predicted_answer_full";
                    "is_correct"] → c ∈ REQUIRED_COLUMNS) as Hfixed.
  { apply Forall_forall. by_compute. }
  split; [exact Hpath|]. split; [exact Hnd|]. split; [exact Hlen|].
  destruct (save_load_roundtrip "data.csv" REQUIRED_COLUMNS scenario_B_records
              init Hpath Hnd Hfixed Hlen)
    as (w' & out & Hsave & _ & _ & Hout & _).
  exists w', out. split; [exact Hsave|exact Hout].
Defined.

Lemma load_csv_missing_columns_witness :
  "data.csv" ≠ "" ∧ "is_correct" ∈ REQUIRED_COLUMNS
  ∧ "is_correct"
    ∉ add_error_columns ["question"; "true_answer"; "predicted_answer_full"]
  ∧ ∃ missing,
      load_csv "data.csv"
        (Records [["question"; "true_answer"; "predicted_answer_full"];
                  ["q1"; "a1"; "p1"]])
        scenario_B_loaded
      = show [Warning "Missing Columns" missing] scenario_B_loaded
      ∧ ∀ c, c ∈ missing ↔ c ∈ ["is_correct"].
Proof.
  assert ("data.csv" ≠ "") as Hpath by discriminate.
  assert ("is_correct" ∈ REQUIRED_COLUMNS) as Hreq by by_compute.
  assert ("is_correct"
          ∉ add_error_columns
              ["question"; "true_answer"; "predicted_answer_full"]) as Hnot
    by by_compute.
  split; [exact Hpath|]. split; [exact Hreq|]. split; [exact Hnot|].
  destruct (load_csv_missing_columns "data.csv"
              ["question"; "true_answer"; "predicted_answer_full"]
              [["q1"; "a1"; "p1"]] scenario_B_loaded "is_correct"
              Hpath Hreq Hnot)
    as (missing & Hload & _ & _ & _ & Hfixed & _).
  exists missing. split; [exact Hload|].
  intros c. rewrite Hfixed. clear. split.
  - intros [Hc Hout]. rewrite !elem_of_cons in Hc. rewrite !elem_of_cons in Hout.
    rewrite list_elem_of_singleton. tauto.
  - intros ->%list_elem_of_singleton. split; [by_compute|by_compute].
Defined.

Lemma cursor_bounds_witness :
  committable scenario_B_last_row
  ∧ Overview.current_index scenario_B_last_row + 1
    = Z.of_nat (length (Overview.csv_data scenario_B_last_row))
  ∧ (∃ w', Overview.save_and_next_row scenario_B_last_row = Ok w'
           ∧ Overview.current_index w'
             = Overview.current_index scenario_B_last_row
           ∧ Overview.notices w'
             = Overview.notices scenario_B_last_row
               ++ [Information "Done" "No more rows to annotate."])
  ∧ committable scenario_stray_first_row
  ∧ ¬ ready scenario_stray_first_row
  ∧ Overview.current_index scenario_stray_first_row = 0
  ∧ ∃ w', Overview.save_and_previous_row scenario_stray_first_row = Ok w'
          ∧ Overview.current_index w'
            = Overview.current_index scenario_stray_first_row
          ∧ Overview.notices w'
            = Overview.notices scenario_stray_first_row
              ++ [Information "At First Row" "No previous row available."].
Proof.
  assert (committable scenario_B_last_row) as Hcommit by by_compute.
  assert (Overview.current_index scenario_B_last_row + 1
          = Z.of_nat (length (Overview.csv_data scenario_B_last_row))) as Hat
    by by_compute.
  assert (committable scenario_stray_first_row) as Hstray by by_compute.
  assert (¬ ready scenario_stray_first_row) as Hnot by by_compute.
  assert (Overview.current_index scenario_stray_first_row = 0) as Hfirst
    by by_compute.
  split; [exact Hcommit|]. split; [exact Hat|].
  split;
    [exact (proj1 (proj2 (cursor_bounds scenario_B_last_row) Hcommit) Hat)|].
  split; [exact Hstray|]. split; [exact Hnot|]. split; [exact Hfirst|].
  exact (proj2 (proj2 (cursor_bounds scenario_stray_first_row) Hstray) Hfirst).
Defined.

Lemma boundary_navigation_commits_witness :
  committable scenario_B_last_row
  ∧ Overview.current_index scenario_B_last_row + 1
    = Z.of_nat (length (Overview.csv_data scenario_B_last_row))
  ∧ (∃ w1, Overview.save_current_row scenario_B_last_row = Ok w1
           ∧ ∃ w', Overview.save_and_next_row scenario_B_last_row = Ok w'
                   ∧ Overview.result w' = Some Rejected)
  ∧ committable scenario_stray_first_row
  ∧ Overview.current_index scenario_stray_first_row = 0
  ∧ ∃ w1, Overview.save_current_row scenario_stray_first_row = Ok w1
          ∧ Overview.save_and_previous_row scenario_stray_first_row
            = Ok (Overview.show
                    [Information "At First Row" "No previous row available."]
                    w1).
Proof.
  assert (committable scenario_B_last_row) as Hcommit by by_compute.
  assert (Overview.current_index scenario_B_last_row + 1
          = Z.of_nat (length (Overview.csv_data scenario_B_last_row))) as Hat
    by by_compute.
  assert (committable scenario_stray_first_row) as Hstray by by_compute.
  assert (Overview.current_index scenario_stray_first_row = 0) as Hfirst
    by by_compute.
  split; [exact Hcommit|]. split; [exact Hat|]. split.
  - destruct (proj2 (boundary_navigation_commits scenario_B_last_row) Hcommit)
      as (w1 & Hsave & _ & Hnext & _).
    exists w1. split; [exact Hsave|].
    destruct (Hnext Hat) as (w' & Hw' & _ & Hres & _).
    exists w'. split; [exact Hw'|]. apply Hres. by_compute.
  - split; [exact Hstray|]. split; [exact Hfirst|].
    destruct (proj2 (boundary_navigation_commits scenario_stray_first_row)
                Hstray)
      as (w1 & Hsave & _ & _ & Hprevious).
    exists w1. split; [exact Hsave|exact (Hprevious Hfirst)].
Defined.

Lemma drilldown_not_accepted_witness :
  in_range (Overview.csv_data scenario_B_first_row)
           (Overview.current_index scenario_B_first_row)
  = Some (scenario_B_row 0)
  ∧ is_correct (scenario_B_row 0) = Ok false
  ∧ Overview.current_answers scenario_B_first_row = Ok all_no_answers
  ∧ Detail.result
      (Detail.exec_ [Detail.Pick "Yes"; Detail.ClickNext; Detail.CloseWindow]
         (Detail.init (Some all_no_answers)))
    ≠ Some Accepted
  ∧ Overview.open_detailed_classification
      [Detail.Pick "Yes"; Detail.ClickNext; Detail.CloseWindow]
      scenario_B_first_row
    = Ok scenario_B_first_row.
Proof.
  assert (in_range (Overview.csv_data scenario_B_first_row)
            (Overview.current_index scenario_B_first_row)
          = Some (scenario_B_row 0)) as Hr by by_compute.
  assert (is_correct (scenario_B_row 0) = Ok false) as Hcorrect by by_compute.
  assert (Overview.current_answers scenario_B_first_row = Ok all_no_answers)
    as Hseed by by_compute.
  assert (Detail.result
            (Detail.exec_
               [Detail.Pick "Yes"; Detail.ClickNext; Detail.CloseWindow]
               (Detail.init (Some all_no_answers)))
          ≠ Some Accepted) as Hrejected by by_compute.
  split; [exact Hr|]. split; [exact Hcorrect|].
  split; [exact Hseed|]. split; [exact Hrejected|].
  exact (drilldown_not_accepted _ _ _ _ Hr Hcorrect Hseed Hrejected).
Defined.

Lemma lock_invariant_witness :
  reachable scenario_stray_rows scenario_stray_first_row
  ∧ ¬ Forall displayable scenario_stray_rows
  ∧ Overview.csv_data scenario_stray_first_row !! 0%nat
    = Some scenario_stray_row
  ∧ locked scenario_stray_row
  ∧ Overview.current_index scenario_stray_first_row = Z.of_nat 0
  ∧ Overview.error_combos scenario_stray_first_row !! "Grammar"
    = Some (Combo "No" false)
  ∧ (∃ w1 r1, Overview.save_current_row scenario_stray_first_row = Ok w1
              ∧ Overview.csv_data w1 !! 0%nat = Some r1 ∧ all_no r1)
  ∧ ∀ events w',
      Overview.run events scenario_stray_first_row = Ok w' →
      ∃ r', Overview.csv_data w' !! 0%nat = Some r'
            ∧ locked r'
            ∧ (r' = scenario_stray_row ∨ all_no r').
Proof.
  assert (reachable scenario_stray_rows scenario_stray_first_row) as Hreach.
  { exists 1, [], scenario_stray_first_row. split; by_compute. }
  assert (¬ Forall displayable scenario_stray_rows) as Hnot by by_compute.
  assert (Overview.csv_data scenario_stray_first_row !! 0%nat
          = Some scenario_stray_row) as Hr by by_compute.
  assert (locked scenario_stray_row) as Hlocked by by_compute.
  assert (Overview.current_index scenario_stray_first_row = Z.of_nat 0)
    as Hat by by_compute.
  assert ("Grammar" ∈ ERROR_COLUMNS) as Hcol by by_compute.
  split; [exact Hreach|]. split; [exact Hnot|]. split; [exact Hr|].
  split; [exact Hlocked|]. split; [exact Hat|].
  destruct (lock_invariant _ _ _ _ Hreach Hr Hlocked)
    as (Hshown & Hafter & _).
  destruct (Hshown Hat) as (Hcombos & _ & Hsave).
  split; [exact (Hcombos "Grammar" Hcol)|]. split; [exact Hsave|].
  intros events w' Hrun.
  destruct (Hafter events w' Hrun) as (r' & Hr' & Hl' & Hsame & _).
  exists r'. split; [exact Hr'|]. split; [exact Hl'|exact Hsame].
Defined.

End scenarios.

(** * Further properties *)

(** ** The drill-down dialog *)

Section detail_more.
Import Detail.

Lemma length_ERROR_COLUMNS : length ERROR_COLUMNS = 9%nat.
Proof. by_compute. Qed.

Lemma run_detail_closed script w : result w ≠ None → run script w = w.
Proof. intros Hres. destruct script; simpl; by destruct (result w). Qed.

Lemma in_range_drop {A} (xs : list A) i x rest :
  0 ≤ i → drop (Z.to_nat i) xs = x :: rest →
  in_range xs i = Some x
  ∧ drop (Z.to_nat (i + 1)) xs = rest
  ∧ Z.of_nat (length xs) = i + 1 + Z.of_nat (length rest).
Proof.
  intros Hi Hdrop. split_and!.
  - apply in_range_Some. split; [done|].
    pose proof (lookup_drop xs (Z.to_nat i) 0) as Hlook.
    rewrite Hdrop, Nat.add_0_r in Hlook. by rewrite <-Hlook.
  - replace (Z.to_nat (i + 1)) with (Z.to_nat i + 1)%nat by lia.
    rewrite <-drop_drop. by rewrite Hdrop.
  - assert (length (drop (Z.to_nat i) xs) = S (length rest)) as Hlen
      by by rewrite Hdrop.
    rewrite length_drop in Hlen. lia.
Qed.

(** Answering from the current question to the last one. *)
Lemma answer_each_run answers : ∀ cols w,
  result w = None → 0 ≤ current_idx w →
  drop (Z.to_nat (current_idx w)) ERROR_COLUMNS = cols →
  length answers = length cols →
  Forall (λ a, a ∈ combo_items) answers →
  NoDup cols → cols ≠ [] →
  result (run (answer_each answers) w) = Some Accepted
  ∧ notices (run (answer_each answers) w)
    = notices w ++ [Information "Done" "All 9 questions answered."]
  ∧ (∀ (i : nat) c a, cols !! i = Some c → answers !! i = Some a →
       responses (run (answer_each answers) w) !! c = Some a)
  ∧ (∀ c, c ∉ cols →
       responses (run (answer_each answers) w) !! c = responses w !! c).
Proof.
  induction answers as [|a answers IH];
    intros cols w Hres Hidx Hdrop Hlen Hitems Hnd Hne.
  { destruct cols; [done|discriminate Hlen]. }
  destruct cols as [|c cols]; [done|]. clear Hne.
  destruct (in_range_drop _ _ _ _ Hidx Hdrop) as (Hc & Hdrop' & Hlen').
  apply Forall_cons in Hitems as [Ha Hitems].
  apply NoDup_cons in Hnd as [Hc_new Hnd].
  injection Hlen as Hlen.
  simpl. rewrite Hres. simpl.
  set (w1 := set_answer_combo (setCurrentText a) w).
  assert (responses (record_answer w1)
          = <[c := a]> (responses w)) as Hrec.
  { unfold record_answer, w1. simpl. rewrite Hc. simpl.
    by rewrite setCurrentText_item. }
  unfold next_question. rewrite record_answer_idx, record_answer_result,
    record_answer_notices, record_answer_combo, Hrec.
  cbn [current_idx w1 set_answer_combo result notices responses answer_combo].
  destruct cols as [|c' cols].
  - destruct answers; [|discriminate Hlen].
    rewrite decide_True by (simpl in Hlen'; lia).
    simpl. rewrite Hres. simpl. split_and!; [done|done| |].
    + intros i c0 a0 Hc0 Ha0. destruct i; [|done].
      injection Hc0 as <-. injection Ha0 as <-. apply lookup_insert_eq.
    + intros c0 Hc0. apply lookup_insert_ne. set_solver.
  - rewrite decide_False by (simpl in Hlen'; lia).
    match goal with |- context [load_current_question ?w] => set (w2 := w) end.
    destruct (IH (c' :: cols) (load_current_question w2))
      as (Hacc & Hnot & Hin & Hout); [..|done|].
    + destruct (in_range_drop ERROR_COLUMNS (current_idx w + 1) c' cols)
        as (Hc' & _); [lia|done|].
      unfold load_current_question, w2. cbn [current_idx]. by rewrite Hc'.
    + rewrite load_current_question_idx. simpl. lia.
    + by rewrite load_current_question_idx.
    + done.
    + done.
    + done.
    + rewrite Hacc, Hnot, load_current_question_notices.
      split_and!; [done|done| |].
      * intros i c0 a0 Hc0 Ha0. destruct i as [|i]; simpl in *.
        -- injection Hc0 as <-. injection Ha0 as <-.
           rewrite Hout by done. rewrite load_current_question_responses.
           apply lookup_insert_eq.
        -- by apply (Hin i).
      * intros c0 Hc0. rewrite Hout by set_solver.
        rewrite load_current_question_responses.
        apply lookup_insert_ne. set_solver.
Qed.

Lemma init_navigation seed : navigation (init seed) = (0, None).
Proof.
  unfold init, load_current_question, navigation.
  cbn [current_idx].
  replace (in_range ERROR_COLUMNS 0) with (Some "Grammar") by by_compute.
  done.
Qed.

Lemma init_idx seed : current_idx (init seed) = 0.
Proof. exact (f_equal fst (init_navigation seed)). Qed.

Lemma init_result seed : result (init seed) = None.
Proof. exact (f_equal snd (init_navigation seed)). Qed.

Lemma navigation_eq w1 w2 :
  navigation w1 = navigation w2 →
  current_idx w1 = current_idx w2 ∧ result w1 = result w2.
Proof.
  intros Hnav. split; [exact (f_equal fst Hnav)|exact (f_equal snd Hnav)].
Qed.

(** X1.  Answering all nine questions in turn, each with one of the two
    items, ends the dialog accepted with the notice that all nine are
    answered, and the returned set holds for every category the answer
    picked for it, whatever the seed was. *)
Theorem drilldown_complete seed answers :
  length answers = length ERROR_COLUMNS →
  Forall (λ a, a ∈ combo_items) answers →
  result (exec_ (answer_each answers) (init seed)) = Some Accepted
  ∧ notices (exec_ (answer_each answers) (init seed))
    = [Information "Done" "All 9 questions answered."]
  ∧ ∀ (i : nat) c a, ERROR_COLUMNS !! i = Some c → answers !! i = Some a →
      get_responses (exec_ (answer_each answers) (init seed)) !! c = Some a.
Proof.
  intros Hlen Hitems.
  pose proof (init_idx seed) as Hidx. pose proof (init_result seed) as Hres.
  destruct (answer_each_run answers ERROR_COLUMNS (init seed))
    as (Hacc & Hnot & Hin & _); [done|lia|by rewrite Hidx|done|done|..].
  - apply NoDup_ERROR_COLUMNS.
  - intros Hnil. pose proof length_ERROR_COLUMNS as Hnine.
    by rewrite Hnil in Hnine.
  - unfold exec_, get_responses. simpl. rewrite Hacc, Hnot.
    split_and!; [done| |done].
    unfold init. by rewrite load_current_question_notices.
Qed.

Lemma load_current_question_navigation w :
  navigation (load_current_question w)
  = match in_range ERROR_COLUMNS (current_idx w) with
    | Some _ => navigation w
    | None => (current_idx w, Some (default Rejected (result w)))
    end.
Proof. unfold load_current_question. by destruct (in_range _ _). Qed.

Lemma handle_navigation ev w1 w2 :
  navigation w1 = navigation w2 →
  navigation (handle ev w1) = navigation (handle ev w2).
Proof.
  intros [Hidx Hres]%navigation_eq. destruct ev; simpl.
  - unfold navigation. simpl. by rewrite Hidx, Hres.
  - unfold next_question.
    rewrite !record_answer_idx, !record_answer_result, Hidx, Hres.
    cbn [current_idx].
    destruct (decide (Z.of_nat (length ERROR_COLUMNS) ≤ current_idx w2 + 1)).
    + unfold navigation. simpl.
      by rewrite ?record_answer_idx, ?record_answer_result, ?Hidx, ?Hres.
    + rewrite !load_current_question_navigation. simpl.
      unfold navigation. simpl.
      rewrite ?record_answer_idx, ?record_answer_result, ?Hidx, ?Hres.
      by destruct (in_range _ _).
  - unfold navigation. simpl.
    by rewrite !record_answer_idx, !record_answer_result, Hidx, Hres.
  - unfold navigation. simpl. by rewrite Hidx, Hres.
Qed.

(** The index stays between 0 and 9, and an open dialog is on one of the
    nine questions. *)
Lemma handle_bounds ev w :
  result w = None → 0 ≤ current_idx w < 9 →
  0 ≤ current_idx (handle ev w) ≤ 9
  ∧ (result (handle ev w) = None → current_idx (handle ev w) < 9)
  ∧ (result (handle ev w) = Some Rejected → ev = CloseWindow).
Proof.
  intros Hres Hidx. pose proof length_ERROR_COLUMNS as Hlen.
  destruct ev; simpl.
  - rewrite Hres. split; [lia|]; split; [lia|done].
  - unfold next_question. rewrite record_answer_idx, record_answer_result.
    case_decide as Hlast.
    + simpl. rewrite Hres. simpl. split; [lia|]; split; [done|done].
    + pose proof (load_current_question_navigation
                    {| responses := responses (record_answer w);
                       current_idx := current_idx w + 1;
                       answer_combo := answer_combo (record_answer w);
                       result := result w;
                       notices := notices (record_answer w) |}) as Hnav.
      cbn [current_idx] in Hnav.
      destruct (in_range ERROR_COLUMNS (current_idx w + 1)) eqn:Hr.
      * apply navigation_eq in Hnav as [Hidx' Hres'].
        rewrite Hidx', Hres'. simpl. rewrite Hres.
        apply in_range_Some in Hr as [_ Hr%lookup_lt_Some].
        split; [lia|]; split; [lia|done].
      * apply in_range_None in Hr. cbn [current_idx] in Hlast. lia.
  - rewrite record_answer_idx, record_answer_result, Hres. simpl.
    split; [lia|]; split; [done|done].
  - rewrite Hres. simpl. split; [lia|]; split; [done|done].
Qed.

(** X2.  Where the dialog stands after a script does not depend on the
    seed.  Its index stays between 0 and 9; while it is open it is on one
    of the nine questions, so [load_current_question] never closes it; and
    it ends rejected only when the user closes the window. *)
Theorem drilldown_navigation seed1 seed2 script :
  navigation (run script (init seed1)) = navigation (run script (init seed2))
  ∧ 0 ≤ current_idx (run script (init seed1)) ≤ 9
  ∧ (result (run script (init seed1)) = None →
     current_idx (run script (init seed1)) < 9)
  ∧ (result (run script (init seed1)) = Some Rejected →
     CloseWindow ∈ script).
Proof.
  split.
  - assert (∀ w1 w2, navigation w1 = navigation w2 →
              navigation (run script w1) = navigation (run script w2)) as Hrun.
    { induction script as [|ev script IH]; intros w1 w2 Hnav; simpl.
      - destruct (navigation_eq _ _ Hnav) as [Hidx Hres]. rewrite Hres.
        by destruct (result w2).
      - destruct (navigation_eq _ _ Hnav) as [Hidx Hres]. rewrite Hres.
        destruct (result w2) eqn:Hres2.
        + unfold navigation. by rewrite Hidx, Hres, Hres2.
        + by apply IH, handle_navigation. }
    apply Hrun. by rewrite !init_navigation.
  - pose proof (init_idx seed1) as Hidx.
    pose proof (init_result seed1) as Hres.
    assert (∀ w, result w = None → 0 ≤ current_idx w < 9 →
              0 ≤ current_idx (run script w) ≤ 9
              ∧ (result (run script w) = None → current_idx (run script w) < 9)
              ∧ (result (run script w) = Some Rejected → CloseWindow ∈ script))
      as Hrun.
    { induction script as [|ev script IH]; intros w Hopen Hw; simpl;
        rewrite Hopen.
      - split; [lia|]; split; [lia|congruence].
      - destruct (handle_bounds ev w Hopen Hw) as (Hb & Hopen' & Hclose).
        destruct (result (handle ev w)) as [code|] eqn:Hres'.
        + rewrite run_detail_closed by congruence. rewrite Hres'.
          split; [done|]. split; [done|]. intros [= ->].
          rewrite (Hclose eq_refl). by left.
        + destruct (IH (handle ev w)) as (? & ? & Hin);
            [done|by split; [lia|apply Hopen']|].
          split; [done|]. split; [done|]. intros Hrej. right. by apply Hin. }
    apply Hrun; [done|lia].
Qed.

(** Each response is the seeded one or one of the two items. *)
Lemma responses_seed_or_item script w c :
  currentText (answer_combo w) ∈ combo_items →
  responses (run script w) !! c = responses w !! c
  ∨ ∃ text, responses (run script w) !! c = Some text ∧ text ∈ combo_items.
Proof.
  intros Hcombo.
  apply (detail_run_inv
           (λ w', currentText (answer_combo w') ∈ combo_items
                  ∧ (responses w' !! c = responses w !! c
                     ∨ ∃ text, responses w' !! c = Some text
                               ∧ text ∈ combo_items))); [|by split; [|left]].
  intros ev w' _ [Hc Hseed]. split.
  - destruct ev; simpl.
    + by apply setCurrentText_items.
    + unfold next_question. case_decide; simpl.
      * by rewrite record_answer_combo.
      * apply load_current_question_combo. simpl. by rewrite record_answer_combo.
    + by rewrite record_answer_combo.
    + done.
  - destruct (handle_responses ev w') as [->| ->]; [done|].
    destruct (record_answer_lookup w' c) as [->|[_ ->]]; [done|].
    right. eauto.
Qed.

End detail_more.

(** ** The overview window *)

Section overview_more.
Import Overview.

Lemma apply_responses_spec final (cs : gmap string combo) :
  (∀ col, col ∈ ERROR_COLUMNS → is_Some (final !! col)) →
  (∀ col, col ∈ ERROR_COLUMNS → is_Some (cs !! col)) →
  ∃ cs', apply_responses final cs = Ok cs'
         ∧ ∀ col, col ∈ ERROR_COLUMNS →
             cs' !! col
             = setCurrentText (default "" (final !! col)) <$> cs !! col.
Proof.
  intros Hfinal Hcs.
  destruct (for_each_on_combo
              (λ col, setCurrentText (default "" (final !! col)))
              ERROR_COLUMNS cs) as (cs' & Hrun & Hin & _);
    [apply NoDup_ERROR_COLUMNS|done|].
  exists cs'. split; [|done].
  unfold apply_responses. erewrite for_each_ext; [exact Hrun|].
  intros cs0 col Hcol. by destruct (Hfinal col Hcol) as [text ->].
Qed.

Lemma setCurrentText_currentText text c :
  text = currentText c ∨ text ∈ combo_items →
  currentText (setCurrentText text c) = text.
Proof.
  intros Htext. unfold setCurrentText. case_decide; [done|].
  by destruct Htext.
Qed.

Lemma current_answers_inv w seed :
  current_answers w = Ok seed →
  ∀ col, col ∈ ERROR_COLUMNS →
    ∃ c, error_combos w !! col = Some c ∧ seed !! col = Some (currentText c).
Proof.
  unfold current_answers. intros Hrun.
  rewrite (for_each_ext _
             (λ d col, x ← (c ← combo_of (error_combos w) col;
                            Ok (currentText c));
                       Ok (<[col := x]> d))) in Hrun.
  2:{ intros d col _. unfold combo_of. by destruct (error_combos w !! col). }
  apply (for_each_store_inv id _ _) in Hrun as [Hin _].
  intros col Hcol. destruct (Hin col Hcol) as (x & Hx & Hseed).
  unfold combo_of in Hx. destruct (error_combos w !! col) as [c|]; [|done].
  injection Hx as <-. by exists c.
Qed.

(** X3.  When the drill-down dialog opened on the current row is
    accepted, [open_detailed_classification] returns with rows and cursor
    as they were and with every working answer equal to the response the
    dialog returned for its category.  Only the current row is read. *)
Theorem drilldown_accepted_applies script w r seed :
  in_range (csv_data w) (current_index w) = Some r →
  is_correct r = Ok false →
  current_answers w = Ok seed →
  Detail.result (Detail.exec_ script (Detail.init (Some seed)))
  = Some Accepted →
  ∃ w', open_detailed_classification script w = Ok w'
        ∧ csv_data w' = csv_data w ∧ current_index w' = current_index w
        ∧ ∀ col, col ∈ ERROR_COLUMNS →
            Detail.get_responses
              (Detail.exec_ script (Detail.init (Some seed))) !! col
            = Some (working_answer w' col).
Proof.
  intros Hr Hcorrect Hseed Haccepted.
  pose proof (current_answers_inv w seed Hseed) as Hcombos.
  assert (∀ col, col ∈ ERROR_COLUMNS → is_Some (error_combos w !! col)) as Hcs.
  { intros col Hcol. destruct (Hcombos col Hcol) as (c & -> & _). done. }
  assert (∀ col, col ∈ ERROR_COLUMNS →
            seed !! col = Some (working_answer w col)) as Hanswers.
  { intros col Hcol. destruct (Hcombos col Hcol) as (c & Hc & ->).
    unfold working_answer. by rewrite Hc. }
  set (final := Detail.get_responses
                  (Detail.exec_ script (Detail.init (Some seed)))).
  destruct (apply_responses_spec final (error_combos w))
    as (cs' & Happly & Hcs'); [|done|].
  { intros col Hcol. apply detail_exec_keeps_keys. by rewrite Hanswers. }
  unfold open_detailed_classification. rewrite Hr, Hcorrect. simpl.
  rewrite Hseed. simpl. rewrite decide_True by done.
  change (Detail.responses (Detail.run script (Detail.init (Some seed))))
    with final.
  rewrite Happly. simpl. eexists. split_and!; [done..|].
  intros col Hcol. unfold working_answer. simpl. rewrite Hcs' by done.
  destruct (Hcs col Hcol) as [c Hc]. rewrite Hc. simpl.
  assert (final !! col = Some (currentText c)
          ∨ ∃ text, final !! col = Some text ∧ text ∈ combo_items) as Hfinal.
  { unfold final, Detail.get_responses, Detail.exec_. simpl.
    destruct (responses_seed_or_item script (Detail.init (Some seed)) col)
      as [->|?]; [apply init_answered| |by right].
    left. unfold Detail.init. rewrite load_current_question_responses. simpl.
    rewrite Hanswers by done. unfold working_answer. by rewrite Hc. }
  destruct Hfinal as [->|(text & -> & Htext)]; simpl;
    by rewrite setCurrentText_currentText by auto.
Qed.

Lemma on_combo_items f (cs cs' : gmap string combo) col :
  (∀ c, currentText c ∈ combo_items → currentText (f c) ∈ combo_items) →
  on_combo f cs col = Ok cs' →
  (∀ col c, cs !! col = Some c → currentText c ∈ combo_items) →
  ∀ col c, cs' !! col = Some c → currentText c ∈ combo_items.
Proof.
  intros Hf Hon Hcs. unfold on_combo, combo_of in Hon.
  destruct (cs !! col) as [c0|] eqn:Hc0; [|done]. injection Hon as <-.
  intros col' c. rewrite lookup_insert. case_decide.
  - intros [= <-]. by eapply Hf, Hcs.
  - apply Hcs.
Qed.

Lemma load_row_into_ui_items index w w' :
  load_row_into_ui index w = Ok w' → items_shown w → items_shown w'.
Proof.
  unfold load_row_into_ui. intros Hload Hitems.
  destruct (in_range (csv_data w) index); [|by injection Hload as <-].
  bind_inv Hload. destruct a2; bind_inv Hload; injection Hload as <-.
  - unfold items_shown. simpl.
    eapply (for_each_inv
              (λ cs, ∀ col c, cs !! col = Some c → currentText c ∈ combo_items));
      [|exact Hitems|exact Ha3].
    intros cs col cs1 _ Hcs Hon. eapply on_combo_items; [|exact Hon|exact Hcs].
    intros c Hc. simpl. unfold combo_items. set_solver.
  - unfold items_shown. simpl.
    eapply (for_each_inv
              (λ cs, ∀ col c, cs !! col = Some c → currentText c ∈ combo_items));
      [|exact Hitems|exact Ha3].
    intros cs col cs1 _ Hcs Hon. eapply on_combo_items; [|exact Hon|exact Hcs].
    intros c Hc. by apply setCurrentText_items.
Qed.

Lemma open_detailed_classification_items script w w' :
  open_detailed_classification script w = Ok w' →
  items_shown w → items_shown w'.
Proof.
  unfold open_detailed_classification. intros Hopen Hitems.
  destruct (in_range (csv_data w) (current_index w));
    [|by injection Hopen as <-].
  bind_inv Hopen. destruct a; [by injection Hopen as <-|].
  bind_inv Hopen. case_decide; [bind_inv Hopen|]; injection Hopen as <-;
    [|done].
  unfold items_shown. simpl. unfold apply_responses in Ha1.
  eapply (for_each_inv
            (λ cs, ∀ col c, cs !! col = Some c → currentText c ∈ combo_items));
    [|exact Hitems|exact Ha1].
  intros cs col cs1 _ Hcs Hon. cbv beta in Hon.
  destruct (Detail.get_responses _ !! col) as [text|]; [|done].
  eapply on_combo_items; [|exact Hon|exact Hcs].
  intros c Hc. by apply setCurrentText_items.
Qed.

Lemma handle_items ev w w' :
  handle ev w = Ok w' → items_shown w → items_shown w'.
Proof.
  destruct ev as [col text|script| | | |]; simpl; intros Hev Hitems.
  - destruct (error_combos w !! col) as [c|] eqn:Hc;
      [destruct (isEnabled c)|]; injection Hev as <-; [|done..].
    intros col' c'. simpl. rewrite lookup_insert. case_decide; [|apply Hitems].
    intros [= <-]. apply setCurrentText_items. by eapply Hitems.
  - destruct (detail_btn w); [|by injection Hev as <-].
    by eapply open_detailed_classification_items.
  - unfold save_and_previous_row in Hev. bind_inv Hev.
    apply save_current_row_combos in Ha as [Hcs _].
    assert (items_shown a) as Hitems' by (unfold items_shown; by rewrite Hcs).
    case_decide; [|by injection Hev as <-].
    by eapply load_row_into_ui_items.
  - unfold save_and_next_row in Hev. bind_inv Hev.
    apply save_current_row_combos in Ha as [Hcs _].
    assert (items_shown a) as Hitems' by (unfold items_shown; by rewrite Hcs).
    case_decide; [|by injection Hev as <-].
    by eapply load_row_into_ui_items.
  - unfold finish_all in Hev. bind_inv Hev.
    apply save_current_row_combos in Ha as [Hcs _]. injection Hev as <-.
    unfold items_shown. simpl. by rewrite Hcs.
  - by injection Hev as <-.
Qed.

Lemma run_items events w w' :
  run events w = Ok w' → items_shown w → items_shown w'.
Proof.
  revert w. induction events as [|ev events IH]; intros w Hrun Hitems;
    simpl in Hrun.
  - by destruct (result w); injection Hrun as <-.
  - destruct (result w); [by injection Hrun as <-|].
    bind_inv Hrun. eapply IH; [done|]. by eapply handle_items.
Qed.

Lemma init_items data row_number w :
  init data row_number = Ok w → items_shown w.
Proof.
  unfold init. intros Hinit. eapply load_row_into_ui_items; [done|].
  intros col c Hc. simpl in Hc.
  apply elem_of_list_to_map_2 in Hc.
  apply list_elem_of_fmap in Hc as (col' & [= _ ->] & _). simpl. set_solver.
Qed.

Lemma reachable_items data w : reachable data w → items_shown w.
Proof.
  intros (row_number & events & w0 & Hinit & Hrun).
  eapply run_items; [done|]. by eapply init_items.
Qed.

(** X4.  In every state the user can reach each combo shows "Yes" or
    "No" and the commit returns, so it leaves the committed row with one
    of the two tokens in each of its nine categories, whatever was stored
    there before. *)
Theorem commit_writes_tokens data w :
  reachable data w →
  ∃ w1, save_current_row w = Ok w1
    ∧ ∀ r1 col,
        in_range (csv_data w1) (current_index w1) = Some r1 →
        col ∈ ERROR_COLUMNS →
        r1 !! Some col = Some (VStr "Yes") ∨ r1 !! Some col = Some (VStr "No").
Proof.
  intros Hreach.
  pose proof (reachable_items data w Hreach) as Hitems.
  destruct (reachable_inv data w Hreach) as (Hcommit & _).
  destruct (save_current_row_returns w Hcommit) as (w1 & Hsave & _).
  exists w1. split; [done|]. intros r1 col Hr1 Hcol.
  unfold save_current_row in Hsave.
  destruct (in_range (csv_data w) (current_index w)) as [r|] eqn:Hr.
  - bind_inv Hsave. injection Hsave as <-. simpl in Hr1.
    apply in_range_Some in Hr as [Hpos Hr].
    apply in_range_Some in Hr1 as [_ Hr1].
    rewrite list_lookup_insert_eq in Hr1 by by eapply lookup_lt_Some.
    injection Hr1 as <-.
    rewrite commit_as_store in Ha0.
    apply (for_each_store_inv Some _ _) in Ha0 as [Hin _].
    destruct (Hin col Hcol) as (x & Hx & ->). destruct a.
    + injection Hx as <-. by right.
    + unfold combo_of in Hx.
      destruct (error_combos w !! col) as [c|] eqn:Hc; [|done].
      injection Hx as <-. apply Hitems in Hc. unfold combo_items in Hc.
      rewrite !elem_of_cons in Hc.
      destruct Hc as [->|[->|Hc]]; [by right|by left|by inv Hc].
  - injection Hsave as <-. congruence.
Qed.

End overview_more.

Section cursor_more.
Import Overview.

Lemma handle_in_bounds ev w w' :
  handle ev w = Ok w' → in_bounds w → in_bounds w'.
Proof.
  intros Hev Hw. pose proof (handle_frame ev w w' Hev) as [Hlen _].
  unfold in_bounds in *. rewrite Hlen.
  destruct ev as [col text|script| | | |]; simpl in Hev.
  - by destruct (error_combos w !! col) as [c|]; [destruct (isEnabled c)|];
      injection Hev as <-.
  - destruct (detail_btn w); [|by injection Hev as <-].
    by rewrite (open_detailed_classification_index _ _ _ Hev).
  - unfold save_and_previous_row in Hev. bind_inv Hev.
    pose proof (save_current_row_combos _ _ Ha) as [_ Hidx].
    case_decide as Hfirst; [|injection Hev as <-; simpl; lia].
    apply load_row_into_ui_index in Hev. rewrite Hev. simpl.
    destruct (in_range _ _); lia.
  - unfold save_and_next_row in Hev. bind_inv Hev.
    pose proof (save_current_row_combos _ _ Ha) as [_ Hidx].
    apply save_current_row_inv in Ha as (_ & Hlen1 & _).
    case_decide as Hlast; [|injection Hev as <-; simpl; lia].
    apply load_row_into_ui_index in Hev. rewrite Hev. simpl.
    destruct (in_range _ _); lia.
  - unfold finish_all in Hev. bind_inv Hev.
    pose proof (save_current_row_combos _ _ Ha) as [_ Hidx].
    injection Hev as <-. simpl. lia.
  - by injection Hev as <-.
Qed.

(** X5.  Opened on one of the rows, the cursor stays on a row of the
    store through any events that return: its index is never negative and
    always below the number of rows, which never changes.  The window
    opens and the events return whenever every row can be shown. *)
Theorem cursor_in_bounds data row_number events :
  0 < row_number ≤ Z.of_nat (length data) →
  (∀ w0 w, init data row_number = Ok w0 → run events w0 = Ok w →
     0 ≤ current_index w < Z.of_nat (length data)
     ∧ length (csv_data w) = length data)
  ∧ (Forall displayable data →
     ∃ w0 w, init data row_number = Ok w0 ∧ run events w0 = Ok w).
Proof.
  intros Hrow. split.
  - intros w0 w Hinit Hrun.
    assert (csv_data w0 = data ∧ current_index w0 = row_number - 1)
      as [Hdata Hidx].
    { unfold init in Hinit. split.
      - by apply load_row_into_ui_data in Hinit.
      - apply load_row_into_ui_index in Hinit. rewrite Hinit. simpl.
        by destruct (in_range _ _). }
    assert (∀ events w0 w, run events w0 = Ok w → in_bounds w0 → in_bounds w)
      as Hbounds.
    { clear. induction events as [|ev events IH]; intros w0 w Hrun Hw0;
        simpl in Hrun.
      - by destruct (result w0); injection Hrun as <-.
      - destruct (result w0); [by injection Hrun as <-|].
        bind_inv Hrun. eapply IH; [done|]. by eapply handle_in_bounds. }
    pose proof (run_frame _ _ _ Hrun) as [Hlen _]. rewrite Hdata in Hlen.
    split; [|done]. rewrite <-Hlen.
    apply (Hbounds events w0 w Hrun). unfold in_bounds.
    rewrite Hdata, Hidx. lia.
  - intros Hrows.
    destruct (init_returns data row_number Hrows) as (w0 & Hinit & Hready).
    destruct (run_returns events w0 Hready) as (w & Hrun).
    by exists w0, w.
Qed.

Lemma yes_or_no_item_id text : text ∈ combo_items → yes_or_no (VStr text) = text.
Proof.
  unfold combo_items. intros Htext. simpl. rewrite decide_True; [done|].
  set_solver.
Qed.

(** X6.  Going to the next row and back shows the row as it was left: the
    cursor is on the same row again and its working answers are the ones
    it had, or "No" throughout when the row is locked.  Only the current
    row and the next one are read: both have to be rows the window can
    show. *)
Theorem next_then_previous w r r2 b :
  combos_exist w → items_shown w →
  in_range (csv_data w) (current_index w) = Some r →
  in_range (csv_data w) (current_index w + 1) = Some r2 →
  displayable r → displayable r2 →
  is_correct r = Ok b →
  ∃ w1 w2,
    save_and_next_row w = Ok w1 ∧ save_and_previous_row w1 = Ok w2
    ∧ current_index w1 = current_index w + 1
    ∧ current_index w2 = current_index w
    ∧ ∀ col, col ∈ ERROR_COLUMNS →
        working_answer w2 col = if b then "No" else working_answer w col.
Proof.
  intros Hcs Hitems Hr Hr2 Hshow Hshow2 Hb.
  pose proof Hr as [Hpos Hr']%in_range_Some.
  pose proof Hr2 as [_ Hr2']%in_range_Some.
  assert (current_index w + 1 < Z.of_nat (length (csv_data w))) as Hnext.
  { apply lookup_lt_Some in Hr2'. lia. }
  destruct (displayable_is_correct r2 Hshow2) as [b2 Hb2].
  (* the commit of the row left *)
  destruct (save_current_row_spec w r b Hcs Hr Hb)
    as (r' & Hsave & Hsame & Hcats).
  set (wa := set_csv_data (<[Z.to_nat (current_index w) := r']>) w) in *.
  assert (in_range (csv_data wa) (current_index w + 1) = Some r2) as Hr2a.
  { apply in_range_Some. split; [lia|]. simpl.
    rewrite list_lookup_insert_ne by lia. done. }
  (* the next row is shown *)
  destruct (load_row_into_ui_spec (current_index w + 1)
              (set_current_index (current_index w + 1) wa) r2 b2)
    as (w1 & Hload1 & Hdata1 & Hidx1 & _ & _ & _ & Hshown1); [done..|].
  assert (combos_exist w1) as Hcs1.
  { apply Forall_forall. intros col Hcol. by rewrite Hshown1. }
  assert (in_range (csv_data w1) (current_index w1) = Some r2) as Hr2b
    by (by rewrite Hdata1, Hidx1).
  (* its commit *)
  destruct (save_current_row_spec w1 r2 b2 Hcs1 Hr2b Hb2)
    as (r2' & Hsaveb & _ & _).
  set (wb := set_csv_data (<[Z.to_nat (current_index w1) := r2']>) w1) in *.
  assert (in_range (csv_data wb) (current_index w) = Some r') as Hrb.
  { apply in_range_Some. split; [done|]. simpl. rewrite Hdata1, Hidx1.
    rewrite list_lookup_insert_ne by lia. simpl.
    apply list_lookup_insert_eq. by eapply lookup_lt_Some. }
  (* the row left is shown again *)
  destruct (load_row_into_ui_spec (current_index w)
              (set_current_index (current_index w) wb) r' b)
    as (w2 & Hload2 & _ & Hidx2 & _ & _ & _ & Hshown); [done|done| | |].
  { by eapply displayable_same. }
  { by rewrite (is_correct_same r r'). }
  exists w1, w2. split_and!.
  - unfold save_and_next_row. rewrite Hsave. simpl.
    rewrite length_insert. by rewrite decide_True by lia.
  - unfold save_and_previous_row. rewrite Hsaveb. simpl.
    rewrite decide_True by lia.
    replace (current_index w1 - 1) with (current_index w) by lia. done.
  - done.
  - done.
  - intros col Hcol. unfold working_answer at 1. rewrite Hshown by done.
    simpl. unfold shown. destruct b; [done|]. simpl.
    rewrite Hcats by done. simpl. apply yes_or_no_item_id.
    unfold combos_exist in Hcs. rewrite Forall_forall in Hcs.
    destruct (Hcs col Hcol) as [c Hc]. unfold working_answer. rewrite Hc.
    simpl. by eapply Hitems.
Qed.

End cursor_more.

(** ** The record store and the table *)

Section store_more.
Import Main.

Lemma add_columns_closed (cols hs : list string) :
  NoDup cols →
  foldl (λ hs col, if decide (col ∈ hs) then hs else hs ++ [col]) hs cols
  = hs ++ filter (λ c, c ∉ hs) cols.
Proof.
  intros Hnd. revert hs.
  induction Hnd as [|col cols Hcol Hnd IH]; intros hs; simpl.
  - by rewrite app_nil_r.
  - rewrite IH. case_decide as Hin.
    + by rewrite filter_cons_False by auto.
    + rewrite filter_cons_True by done. rewrite <-app_assoc. simpl.
      do 2 f_equal. clear IH Hnd.
      induction cols as [|c cols IH]; [done|].
      apply not_elem_of_cons in Hcol as [Hne Hcol].
      rewrite !filter_cons, IH by done.
      destruct (decide (c ∉ hs ++ [col])) as [Hc|Hc];
        destruct (decide (c ∉ hs)) as [Hc'|Hc']; set_solver.
Qed.

(** X9.  Augmenting a header keeps its columns in their order and appends
    the categories it lacks, each once and in the order of the taxonomy;
    augmenting again changes nothing, as [save_csv] relies on. *)
Theorem add_error_columns_closed_form hs :
  add_error_columns hs = hs ++ filter (λ c, c ∉ hs) ERROR_COLUMNS
  ∧ add_error_columns (add_error_columns hs) = add_error_columns hs.
Proof.
  split; [|apply add_error_columns_idemp].
  apply add_columns_closed, NoDup_ERROR_COLUMNS.
Qed.

Lemma fold_insert_const {K V A} `{Countable K} (kf : A → K) (v : V)
    (d : gmap K V) l k :
  k ∈ kf <$> l → foldl (λ d x, <[kf x := v]> d) d l !! k = Some v.
Proof.
  revert d. induction l as [|x l IH]; intros d Hk; [by inv Hk|].
  simpl in *. destruct (decide (k ∈ kf <$> l)) as [Hin|Hnot]; [by apply IH|].
  rewrite fold_insert_other by done.
  assert (k = kf x) as -> by set_solver. apply lookup_insert_eq.
Qed.

(** X7.  A category column that the file lacks is read as [None] in
    every row whose record is not longer than the header of the file: the
    reader fills the columns appended to its field names with its
    [restval], so the default "No" of [load_csv] is not what the row
    holds. *)
Theorem absent_category_is_None fieldnames records data headers
    (i : nat) record r c :
  read_csv (Records (fieldnames :: records)) = Loaded data headers →
  c ∈ ERROR_COLUMNS → c ∉ fieldnames →
  filter (λ r, r ≠ []) records !! i = Some record →
  (length record ≤ length fieldnames)%nat →
  data !! i = Some r →
  r !! Some c = Some VNone.
Proof.
  intros Hload Hc Hnot Hrecord Hlen Hr.
  rewrite read_csv_Records in Hload. cbv zeta in Hload.
  case_decide; [done|].
  pose proof (f_equal (λ o, match o with Loaded d _ => d | _ => [] end) Hload)
    as Hdata.
  cbv beta iota in Hdata. subst data. clear Hload.
  unfold Csv.read_all in Hr. rewrite list_lookup_fmap, Hrecord in Hr.
  injection Hr as <-.
  destruct (add_error_columns_prefix fieldnames) as [extra Hextra].
  assert (c ∈ extra) as Hin.
  { assert (c ∈ add_error_columns fieldnames) as Hall
      by (apply elem_of_add_error_columns; by right).
    rewrite Hextra in Hall. set_solver. }
  assert (c ∈ drop (length record) (add_error_columns fieldnames)) as Hdrop.
  { rewrite Hextra. rewrite drop_app_le by done. set_solver. }
  unfold Csv.to_dict.
  assert (length record < length (add_error_columns fieldnames))%nat as Hlt.
  { rewrite Hextra, length_app. destruct extra; [by inv Hin|simpl; lia]. }
  rewrite decide_False by lia. rewrite decide_True by done.
  apply (fold_insert_const Some). by apply list_elem_of_fmap_2.
Qed.

Lemma fill_error_columns_other (r : row) k :
  k ∉ (Some <$> ERROR_COLUMNS) → fill_error_columns r !! k = r !! k.
Proof.
  unfold fill_error_columns. generalize ERROR_COLUMNS. intros cols. revert r.
  induction cols as [|col cols IH]; intros r Hk; [done|]. simpl.
  rewrite IH by set_solver.
  destruct (r !! Some col); [done|]. apply lookup_insert_ne. set_solver.
Qed.

Lemma fill_error_columns_keeps (r : row) k :
  is_Some (r !! k) → fill_error_columns r !! k = r !! k.
Proof.
  unfold fill_error_columns. generalize ERROR_COLUMNS. intros cols. revert r.
  induction cols as [|col cols IH]; intros r Hk; [done|]. simpl.
  destruct (r !! Some col) eqn:Hcol; [by apply IH|].
  rewrite IH.
  - apply lookup_insert_ne. intros <-. rewrite Hcol in Hk. by destruct Hk.
  - rewrite lookup_insert_is_Some'. by right.
Qed.

(** The loop of [save_csv] on rows that the writer accepts, and on rows
    up to one that it refuses. *)
Lemma write_rows_ok headers data :
  Forall (λ r, dom (fill_error_columns r) ∖ list_to_set (Some <$> headers)
               = (∅ : gset (option string))) data →
  write_rows headers data
  = (fill_error_columns <$> data,
     (λ r : row, (λ key, default (VStr "") (fill_error_columns r !! Some key))
                   <$> headers) <$> data,
     None).
Proof.
  induction 1 as [|r data Hdom _ IH]; simpl; [done|].
  unfold Csv.dict_to_list. rewrite decide_True by done. by rewrite IH.
Qed.

Lemma write_rows_stop headers pre r post :
  Forall (λ r, dom (fill_error_columns r) ∖ list_to_set (Some <$> headers)
               = (∅ : gset (option string))) pre →
  dom (fill_error_columns r) ∖ list_to_set (Some <$> headers)
  ≠ (∅ : gset (option string)) →
  write_rows headers (pre ++ r :: post)
  = ((fill_error_columns <$> pre) ++ fill_error_columns r :: post,
     (λ r : row, (λ key, default (VStr "") (fill_error_columns r !! Some key))
                   <$> headers) <$> pre,
     Some ValueError).
Proof.
  intros Hpre Hr. induction Hpre as [|r0 pre Hdom _ IH]; simpl.
  - unfold Csv.dict_to_list. by rewrite decide_False.
  - unfold Csv.dict_to_list at 1. rewrite decide_True by done. by rewrite IH.
Qed.

Lemma to_dict_fill_dom fieldnames record :
  (length record ≤ length (add_error_columns fieldnames))%nat →
  dom (fill_error_columns (Csv.to_dict (add_error_columns fieldnames) record))
      ∖ list_to_set (Some <$> add_error_columns fieldnames)
  = (∅ : gset (option string)).
Proof.
  intros Hlen. rewrite fill_error_columns_to_dict. by apply to_dict_dom.
Qed.

Lemma load_csv_Loaded file_path fieldnames records w :
  file_path ≠ "" →
  (∀ c, c ∈ ["question"; "true_answer"; "predicted_answer_full"; "is_correct"]
        → c ∈ fieldnames) →
  load_csv file_path (Records (fieldnames :: records)) w
  = Window (Some (Model (Csv.read_all (add_error_columns fieldnames) records)
                        (add_error_columns fieldnames)))
           (Some file_path) true true (notices w).
Proof.
  intros Hpath Hfixed.
  assert (filter (λ c, c ∉ add_error_columns fieldnames) REQUIRED_COLUMNS = [])
    as Hmissing.
  { apply elem_of_nil_inv. intros c [Hnot Hc]%list_elem_of_filter. apply Hnot.
    apply elem_of_add_error_columns.
    apply elem_of_REQUIRED_COLUMNS in Hc as [?|?]; [left; by apply Hfixed|by right]. }
  unfold load_csv. rewrite decide_False by done. rewrite read_csv_Records.
  cbv zeta. rewrite Hmissing. by rewrite decide_False by (by intros ?).
Qed.

(** X8.  A record with more fields than the field set makes the save
    fail at that record: the header and the records of the rows before it
    are written, each with the fields of its row in the order of the field
    set, the rest is not, and the error box is shown with the
    [ValueError] of the writer. *)
Theorem save_fails_on_long_record file_path fieldnames records w pre long post :
  file_path ≠ "" →
  (∀ c, c ∈ ["question"; "true_answer"; "predicted_answer_full"; "is_correct"]
        → c ∈ fieldnames) →
  filter (λ r, r ≠ []) records = pre ++ long :: post →
  Forall (λ record, (length record ≤ length (add_error_columns fieldnames))%nat)
         pre →
  (length (add_error_columns fieldnames) < length long)%nat →
  ∃ w',
    save_csv (load_csv file_path (Records (fieldnames :: records)) w)
    = (w',
       (VStr <$> add_error_columns fieldnames)
       :: ((λ record,
              (λ key, default (VStr "")
                        (Csv.to_dict (add_error_columns fieldnames) record
                         !! Some key))
                <$> add_error_columns fieldnames) <$> pre))
    ∧ notices w'
      = notices w ++ [Critical "Error" "Failed to save CSV:" ValueError].
Proof.
  intros Hpath Hfixed Hsplit Hpre Hlong.
  rewrite load_csv_Loaded by done.
  unfold save_csv. cbn [model csv_file_path _data _headers].
  rewrite decide_False by done. rewrite add_error_columns_idemp.
  unfold Csv.read_all. rewrite Hsplit, fmap_app, fmap_cons.
  rewrite write_rows_stop.
  - eexists. split.
    { apply (f_equal2 pair); [reflexivity|]. f_equal.
      rewrite <-list_fmap_compose. apply list_fmap_ext. intros _ record _.
      simpl. by rewrite fill_error_columns_to_dict. }
    done.
  - apply Forall_fmap. eapply Forall_impl; [exact Hpre|].
    intros record Hlen. by apply to_dict_fill_dom.
  - intros Hempty.
    assert (None ∈ dom (fill_error_columns
                          (Csv.to_dict (add_error_columns fieldnames) long)))
      as Hnone.
    { apply elem_of_dom. rewrite fill_error_columns_to_dict.
      unfold Csv.to_dict. rewrite decide_True by done.
      by rewrite lookup_insert_eq. }
    assert (None ∈ (∅ : gset (option string))) as Hin; [|set_solver].
    rewrite <-Hempty. apply elem_of_difference. split; [done|].
    rewrite elem_of_list_to_set. by intros (? & [=] & _)%list_elem_of_fmap.
Qed.

End store_more.

(** ** The main window around the overview window *)

Section annotate_more.
Import Main.

Lemma overview_init_data data row_number w :
  Overview.init data row_number = Ok w → Overview.csv_data w = data.
Proof. unfold Overview.init. by intros ->%load_row_into_ui_data. Qed.

Lemma annotate_rows_Some events w m w' :
  model w = Some m → _data m ≠ [] →
  annotate_rows events w = Ok w' →
  ∃ dialog,
    rows_frame (_data m) (Overview.csv_data dialog)
    ∧ w' = Window (Some (Model (Overview.csv_data dialog) (_headers m)))
                  (csv_file_path w) (annotate_btn w) (save_btn w)
                  (notices w ++ Overview.notices dialog).
Proof.
  intros Hm Hdata. unfold annotate_rows. rewrite Hm.
  rewrite decide_False by done. intros Hrun.
  destruct (Overview.init (_data m) 1) as [w0|] eqn:Hinit; [|done].
  simpl in Hrun. unfold Overview.exec_ in Hrun.
  destruct (Overview.run events w0) as [w1|] eqn:Hw1; [|done].
  simpl in Hrun. injection Hrun as <-.
  exists (Overview.close w1). split; [|done]. simpl.
  rewrite <-(overview_init_data _ _ _ Hinit). by eapply run_frame.
Qed.

Lemma annotate_rows_model events w w' m :
  model w = Some m → annotate_rows events w = Ok w' →
  csv_file_path w' = csv_file_path w
  ∧ ∃ m', model w' = Some m' ∧ _headers m' = _headers m
          ∧ rows_frame (_data m) (_data m').
Proof.
  intros Hm Hrun. destruct (decide (_data m = [])) as [Hnil|Hdata].
  - unfold annotate_rows in Hrun. rewrite Hm, decide_True in Hrun by done.
    injection Hrun as <-. simpl. split; [done|].
    exists m. split_and!; [done..|apply rows_frame_refl].
  - destruct (annotate_rows_Some _ _ _ _ Hm Hdata Hrun)
      as (dialog & Hframe & ->).
    simpl. split; [done|]. by eexists.
Qed.

Lemma annotate_rows_returns events w :
  (∀ m, model w = Some m → Forall displayable (_data m)) →
  ∃ w', annotate_rows events w = Ok w'.
Proof.
  intros Hrows. unfold annotate_rows.
  destruct (model w) as [m|]; [|by eexists].
  case_decide; [by eexists|].
  destruct (init_returns (_data m) 1 (Hrows m eq_refl))
    as (w0 & -> & Hready).
  simpl. unfold Overview.exec_.
  destruct (run_returns events w0 Hready) as (w1 & ->).
  by eexists.
Qed.

(** X10.  Whatever the user does in the overview window, when
    [annotate_rows] returns it has left the file path, the buttons and the
    header of the model as they were, and of the rows their number, their
    order and every field that is not a category; it has only added
    notices.  Without a model it does nothing, and on a model without rows
    it only shows the notice.  It returns whenever every row of the model
    can be shown; a handler that raises, on a row without a string under
    [is_correct], ends the program. *)
Theorem annotate_rows_frame events w :
  (∀ w', annotate_rows events w = Ok w' →
     csv_file_path w' = csv_file_path w
     ∧ annotate_btn w' = annotate_btn w
     ∧ save_btn w' = save_btn w
     ∧ (∃ n, notices w' = notices w ++ n)
     ∧ match model w with
       | None => w' = w
       | Some m =>
           (_data m = [] →
            w' = show [Information "No Data" "No rows to annotate."] w)
           ∧ ∃ m', model w' = Some m'
                   ∧ _headers m' = _headers m
                   ∧ rows_frame (_data m) (_data m')
       end)
  ∧ ((∀ m, model w = Some m → Forall displayable (_data m)) →
     ∃ w', annotate_rows events w = Ok w').
Proof.
  split; [|apply annotate_rows_returns].
  intros w' Hrun. destruct (model w) as [m|] eqn:Hm.
  - destruct (decide (_data m = [])) as [Hnil|Hdata].
    + unfold annotate_rows in Hrun. rewrite Hm, decide_True in Hrun by done.
      injection Hrun as <-. simpl. split_and!; try done; [by eexists|].
      exists m. split_and!; [done..|apply rows_frame_refl].
    + destruct (annotate_rows_Some _ _ _ _ Hm Hdata Hrun)
        as (dialog & Hframe & ->).
      simpl. split_and!; try done; [by eexists|]. by eexists.
  - unfold annotate_rows in Hrun. rewrite Hm in Hrun. injection Hrun as <-.
    split_and!; try done. exists []. by rewrite app_nil_r.
Qed.

Lemma write_rows_length headers data rows out e :
  write_rows headers data = (rows, out, e) → e = None →
  length out = length data.
Proof.
  revert rows out. induction data as [|r data IH]; intros rows out; simpl.
  - by intros [= <- <- <-].
  - destruct (Csv.dict_to_list headers (fill_error_columns r)); [|congruence].
    destruct (write_rows headers data) as [[rows' out'] e'].
    intros [= <- <- <-] ->. simpl. f_equal. by eapply IH.
Qed.

(** A record that reaches the last column of the header of the file gives
    a row that the overview window can show. *)
Lemma loaded_displayable fieldnames record :
  NoDup fieldnames → "is_correct" ∈ fieldnames →
  (length fieldnames ≤ length record)%nat →
  displayable (Csv.to_dict (add_error_columns fieldnames) record).
Proof.
  intros Hnd Hin Hlen. split.
  - apply Forall_forall. intros key _. apply to_dict_plain.
  - apply list_elem_of_lookup in Hin as [j Hj].
    assert (j < length record)%nat as Hlt
      by (apply lookup_lt_Some in Hj; lia).
    apply lookup_lt_is_Some in Hlt as [text Htext].
    destruct (add_error_columns_prefix fieldnames) as [extra Hextra].
    rewrite (to_dict_lookup _ _ j "is_correct" text); [done| |..|done].
    + by apply add_error_columns_NoDup.
    + rewrite Hextra. by apply lookup_app_l_Some.
Qed.

(** X11.  A file whose header is without duplicates and whose records are
    not longer than the field set can always be saved after a session of
    annotation that returned: every record is written, the box "Saved" is
    shown last, and every field of a column that is not a category is
    written as it was read.  The session returns whenever no record ends
    before the last column of the header of the file. *)
Theorem annotate_then_save file_path fieldnames records w events :
  file_path ≠ "" → NoDup fieldnames →
  (∀ c, c ∈ ["question"; "true_answer"; "predicted_answer_full"; "is_correct"]
        → c ∈ fieldnames) →
  Forall (λ record, (length record ≤ length (add_error_columns fieldnames))%nat)
         records →
  (∀ w1,
     annotate_rows events
       (load_csv file_path (Records (fieldnames :: records)) w)
     = Ok w1 →
     ∃ w2 out,
       save_csv w1 = (w2, (VStr <$> add_error_columns fieldnames) :: out)
       ∧ last (notices w2)
         = Some (Information "Saved"
                   ("CSV saved to: results/annotated_" +:+ basename file_path))
       ∧ length out = length (filter (λ r, r ≠ []) records)
       ∧ ∀ (i j : nat) record c text,
           filter (λ r, r ≠ []) records !! i = Some record →
           add_error_columns fieldnames !! j = Some c → c ∉ ERROR_COLUMNS →
           record !! j = Some text →
           ∃ o, out !! i = Some o ∧ o !! j = Some (VStr text))
  ∧ (Forall (λ record, (length fieldnames ≤ length record)%nat)
            (filter (λ r, r ≠ []) records) →
     ∃ w1,
       annotate_rows events
         (load_csv file_path (Records (fieldnames :: records)) w)
       = Ok w1).
Proof.
  intros Hpath Hnd Hfixed Hlen.
  rewrite load_csv_Loaded by done. split.
  2:{ intros Hfull. apply annotate_rows_returns.
      cbn [model]. intros m [= <-]. cbn [_data].
      unfold Csv.read_all. apply Forall_fmap.
      eapply Forall_impl; [exact Hfull|].
      intros record Hrecord. cbn beta.
      apply loaded_displayable; [done| |done].
      apply Hfixed. set_solver. }
  intros w1 Hrun.
  eapply annotate_rows_model in Hrun as (Hp & Hmodel); [|reflexivity].
  cbn [model csv_file_path _data _headers] in Hp, Hmodel.
  destruct Hmodel as (m' & Hm' & Hheaders & Hlen' & Hrows).
  set (headers := add_error_columns fieldnames) in *.
  assert (NoDup headers) as Hnd' by by apply add_error_columns_NoDup.
  assert (Forall (λ r, dom (fill_error_columns r)
                       ∖ list_to_set (Some <$> headers)
                       = (∅ : gset (option string))) (_data m')) as Hdom.
  { apply Forall_lookup. intros i r' Hr'.
    assert (i < length (Csv.read_all headers records))%nat as Hi
      by (rewrite <-Hlen'; by eapply lookup_lt_Some).
    apply lookup_lt_is_Some in Hi as [r Hr].
    destruct (Hrows i r Hr) as (r'' & Hr'' & Hsame).
    assert (r'' = r') as -> by congruence.
    unfold Csv.read_all in Hr.
    apply list_lookup_fmap_Some in Hr as (record & -> & Hrecord).
    apply set_eq. intros k. split; [|set_solver].
    rewrite elem_of_difference, elem_of_dom, elem_of_list_to_set.
    intros [Hk Hnot]. exfalso. apply Hnot.
    destruct (decide (k ∈ (Some <$> ERROR_COLUMNS : list (option string))))
      as [(c & -> & Hc)%list_elem_of_fmap|Hother].
    - apply list_elem_of_fmap_2. apply elem_of_add_error_columns. by right.
    - rewrite fill_error_columns_other, Hsame in Hk by done.
      assert (length record ≤ length headers)%nat as Hshort.
      { rewrite Forall_forall in Hlen. apply Hlen.
        apply list_elem_of_lookup_2 in Hrecord.
        by apply list_elem_of_filter in Hrecord as [_ ?]. }
      pose proof (to_dict_dom headers record Hshort) as Hempty.
      apply dec_stable. intros Hnotin.
      assert (k ∈ (∅ : gset (option string))) as Hin; [|set_solver].
      rewrite <-Hempty. apply elem_of_difference. split.
      + by apply elem_of_dom.
      + by rewrite elem_of_list_to_set. }
  unfold save_csv. rewrite Hm', Hp. rewrite decide_False by done.
  rewrite Hheaders. fold headers.
  replace (add_error_columns headers) with headers
    by (symmetry; apply add_error_columns_idemp).
  rewrite write_rows_ok by done.
  eexists _, _. split; [reflexivity|].
  split; [unfold show; simpl; by rewrite last_snoc|].
  split.
  { rewrite length_fmap, Hlen'. unfold Csv.read_all. by rewrite length_fmap. }
  intros i j record c text Hrecord Hc Hcat Htext.
  assert (Csv.read_all headers records !! i
          = Some (Csv.to_dict headers record)) as Hr
    by (unfold Csv.read_all; by rewrite list_lookup_fmap, Hrecord).
  destruct (Hrows i _ Hr) as (r' & Hr' & Hsame).
  eexists. split; [by rewrite list_lookup_fmap, Hr'|].
  rewrite list_lookup_fmap, Hc. simpl. f_equal.
  assert (Some c ∉ (Some <$> ERROR_COLUMNS : list (option string))) as Hother
    by (by intros (? & [= <-] & ?)%list_elem_of_fmap).
  rewrite fill_error_columns_other, Hsame by done.
  by rewrite (to_dict_lookup headers record j c text).
Qed.

Lemma fill_columns_keys (cols : list string) (r : row) c :
  c ∈ cols ∨ is_Some (r !! Some c) →
  is_Some (foldl (λ r col, match r !! Some col with
                           | Some _ => r
                           | None => <[Some col := VStr "No"]> r
                           end) r cols !! Some c).
Proof.
  revert r. induction cols as [|col cols IH]; intros r Hc; simpl.
  - destruct Hc as [Hc|Hc]; [by inv Hc|done].
  - apply IH. destruct Hc as [[->|Hc]%elem_of_cons|Hc].
    + right. destruct (r !! Some col) eqn:Hcol; [by rewrite Hcol|].
      rewrite lookup_insert_is_Some'. by left.
    + by left.
    + right. destruct (r !! Some col); [done|].
      rewrite lookup_insert_is_Some'. by right.
Qed.

Lemma fill_error_columns_idemp (r : row) :
  fill_error_columns (fill_error_columns r) = fill_error_columns r.
Proof.
  apply fill_columns_id. intros c Hc. apply fill_columns_keys. by left.
Qed.

Lemma fill_rows_idemp (d : list row) :
  fill_error_columns <$> (fill_error_columns <$> d) = fill_error_columns <$> d.
Proof.
  induction d as [|r d IH]; [done|]. rewrite !fmap_cons.
  rewrite fill_error_columns_idemp. f_equal. exact IH.
Qed.

Lemma written_rows_idemp (headers : list string) (d : list row) :
  (λ r : row, (λ key, default (VStr "") (fill_error_columns r !! Some key))
                <$> headers) <$> (fill_error_columns <$> d)
  = (λ r : row, (λ key, default (VStr "") (r !! Some key)) <$> headers)
      <$> (fill_error_columns <$> d).
Proof.
  induction d as [|r d IH]; [done|]. rewrite !fmap_cons.
  rewrite fill_error_columns_idemp. f_equal. exact IH.
Qed.

Lemma write_rows_None headers data rows out :
  write_rows headers data = (rows, out, None) →
  rows = fill_error_columns <$> data
  ∧ out = (λ r : row, (λ key, default (VStr "") (r !! Some key)) <$> headers)
            <$> rows
  ∧ Forall (λ r, dom r ∖ list_to_set (Some <$> headers)
                 = (∅ : gset (option string))) rows.
Proof.
  revert rows out. induction data as [|r data IH]; intros rows out; simpl.
  - by intros [= <- <-].
  - unfold Csv.dict_to_list. case_decide as Hdom; [|done].
    destruct (write_rows headers data) as [[rows' out'] e'].
    intros [= <- <- ->]. destruct (IH _ _ eq_refl) as (-> & -> & Hall).
    split_and!; [done..|]. by constructor.
Qed.

(** X13.  A save that succeeded can be repeated: the second save writes
    the same records, shows the same box and leaves the model as the first
    one left it, with every category in the header and in every row. *)
Theorem save_csv_twice w w1 out msg :
  save_csv w = (w1, out) →
  notices w1 = notices w ++ [Information "Saved" msg] →
  save_csv w1 = (show [Information "Saved" msg] w1, out)
  ∧ ∃ m1, model w1 = Some m1
          ∧ (∀ c, c ∈ ERROR_COLUMNS → c ∈ _headers m1)
          ∧ Forall (λ r : row, ∀ c, c ∈ ERROR_COLUMNS → is_Some (r !! Some c))
                   (_data m1).
Proof.
  unfold save_csv at 1. intros Hsave Hnotices.
  destruct (model w) as [m|] eqn:Hm;
    [destruct (csv_file_path w) as [path|] eqn:Hpath;
     [destruct (decide (path = "")) as [Hempty|Hfile]|]|];
    try (injection Hsave as <- <-; unfold show in Hnotices;
         cbn [notices] in Hnotices;
         by apply app_inv_head in Hnotices).
  destruct (write_rows (add_error_columns (_headers m)) (_data m))
    as [[rows out'] e] eqn:Hrows.
  injection Hsave as <- <-. unfold show in Hnotices. cbn [notices] in Hnotices.
  apply app_inv_head in Hnotices.
  destruct e as [e|]; [done|]. injection Hnotices as <-.
  apply write_rows_None in Hrows as (-> & -> & Hdom).
  split.
  - unfold save_csv, show.
    cbn [model csv_file_path annotate_btn save_btn notices _data _headers].
    rewrite decide_False by done. rewrite add_error_columns_idemp.
    rewrite write_rows_ok.
    + by rewrite fill_rows_idemp, written_rows_idemp.
    + apply Forall_fmap. apply Forall_fmap in Hdom.
      eapply Forall_impl; [exact Hdom|]. intros r Hr. simpl in *.
      by rewrite fill_error_columns_idemp.
  - eexists. split; [reflexivity|]. cbn [_headers _data]. split.
    + intros c Hc. apply elem_of_add_error_columns. by right.
    + apply Forall_fmap, Forall_forall. intros r _ c Hc.
      apply fill_columns_keys. by left.
Qed.

End annotate_more.

(** ** The table model *)

Section table_more.
Import Main Table.

(** X12.  The table of a loaded file has a row for each record that is
    not blank and at least thirteen columns; a cell inside the table shows
    the value that the row holds under the header of the column, never the
    default, and asking for a cell outside raises the index error. *)
Theorem table_shows_loaded fieldnames records rows headers :
  read_csv (Records (fieldnames :: records)) = Loaded rows headers →
  rowCount (Model rows headers) = length (filter (λ r, r ≠ []) records)
  ∧ (13 ≤ columnCount (Model rows headers))%nat
  ∧ ∀ row col,
      if decide (row < rowCount (Model rows headers)
                 ∧ col < columnCount (Model rows headers))%nat
      then ∃ header_name r v,
             headers !! col = Some header_name ∧ rows !! row = Some r
             ∧ r !! Some header_name = Some v
             ∧ data (Model rows headers) (Index row col) DisplayRole
               = Returns v
      else data (Model rows headers) (Index row col) DisplayRole = IndexError.
Proof.
  intros Hload. rewrite read_csv_Records in Hload. cbv zeta in Hload.
  case_decide as Hmissing; [done|].
  pose proof (f_equal (λ o, match o with Loaded d _ => d | _ => [] end) Hload)
    as Hdata.
  pose proof (f_equal (λ o, match o with Loaded _ h => h | _ => [] end) Hload)
    as Hheaders.
  cbv beta iota in Hdata, Hheaders. clear Hload.
  unfold rowCount, columnCount, data. cbn [_data _headers].
  split; [|split].
  - subst rows. unfold Csv.read_all. by rewrite length_fmap.
  - assert (REQUIRED_COLUMNS ⊆+ headers) as Hsub.
    { apply NoDup_submseteq; [apply NoDup_REQUIRED_COLUMNS|].
      intros c Hc. subst headers. apply dec_stable. intros Hnot.
      assert (c ∈ filter (λ c, c ∉ add_error_columns fieldnames)
                         REQUIRED_COLUMNS) as Hin
        by by apply list_elem_of_filter.
      rewrite Hmissing in Hin. by inv Hin. }
    apply submseteq_length in Hsub. revert Hsub.
    by replace (length REQUIRED_COLUMNS) with 13%nat by by_compute.
  - intros row col. case_decide as Hin.
    + destruct Hin as [Hrow Hcol].
      apply lookup_lt_is_Some in Hrow as [r Hr].
      apply lookup_lt_is_Some in Hcol as [header_name Hh].
      assert (is_Some (r !! Some header_name)) as [v Hv].
      { subst rows. unfold Csv.read_all in Hr.
        apply list_lookup_fmap_Some in Hr as (record & -> & _).
        apply to_dict_keys. subst headers. by eapply list_elem_of_lookup_2. }
      exists header_name, r, v. by rewrite Hh, Hr, Hv.
    + destruct (headers !! col) as [header_name|] eqn:Hh; [|done].
      destruct (rows !! row) as [r|] eqn:Hr; [|done].
      apply lookup_lt_Some in Hh, Hr. lia.
Qed.

End table_more.

(** ** The further properties on the scenarios *)

Section further_scenarios.
Import Main.

Lemma drilldown_complete_witness :
  length scenario_answers = length ERROR_COLUMNS
  ∧ Forall (λ a, a ∈ combo_items) scenario_answers
  ∧ Detail.result
      (Detail.exec_ (answer_each scenario_answers) (Detail.init None))
    = Some Accepted
  ∧ Detail.get_responses
      (Detail.exec_ (answer_each scenario_answers) (Detail.init None))
      !! "Redundancy"
    = Some "Yes".
Proof.
  assert (length scenario_answers = length ERROR_COLUMNS) as Hlen by by_compute.
  assert (Forall (λ a, a ∈ combo_items) scenario_answers) as Hitems
    by by_compute.
  split; [exact Hlen|]. split; [exact Hitems|].
  destruct (drilldown_complete None scenario_answers Hlen Hitems)
    as (Hres & _ & Hanswers).
  split; [exact Hres|].
  apply (Hanswers 3%nat); by_compute.
Defined.

Lemma drilldown_accepted_applies_witness :
  ¬ ready scenario_tail_first_row
  ∧ in_range (Overview.csv_data scenario_tail_first_row)
             (Overview.current_index scenario_tail_first_row)
    = Some (scenario_B_row 0)
  ∧ is_correct (scenario_B_row 0) = Ok false
  ∧ Overview.current_answers scenario_tail_first_row = Ok all_no_answers
  ∧ Detail.result
      (Detail.exec_ [Detail.Pick "Yes"; Detail.ClickFinish]
         (Detail.init (Some all_no_answers)))
    = Some Accepted
  ∧ ∃ w', Overview.open_detailed_classification
            [Detail.Pick "Yes"; Detail.ClickFinish] scenario_tail_first_row
          = Ok w'
          ∧ Overview.csv_data w' = Overview.csv_data scenario_tail_first_row.
Proof.
  assert (¬ ready scenario_tail_first_row) as Hnot by by_compute.
  assert (in_range (Overview.csv_data scenario_tail_first_row)
            (Overview.current_index scenario_tail_first_row)
          = Some (scenario_B_row 0)) as Hr by by_compute.
  assert (is_correct (scenario_B_row 0) = Ok false) as Hcorrect by by_compute.
  assert (Overview.current_answers scenario_tail_first_row = Ok all_no_answers)
    as Hseed by by_compute.
  assert (Detail.result
            (Detail.exec_ [Detail.Pick "Yes"; Detail.ClickFinish]
               (Detail.init (Some all_no_answers)))
          = Some Accepted) as Hacc by by_compute.
  split; [exact Hnot|]. split; [exact Hr|]. split; [exact Hcorrect|].
  split; [exact Hseed|]. split; [exact Hacc|].
  destruct (drilldown_accepted_applies _ _ _ _ Hr Hcorrect Hseed Hacc)
    as (w' & Hopen & Hdata & _).
  exists w'. split; [exact Hopen|exact Hdata].
Defined.

Lemma commit_writes_tokens_witness :
  reachable scenario_tail_rows scenario_tail_visited
  ∧ ¬ Forall displayable scenario_tail_rows
  ∧ ∃ w1, Overview.save_current_row scenario_tail_visited = Ok w1.
Proof.
  assert (reachable scenario_tail_rows scenario_tail_visited) as Hreach.
  { exists 1, scenario_tail_events, scenario_tail_first_row.
    split; by_compute. }
  assert (¬ Forall displayable scenario_tail_rows) as Hnot by by_compute.
  split; [exact Hreach|]. split; [exact Hnot|].
  destruct (commit_writes_tokens _ _ Hreach) as (w1 & Hsave & _).
  exists w1. exact Hsave.
Defined.

Lemma cursor_in_bounds_witness :
  0 < 1 ≤ Z.of_nat (length scenario_tail_rows)
  ∧ Overview.init scenario_tail_rows 1 = Ok scenario_tail_first_row
  ∧ Overview.run scenario_tail_events scenario_tail_first_row
    = Ok scenario_tail_visited
  ∧ 0 ≤ Overview.current_index scenario_tail_visited
      < Z.of_nat (length scenario_tail_rows)
  ∧ length (Overview.csv_data scenario_tail_visited)
    = length scenario_tail_rows.
Proof.
  assert (0 < 1 ≤ Z.of_nat (length scenario_tail_rows)) as Hrow by by_compute.
  assert (Overview.init scenario_tail_rows 1 = Ok scenario_tail_first_row)
    as Hinit by by_compute.
  assert (Overview.run scenario_tail_events scenario_tail_first_row
          = Ok scenario_tail_visited) as Hrun by by_compute.
  split; [exact Hrow|]. split; [exact Hinit|]. split; [exact Hrun|].
  exact (proj1 (cursor_in_bounds scenario_tail_rows 1 scenario_tail_events Hrow)
           _ _ Hinit Hrun).
Defined.

Lemma next_then_previous_witness :
  combos_exist scenario_tail_first_row
  ∧ items_shown scenario_tail_first_row
  ∧ ¬ ready scenario_tail_first_row
  ∧ in_range (Overview.csv_data scenario_tail_first_row)
             (Overview.current_index scenario_tail_first_row)
    = Some (scenario_B_row 0)
  ∧ in_range (Overview.csv_data scenario_tail_first_row)
             (Overview.current_index scenario_tail_first_row + 1)
    = Some (scenario_B_row 1)
  ∧ displayable (scenario_B_row 0) ∧ displayable (scenario_B_row 1)
  ∧ is_correct (scenario_B_row 0) = Ok false
  ∧ ∃ w1 w2,
      Overview.save_and_next_row scenario_tail_first_row = Ok w1
      ∧ Overview.save_and_previous_row w1 = Ok w2
      ∧ Overview.current_index w2
        = Overview.current_index scenario_tail_first_row.
Proof.
  assert (combos_exist scenario_tail_first_row) as Hcs by by_compute.
  assert (items_shown scenario_tail_first_row) as Hitems.
  { apply (init_items scenario_tail_rows 1). by_compute. }
  assert (¬ ready scenario_tail_first_row) as Hnot by by_compute.
  assert (in_range (Overview.csv_data scenario_tail_first_row)
            (Overview.current_index scenario_tail_first_row)
          = Some (scenario_B_row 0)) as Hr by by_compute.
  assert (in_range (Overview.csv_data scenario_tail_first_row)
            (Overview.current_index scenario_tail_first_row + 1)
          = Some (scenario_B_row 1)) as Hr2 by by_compute.
  assert (displayable (scenario_B_row 0)) as Hshow by by_compute.
  assert (displayable (scenario_B_row 1)) as Hshow2 by by_compute.
  assert (is_correct (scenario_B_row 0) = Ok false) as Hcorrect by by_compute.
  split; [exact Hcs|]. split; [exact Hitems|]. split; [exact Hnot|].
  split; [exact Hr|]. split; [exact Hr2|]. split; [exact Hshow|].
  split; [exact Hshow2|]. split; [exact Hcorrect|].
  destruct (next_then_previous _ _ _ _ Hcs Hitems Hr Hr2 Hshow Hshow2 Hcorrect)
    as (w1 & w2 & Hw1 & Hw2 & _ & Hidx & _).
  exists w1, w2. split; [exact Hw1|]. split; [exact Hw2|exact Hidx].
Defined.

Lemma absent_category_is_None_witness :
  read_csv (Records (scenario_bare_fieldnames :: scenario_bare_records))
  = Loaded scenario_bare_rows REQUIRED_COLUMNS
  ∧ "Grammar" ∈ ERROR_COLUMNS
  ∧ "Grammar" ∉ scenario_bare_fieldnames
  ∧ default ∅ (scenario_bare_rows !! 0%nat) !! Some "Grammar" = Some VNone.
Proof.
  assert (read_csv (Records (scenario_bare_fieldnames :: scenario_bare_records))
          = Loaded scenario_bare_rows REQUIRED_COLUMNS) as Hload by by_compute.
  assert ("Grammar" ∈ ERROR_COLUMNS) as Hc by by_compute.
  assert ("Grammar" ∉ scenario_bare_fieldnames) as Hnot by by_compute.
  split; [exact Hload|]. split; [exact Hc|]. split; [exact Hnot|].
  apply (absent_category_is_None scenario_bare_fieldnames
           scenario_bare_records scenario_bare_rows REQUIRED_COLUMNS 0
           ["q1"; "a1"; "p1"; "False"]);
    [exact Hload|exact Hc|exact Hnot|by_compute..].
Defined.

Lemma save_fails_on_long_record_witness :
  ∃ w',
    save_csv (load_csv "data.csv"
                (Records (REQUIRED_COLUMNS :: scenario_long_records)) init)
    = (w',
       [VStr <$> REQUIRED_COLUMNS;
        VStr <$> ["q1"; "a1"; "p1"; "False";
                  "No"; "No"; "No"; "No"; "No"; "No"; "No"; "No"; "No"]])
    ∧ notices w' = [Critical "Error" "Failed to save CSV:" ValueError].
Proof.
  assert ("data.csv" ≠ "") as Hpath by discriminate.
  assert (∀ c, c ∈ ["question"; "true_answer"; "predicted_answer_full";
                    "is_correct"] → c ∈ REQUIRED_COLUMNS) as Hfixed.
  { apply Forall_forall. by_compute. }
  assert (filter (λ r, r ≠ []) scenario_long_records
          = [["q1"; "a1"; "p1"; "False";
              "No"; "No"; "No"; "No"; "No"; "No"; "No"; "No"; "No"]]
            ++ scenario_long_record
               :: [["q3"; "a3"; "p3"; "False";
                    "No"; "No"; "No"; "No"; "No"; "No"; "No"; "No"; "No"]])
    as Hsplit by by_compute.
  assert (Forall (λ record,
                    (length record
                     ≤ length (add_error_columns REQUIRED_COLUMNS))%nat)
                 [["q1"; "a1"; "p1"; "False";
                   "No"; "No"; "No"; "No"; "No"; "No"; "No"; "No"; "No"]])
    as Hpre by by_compute.
  assert (length (add_error_columns REQUIRED_COLUMNS)
          < length scenario_long_record)%nat as Hlong by by_compute.
  destruct (save_fails_on_long_record "data.csv" REQUIRED_COLUMNS
              scenario_long_records init _ _ _ Hpath Hfixed Hsplit Hpre Hlong)
    as (w' & Hsave & Hnotices).
  exists w'. split; [|exact Hnotices].
  rewrite Hsave. apply (f_equal (pair w')). by_compute.
Defined.

Lemma annotate_rows_frame_witness :
  annotate_rows scenario_B_session scenario_tail_loaded
  = Ok scenario_tail_annotated
  ∧ csv_file_path scenario_tail_annotated = csv_file_path scenario_tail_loaded
  ∧ annotate_btn scenario_tail_annotated = annotate_btn scenario_tail_loaded
  ∧ save_btn scenario_tail_annotated = save_btn scenario_tail_loaded.
Proof.
  assert (annotate_rows scenario_B_session scenario_tail_loaded
          = Ok scenario_tail_annotated) as Hrun by by_compute.
  split; [exact Hrun|].
  destruct (proj1 (annotate_rows_frame scenario_B_session scenario_tail_loaded)
              _ Hrun) as (Hpath & Ha & Hs & _).
  split; [exact Hpath|]. split; [exact Ha|exact Hs].
Defined.

Lemma annotate_then_save_witness :
  "data.csv" ≠ "" ∧ NoDup REQUIRED_COLUMNS
  ∧ annotate_rows scenario_B_session
      (load_csv "data.csv"
         (Records (REQUIRED_COLUMNS :: scenario_tail_records)) init)
    = Ok scenario_tail_annotated
  ∧ ∃ w2 out,
      save_csv scenario_tail_annotated
      = (w2, (VStr <$> add_error_columns REQUIRED_COLUMNS) :: out)
      ∧ length out = length (filter (λ r, r ≠ []) scenario_tail_records).
Proof.
  assert ("data.csv" ≠ "") as Hpath by discriminate.
  assert (NoDup REQUIRED_COLUMNS) as Hnd by by_compute.
  assert (∀ c, c ∈ ["question"; "true_answer"; "predicted_answer_full";
                    "is_correct"] → c ∈ REQUIRED_COLUMNS) as Hfixed.
  { apply Forall_forall. by_compute. }
  assert (Forall (λ record,
                    (length record
                     ≤ length (add_error_columns REQUIRED_COLUMNS))%nat)
                 scenario_tail_records) as Hlen by by_compute.
  assert (annotate_rows scenario_B_session
            (load_csv "data.csv"
               (Records (REQUIRED_COLUMNS :: scenario_tail_records)) init)
          = Ok scenario_tail_annotated) as Hrun by by_compute.
  split; [exact Hpath|]. split; [exact Hnd|]. split; [exact Hrun|].
  destruct (proj1 (annotate_then_save "data.csv" REQUIRED_COLUMNS
                     scenario_tail_records init scenario_B_session
                     Hpath Hnd Hfixed Hlen)
              scenario_tail_annotated Hrun)
    as (w2 & out & Hsave & _ & Hout & _).
  exists w2, out. split; [exact Hsave|exact Hout].
Defined.

Lemma table_shows_loaded_witness :
  read_csv (Records (REQUIRED_COLUMNS :: scenario_B_records))
  = Loaded scenario_B_rows REQUIRED_COLUMNS
  ∧ Table.rowCount (Model scenario_B_rows REQUIRED_COLUMNS)
    = length (filter (λ r, r ≠ []) scenario_B_records)
  ∧ (13 ≤ Table.columnCount (Model scenario_B_rows REQUIRED_COLUMNS))%nat.
Proof.
  assert (read_csv (Records (REQUIRED_COLUMNS :: scenario_B_records))
          = Loaded scenario_B_rows REQUIRED_COLUMNS) as Hload by by_compute.
  split; [exact Hload|].
  destruct (table_shows_loaded _ _ _ _ Hload) as (Hrows & Hcols & _).
  split; [exact Hrows|exact Hcols].
Defined.

Lemma save_csv_twice_witness :
  notices (save_csv scenario_B_loaded).1
  = notices scenario_B_loaded
    ++ [Information "Saved" "CSV saved to: results/annotated_data.csv"]
  ∧ save_csv (save_csv scenario_B_loaded).1
    = (show [Information "Saved" "CSV saved to: results/annotated_data.csv"]
         (save_csv scenario_B_loaded).1,
       (save_csv scenario_B_loaded).2).
Proof.
  assert (notices (save_csv scenario_B_loaded).1
          = notices scenario_B_loaded
            ++ [Information "Saved"
                  "CSV saved to: results/annotated_data.csv"]) as Hsaved
    by by_compute.
  split; [exact Hsaved|].
  exact (proj1 (save_csv_twice scenario_B_loaded _ _ _
                  (surjective_pairing (save_csv scenario_B_loaded)) Hsaved)).
Defined.

End further_scenarios.
